(** * gardener-extensions: generic worker actuator (deletion) and generic
    controlplane mutator.

    A shallow embedding of
      - [pkg/controller/worker/genericactuator/actuator_delete.go]
      - the generic controlplane mutator ([package genericmutator])
    together with the properties their specification states about them.

    Go pointers to objects that are mutated in place become explicit state;
    the API server ([a.client]) and the provider hooks are an explicit world
    that records every call issued to it. *)

From stdpp Require Import gmap strings list pretty.

Set Warnings "-register-all,-clear-no-such-hyp".

Open Scope Z_scope.

(** ** Go errors *)

(** The error values the two packages build or forward.  The constructors
    follow the way the source makes the error:
    [errors.New]/a collaborator's error, [errors.Wrapf], the two
    [fmt.Errorf] calls of [actuator_delete.go], and the sentinel
    [wait.ErrWaitTimeout] of [k8s.io/apimachinery/pkg/util/wait]. *)
Inductive error : Type :=
| ErrNew (msg : string)
| ErrWrapf (cause : error) (msg : string)
| ErrLabelling (errorList : list error)
| ErrMachineFailed (name description : string)
| ErrWaitTimeout.

(** [strings.Join]. *)
Fixpoint Join (elems : list string) (sep : string) : string :=
  match elems with
  | [] => ""
  | [s] => s
  | s :: rest => s +:+ sep +:+ Join rest sep
  end.

(** [err.Error()]: [Wrapf] prints [msg: cause], [%v] of a [[]error] prints
    the messages between brackets, separated by one space. *)
Fixpoint Error (e : error) : string :=
  match e with
  | ErrNew msg => msg
  | ErrWrapf cause msg => msg +:+ ": " +:+ Error cause
  | ErrLabelling errorList =>
      "labelling machines (to become forcefully deleted) failed: ["
      +:+ Join ((fix msgs (l : list error) : list string :=
                   match l with
                   | [] => []
                   | e' :: l' => Error e' :: msgs l'
                   end) errorList) " "
      +:+ "]"
  | ErrMachineFailed name description =>
      "Machine " +:+ name +:+ " failed: " +:+ description
  | ErrWaitTimeout => "timed out waiting for the condition"
  end.

(** A Go function returning [(T, error)]. *)
Inductive result (A : Type) : Type :=
| Ok (a : A)
| Err (e : error).
Arguments Ok {A} a.
Arguments Err {A} e.

(** A Go function returning only [error]. *)
Definition errOf {A : Type} (r : result A) : option error :=
  match r with
  | Ok _ => None
  | Err e => Some e
  end.

(** ** State and error monad

    [M S A] is a Go function body working on mutable state [S]: it returns a
    value or an error, and the state it has reached in both cases (what was
    mutated in place before an error stays mutated). *)
Definition M (S A : Type) : Type := S → S * result A.

Definition ret {S A : Type} (a : A) : M S A := λ s, (s, Ok a).

Definition fail {S A : Type} (e : error) : M S A := λ s, (s, Err e).

Definition bind {S A B : Type} (m : M S A) (f : A → M S B) : M S B :=
  λ s, match m s with
       | (s', Ok a) => f a s'
       | (s', Err e) => (s', Err e)
       end.

Definition gets {S A : Type} (f : S → A) : M S A := λ s, (s, Ok (f s)).

Definition modify {S : Type} (f : S → S) : M S unit := λ s, (f s, Ok tt).

(** [if err := m; err != nil { return errors.Wrapf(err, msg) }] *)
Definition wrapf {S A : Type} (m : M S A) (msg : string) : M S A :=
  λ s, match m s with
       | (s', Ok a) => (s', Ok a)
       | (s', Err e) => (s', Err (ErrWrapf e msg))
       end.

(** Lift a collaborator's answer. *)
Definition lift {S A : Type} (r : result A) : M S A := λ s, (s, r).

Definition liftErr {S : Type} (o : option error) : M S unit :=
  λ s, (s, match o with None => Ok tt | Some e => Err e end).

Global Instance M_ret {S : Type} : MRet (M S) := @ret S.
Global Instance M_bind {S : Type} : MBind (M S) := λ A B f m, bind m f.

(** Run a body that works on a part of the state (the callee's own
    receiver or argument) and put the part back. *)
Definition zoom {S T A : Type} (get : S → T) (put : T → S → S) (m : M T A) : M S A :=
  λ s, match m (get s) with
       | (t', r) => (put t' s, r)
       end.

(** ** Formatting helpers of the Go standard library *)

(** [strings.HasSuffix] *)
Definition HasSuffix (s suffix : string) : bool :=
  bool_decide (String.length suffix ≤ String.length s)%nat
  && bool_decide (String.substring (String.length s - String.length suffix)
                                   (String.length suffix) s = suffix).

(** [strings.TrimSuffix] *)
Definition TrimSuffix (s suffix : string) : string :=
  if HasSuffix s suffix
  then String.substring 0 (String.length s - String.length suffix) s
  else s.

(** [strings.Contains] *)
Fixpoint Contains (s substr : string) : bool :=
  String.prefix substr s
  || match s with
     | EmptyString => false
     | String _ s' => Contains s' substr
     end.

(** ** Package genericactuator: deletion of a worker *)

Module genericactuator.

Definition forceDeletionLabelKey : string := "force-deletion".
Definition forceDeletionLabelValue : string := "True".

(** *** The machine-controller-manager resources, as far as the actuator
    reads or writes them *)

(** [machinev1alpha1.Machine]; [Labels] is a Go map, which may be [nil]. *)
Module Machine.
Record t : Type := {
  Name : string;
  Labels : option (gmap string string);
}.
End Machine.

Module MachineSet.
Record t : Type := { Name : string }.
End MachineSet.

(** [machinev1alpha1.MachineSummary], an entry of
    [MachineDeployment.Status.FailedMachines]; [Description] is
    [LastOperation.Description]. *)
Module MachineSummary.
Record t : Type := {
  Name : string;
  Description : string;
}.
End MachineSummary.

Module MachineDeployment.
Record t : Type := {
  Name : string;
  FailedMachines : list MachineSummary.t;
}.
End MachineDeployment.

(** The provider's machine class list ([workerDelegate.MachineClassList()])
    once filled by [List]; [ExtractList] is what [meta.ExtractList] makes of
    it. *)
Module MachineClassList.
Record t : Type := { ExtractList : result (list string) }.
End MachineClassList.

(** [corev1.Secret] *)
Module Secret.
Record t : Type := {
  Name : string;
  Finalizers : list string;
}.
End Secret.

(** The five resource types the deletion waits for. *)
Inductive Kind : Type :=
| KMachine | KMachineSet | KMachineDeployment | KMachineClass | KMachineClassSecret.

Global Instance Kind_eq_dec : EqDecision Kind.
Proof. solve_decision. Defined.

(** What the API server answers to the list calls of one tick of the wait,
    were they issued. *)
Record Snapshot : Type := {
  existingMachines : result (list Machine.t);
  existingMachineSets : result (list MachineSet.t);
  existingMachineDeployments : result (list MachineDeployment.t);
  machineClassList : result MachineClassList.t;
  existingMachineClassSecrets : result (list Secret.t);
}.

(** *** The actuator and the world it acts on *)

(** Every call the actuator issues to a collaborator, in the order issued. *)
Inductive Op : Type :=
| OpWorkerDelegate
| OpGetDeployment
| OpScaleDeployment
| OpApplyShootChart
| OpList (k : Kind)
| OpUpdate (m : Machine.t)
| OpCleanupMachineDeployments
| OpCleanupMachineClasses
| OpCleanupMachineClassSecrets
| OpLogInfo (msg : string)
| OpNewClientsForShoot
| OpDeleteShootChart
| OpDeleteSeedChart.

(** The collaborators of [genericActuator] during one [Delete]: what each
    call answers.  [schedule] is the order in which the Go scheduler steps
    the goroutines of the fan-out (by index of the machine), and [ticks] the
    answers of the API server at the ticks of the poll that fire before the
    context of the wait is done. *)
Record genericActuator : Type := {
  WorkerDelegate : option error;
  GetDeployment : option error;
  ScaleDeployment : option error;
  applyMachineControllerManagerShootChart : option error;
  ListMachines : option error;
  Update : Machine.t → option error;
  schedule : list nat;
  ListMachineDeployments : option error;
  cleanupMachineDeployments : option error;
  cleanupMachineClasses : option error;
  cleanupMachineClassSecrets : option error;
  ticks : list Snapshot;
  NewClientsForShoot : option error;
  mcmShootChartDelete : option error;
  mcmSeedChartDelete : option error;
}.

(** The seed cluster: the Machine objects of the worker's namespace and the
    calls issued so far. *)
Record World : Type := {
  machines : list Machine.t;
  ops : list Op;
}.

Definition record (o : Op) : M World unit :=
  modify (λ w, {| machines := machines w; ops := ops w ++ [o] |}).

(** An external call that answers with an error or not. *)
Definition call (o : Op) (answer : option error) : M World unit :=
  record o ;; liftErr answer.

(** Replace the stored object of the same name. *)
Definition store (m : Machine.t) (l : list Machine.t) : list Machine.t :=
  (λ m', if decide (Machine.Name m' = Machine.Name m) then m else m') <$> l.

(** [a.client.Update(ctx, machine)] *)
Definition clientUpdate (a : genericActuator) (m : Machine.t) : M World unit :=
  call (OpUpdate m) (Update a m) ;;
  modify (λ w, {| machines := store m (machines w); ops := ops w |}).

(** *** markMachineForcefulDeletion *)

Definition setLabels (l : gmap string string) (m : Machine.t) : Machine.t :=
  {| Machine.Name := Machine.Name m; Machine.Labels := Some l |}.

Definition labelsOf (m : Machine.t) : gmap string string :=
  default ∅ (Machine.Labels m).

(** [markMachineForcefulDeletion] labels a machine object to become
    forcefully deleted.  The state is the object behind the [*Machine]
    argument together with the world. *)
Definition markMachineForcefulDeletion (a : genericActuator)
  : M (Machine.t * World) unit :=
  labels ← gets (λ s, Machine.Labels s.1) ;
  (if labels is None
   then modify (prod_map (setLabels ∅) id)
   else mret tt) ;;
  val ← gets (λ s, labelsOf s.1 !! forceDeletionLabelKey) ;
  if decide (val = Some forceDeletionLabelValue)
  then mret tt
  else
    modify (prod_map (λ m, setLabels (<[forceDeletionLabelKey := forceDeletionLabelValue]> (labelsOf m)) m) id) ;;
    machine ← gets fst ;
    zoom snd (λ w s, (s.1, w)) (clientUpdate a machine).

(** *** markAllMachinesForcefulDeletion *)

(** One goroutine of the fan-out, [go func(m machinev1alpha1.Machine)]:
    - [Marking m]: about to call [markMachineForcefulDeletion(ctx, &m)];
    - [Failed err]: the call returned [err != nil]; the goroutine is about
      to evaluate [append(errorList, err)], which reads [errorList];
    - [Appending old err]: it has read [old] and is about to assign
      [append(old, err)] to [errorList];
    - [Done]: [wg.Done()] has run.
    [errorList] is shared by all goroutines and nothing synchronises the
    read and the assignment. *)
Inductive goroutine : Type :=
| Marking (m : Machine.t)
| Failed (err : error)
| Appending (old : list error) (err : error)
| Done.

Record fanout : Type := {
  world : World;
  errorList : list error;
  goroutines : list goroutine;
}.

(** Goroutine [i] makes its next step.  The read of [errorList] and its
    assignment are one step each: a whole slice value is read or written,
    and no step faults.  What the Go memory model further allows for the
    unsynchronised assignment (a slice header written in parts, a fault) is
    outside this model, so that a statement about every schedule is one
    about every interleaving of these steps. *)
Definition step (a : genericActuator) (f : fanout) (i : nat) : fanout :=
  match goroutines f !! i with
  | Some (Marking m) =>
      match markMachineForcefulDeletion a (m, world f) with
      | (s, r) =>
          {| world := s.2;
             errorList := errorList f;
             goroutines := <[i := match r with
                                  | Ok _ => Done
                                  | Err err => Failed err
                                  end]> (goroutines f) |}
      end
  | Some (Failed err) =>
      {| world := world f;
         errorList := errorList f;
         goroutines := <[i := Appending (errorList f) err]> (goroutines f) |}
  | Some (Appending old err) =>
      {| world := world f;
         errorList := old ++ [err];
         goroutines := <[i := Done]> (goroutines f) |}
  | Some Done | None => f
  end.

Definition run (a : genericActuator) (sched : list nat) (f : fanout) : fanout :=
  foldl (step a) f sched.

(** [wg.Wait()]: every goroutine runs to its end.  Whatever the scheduler
    has left undone is run here, goroutine after goroutine. *)
Definition Wait (a : genericActuator) (f : fanout) : fanout :=
  run a (i ← seq 0 (length (goroutines f)) ; [i; i; i]) f.

(** The [for ... { go func(m) {...}(machine) }; wg.Wait()] of
    [markAllMachinesForcefulDeletion]; the value is the final [errorList]. *)
Definition fanOut (a : genericActuator) (existingMachines : list Machine.t)
  : M World (list error) :=
  λ w,
    let f := Wait a (run a (schedule a)
                       {| world := w; errorList := [];
                          goroutines := Marking <$> existingMachines |}) in
    (world f, Ok (errorList f)).

(** Mark all existing machines to become forcefully deleted. *)
Definition markAllMachinesForcefulDeletion (a : genericActuator) : M World unit :=
  call (OpList KMachine) (ListMachines a) ;;
  existingMachines ← gets machines ;
  errorList ← fanOut a existingMachines ;
  if decide (0 < length errorList)%nat
  then fail (ErrLabelling errorList)
  else mret tt.

(** *** waitUntilMachineResourcesDeleted *)

(** [wait.PollUntil(interval, condition, stopCh)] of
    [k8s.io/apimachinery/pkg/util/wait]: [condition] is evaluated at every
    tick until it answers [true] or an error, which ends the poll with [nil]
    or with that error; when [stopCh] is closed first the poll ends with
    [ErrWaitTimeout].  [ticks] holds one entry for each evaluation that
    happens before [stopCh] is closed. *)
Fixpoint PollUntil {S T : Type} (ticks : list T) (condition : T → M S bool)
  : M S unit :=
  match ticks with
  | [] => fail ErrWaitTimeout
  | t :: ticks' =>
      done ← condition t ;
      if done : bool then mret tt else PollUntil ticks' condition
  end.

(** The variables captured by the condition closure. *)
Record Counts : Type := {
  countMachines : Z;
  countMachineSets : Z;
  countMachineDeployments : Z;
  countMachineClasses : Z;
  countMachineClassSecrets : Z;
}.

Definition initialCounts : Counts :=
  {| countMachines := -1; countMachineSets := -1;
     countMachineDeployments := -1; countMachineClasses := -1;
     countMachineClassSecrets := -1 |}.

Definition count (k : Kind) (c : Counts) : Z :=
  match k with
  | KMachine => countMachines c
  | KMachineSet => countMachineSets c
  | KMachineDeployment => countMachineDeployments c
  | KMachineClass => countMachineClasses c
  | KMachineClassSecret => countMachineClassSecrets c
  end.

Definition setCount (k : Kind) (n : Z) (c : Counts) : Counts :=
  {| countMachines := if decide (k = KMachine) then n else countMachines c;
     countMachineSets := if decide (k = KMachineSet) then n else countMachineSets c;
     countMachineDeployments :=
       if decide (k = KMachineDeployment) then n else countMachineDeployments c;
     countMachineClasses :=
       if decide (k = KMachineClass) then n else countMachineClasses c;
     countMachineClassSecrets :=
       if decide (k = KMachineClassSecret) then n else countMachineClassSecrets c |}.

(** The state of the wait: the captured variables and the world. *)
Definition Poll : Type := Counts * World.

Definition inWorld {A : Type} (m : M World A) : M Poll A :=
  zoom snd (λ w s, (s.1, w)) m.

(** [a.client.List(ctx, client.InNamespace(worker.Namespace), list)] during
    the wait, answered by the tick's snapshot. *)
Definition clientList {A : Type} (k : Kind) (answer : result A) : M Poll A :=
  inWorld (record (OpList k)) ;; lift answer.

Definition assign (k : Kind) (n : Z) : M Poll unit :=
  modify (prod_map (setCount k n) id).

(** [len(items)] *)
Definition len {A : Type} (l : list A) : Z := Z.of_nat (length l).

(** The condition function polled by [waitUntilMachineResourcesDeleted] is
    made of five blocks, one for each resource type, which add to [msg], and
    of the final test.  Each block is a definition of its own here. *)

(** Check whether all machines have been deleted. *)
Definition checkMachines (snapshot : Snapshot) (msg : string) : M Poll string :=
  c ← gets (λ s, countMachines s.1) ;
  if decide (c ≠ 0) then
    existingMachines ← clientList KMachine (existingMachines snapshot) ;
    assign KMachine (len existingMachines) ;;
    c ← gets (λ s, countMachines s.1) ;
    mret (msg +:+ pretty c +:+ " machines, ")
  else mret msg.

(** Check whether all machine sets have been deleted. *)
Definition checkMachineSets (snapshot : Snapshot) (msg : string) : M Poll string :=
  c ← gets (λ s, countMachineSets s.1) ;
  if decide (c ≠ 0) then
    existingMachineSets ← clientList KMachineSet (existingMachineSets snapshot) ;
    assign KMachineSet (len existingMachineSets) ;;
    c ← gets (λ s, countMachineSets s.1) ;
    mret (msg +:+ pretty c +:+ " machine sets, ")
  else mret msg.

(** Check whether all machine deployments have been deleted. *)
Definition checkMachineDeployments (snapshot : Snapshot) (msg : string) : M Poll string :=
  c ← gets (λ s, countMachineDeployments s.1) ;
  if decide (c ≠ 0) then
    existingMachineDeployments ←
      clientList KMachineDeployment (existingMachineDeployments snapshot) ;
    assign KMachineDeployment (len existingMachineDeployments) ;;
    c ← gets (λ s, countMachineDeployments s.1) ;
    let msg := msg +:+ pretty c +:+ " machine deployments, " in
    (* Check whether an operation failed during the deletion process: the
       two nested loops return at the first failed machine they meet. *)
    match existingMachineDeployment ← existingMachineDeployments ;
          MachineDeployment.FailedMachines existingMachineDeployment with
    | failedMachine :: _ =>
        fail (ErrMachineFailed (MachineSummary.Name failedMachine)
                               (MachineSummary.Description failedMachine))
    | [] => mret msg
    end
  else mret msg.

(** Check whether all machine classes have been deleted. *)
Definition checkMachineClasses (snapshot : Snapshot) (msg : string) : M Poll string :=
  c ← gets (λ s, countMachineClasses s.1) ;
  if decide (c ≠ 0) then
    machineClassList ← clientList KMachineClass (machineClassList snapshot) ;
    machineClasses ← lift (MachineClassList.ExtractList machineClassList) ;
    assign KMachineClass (len machineClasses) ;;
    c ← gets (λ s, countMachineClasses s.1) ;
    mret (msg +:+ pretty c +:+ " machine classes, ")
  else mret msg.

(** Check whether all machine class secrets have been deleted. *)
Definition checkMachineClassSecrets (snapshot : Snapshot) (msg : string) : M Poll string :=
  c ← gets (λ s, countMachineClassSecrets s.1) ;
  if decide (c ≠ 0) then
    existingMachineClassSecrets ←
      clientList KMachineClassSecret (existingMachineClassSecrets snapshot) ;
    let count :=
      len (filter (λ machineClassSecret,
                     length (Secret.Finalizers machineClassSecret) ≠ 0%nat)
                  existingMachineClassSecrets) in
    assign KMachineClassSecret count ;;
    c ← gets (λ s, countMachineClassSecrets s.1) ;
    mret (msg +:+ pretty c +:+ " machine class secrets, ")
  else mret msg.

(** The end of the condition: log and go on, or be done. *)
Definition conclude (msg : string) : M Poll bool :=
  cs ← gets fst ;
  if decide (countMachines cs ≠ 0 ∨ countMachineSets cs ≠ 0
             ∨ countMachineDeployments cs ≠ 0 ∨ countMachineClasses cs ≠ 0
             ∨ countMachineClassSecrets cs ≠ 0)
  then
    inWorld (record (OpLogInfo
      ("Waiting until the following machine resources have been processed: "
       +:+ TrimSuffix msg ", "))) ;;
    mret false
  else mret true.

Definition condition (snapshot : Snapshot) : M Poll bool :=
  let msg := "" in
  msg ← checkMachines snapshot msg ;
  msg ← checkMachineSets snapshot msg ;
  msg ← checkMachineDeployments snapshot msg ;
  msg ← checkMachineClasses snapshot msg ;
  msg ← checkMachineClassSecrets snapshot msg ;
  conclude msg.

(** The poll itself, on the captured variables and the world. *)
Definition poll (a : genericActuator) : M Poll unit :=
  PollUntil (ticks a) condition.

(** [waitUntilMachineResourcesDeleted] waits until all machine resources
    have been deleted by the machine-controller-manager. *)
Definition waitUntilMachineResourcesDeleted (a : genericActuator) : M World unit :=
  zoom (λ w, (initialCounts, w)) (λ s _, s.2) (poll a).

(** *** Delete *)

(** [gardencorev1alpha1helper.DetermineError(message)]: an error whose text
    is [message]. *)
Definition DetermineError (message : string) : error := ErrNew message.

(** [if err := m; err != nil { return DetermineError(Sprintf(..., err.Error())) }] *)
Definition determine {S A : Type} (m : M S A) : M S A :=
  λ s, match m s with
       | (s', Ok a) => (s', Ok a)
       | (s', Err err) =>
           (s', Err (DetermineError
                       ("Failed while waiting for all machine resources to be deleted: '"
                        +:+ Error err +:+ "'")))
       end.

Definition Delete (a : genericActuator) : M World unit :=
  wrapf (call OpWorkerDelegate (WorkerDelegate a))
        "could not instantiate actuator context" ;;

  (* Make sure machine-controller-manager is awake before deleting the machines. *)
  call OpGetDeployment (GetDeployment a) ;;
  call OpScaleDeployment (ScaleDeployment a) ;;

  (* Make sure that all RBAC roles required by the machine-controller-manager
     exist in the shoot cluster. *)
  wrapf (call OpApplyShootChart (applyMachineControllerManagerShootChart a))
        "could not apply machine-controller-manager shoot chart" ;;

  (* Mark all existing machines to become forcefully deleted. *)
  record (OpLogInfo "Deleting all machines") ;;
  wrapf (markAllMachinesForcefulDeletion a)
        "marking all machines for forceful deletion failed" ;;

  (* Get the list of all existing machine deployments. *)
  call (OpList KMachineDeployment) (ListMachineDeployments a) ;;

  (* Delete all machine deployments. *)
  wrapf (call OpCleanupMachineDeployments (cleanupMachineDeployments a))
        "cleaning up machine deployments failed" ;;

  (* Delete all machine classes. *)
  wrapf (call OpCleanupMachineClasses (cleanupMachineClasses a))
        "cleaning up machine classes failed" ;;

  (* Delete all machine class secrets. *)
  wrapf (call OpCleanupMachineClassSecrets (cleanupMachineClassSecrets a))
        "cleaning up machine class secrets failed" ;;

  (* Wait until all machine resources have been properly deleted. *)
  determine (waitUntilMachineResourcesDeleted a) ;;

  (* Delete the machine-controller-manager. *)
  record (OpLogInfo "Deleting the machine-controller-manager") ;;
  wrapf (call OpNewClientsForShoot (NewClientsForShoot a))
        "could not create shoot client for cleanup of machine-controller-manager resources" ;;
  wrapf (call OpDeleteShootChart (mcmShootChartDelete a))
        "cleaning up machine-controller-manager resources in shoot failed" ;;
  wrapf (call OpDeleteSeedChart (mcmSeedChartDelete a))
        "cleaning up machine-controller-manager resources in seed failed" ;;

  mret tt.

(** *** Notions used to state the properties of the deletion *)

(** The machine carries the force-deletion marker. *)
Definition marked (m : Machine.t) : Prop :=
  labelsOf m !! forceDeletionLabelKey = Some forceDeletionLabelValue.

Global Instance marked_dec m : Decision (marked m).
Proof. unfold marked. apply _. Defined.

(** The object [markMachineForcefulDeletion] sends to the API server. *)
Definition withMarker (m : Machine.t) : Machine.t :=
  setLabels (<[forceDeletionLabelKey := forceDeletionLabelValue]> (labelsOf m)) m.

(** The five resource types, in the order the condition looks at them. *)
Definition kinds : list Kind :=
  [KMachine; KMachineSet; KMachineDeployment; KMachineClass; KMachineClassSecret].

(** All five counts are zero. *)
Definition allZero (c : Counts) : Prop :=
  countMachines c = 0 ∧ countMachineSets c = 0 ∧ countMachineDeployments c = 0
  ∧ countMachineClasses c = 0 ∧ countMachineClassSecrets c = 0.

(** The calls issued between two states of the wait. *)
Definition issued (s s' : Poll) : list Op :=
  drop (length (ops s.2)) (ops s'.2).

(** The error, if any, with which the snapshot answers the listing of a
    resource type (for machine classes: [List], then [meta.ExtractList]). *)
Definition listError (k : Kind) (t : Snapshot) : option error :=
  match k with
  | KMachine => errOf (existingMachines t)
  | KMachineSet => errOf (existingMachineSets t)
  | KMachineDeployment => errOf (existingMachineDeployments t)
  | KMachineClass =>
      match machineClassList t with
      | Err e => Some e
      | Ok l => errOf (MachineClassList.ExtractList l)
      end
  | KMachineClassSecret => errOf (existingMachineClassSecrets t)
  end.

(** [pending condition ticks s s']: evaluated at [ticks] one after the
    other from state [s], the condition answers [false] without error each
    time, and leaves state [s']. *)
Inductive pending {S T : Type} (condition : T → M S bool) : list T → S → S → Prop :=
| pending_nil s : pending condition [] s s
| pending_cons t ticks s s1 s' :
    condition t s = (s1, Ok false) →
    pending condition ticks s1 s' →
    pending condition (t :: ticks) s s'.

(** The text of a count in the progress message. *)
Definition entry (k : Kind) (n : Z) : string :=
  pretty n +:+
  match k with
  | KMachine => " machines, "
  | KMachineSet => " machine sets, "
  | KMachineDeployment => " machine deployments, "
  | KMachineClass => " machine classes, "
  | KMachineClassSecret => " machine class secrets, "
  end.

(** The progress message of a tick that starts with the counts [before] and
    ends with the counts [after]: one entry for each resource type whose
    count was not zero when the tick started, with the count the tick has
    observed. *)
Definition summary (before after : Counts) : string :=
  foldl (λ msg k, msg +:+ entry k (count k after)) ""
        (filter (λ k, count k before ≠ 0) kinds).

Definition progress (msg : string) : Op :=
  OpLogInfo ("Waiting until the following machine resources have been processed: "
             +:+ TrimSuffix msg ", ").

(** The block of the condition for a resource type. *)
Definition check (k : Kind) : Snapshot → string → M Poll string :=
  match k with
  | KMachine => checkMachines
  | KMachineSet => checkMachineSets
  | KMachineDeployment => checkMachineDeployments
  | KMachineClass => checkMachineClasses
  | KMachineClassSecret => checkMachineClassSecrets
  end.

(** The blocks for some resource types, one after the other. *)
Fixpoint checks (ks : list Kind) (t : Snapshot) (msg : string) : M Poll string :=
  match ks with
  | [] => mret msg
  | k :: ks' => msg ← check k t msg ; checks ks' t msg
  end.

(** The count a block assigns when it lists its resource type at the
    snapshot, or the error of the listing. *)
Definition observe (k : Kind) (t : Snapshot) : result Z :=
  match k with
  | KMachine =>
      match existingMachines t with Ok l => Ok (len l) | Err e => Err e end
  | KMachineSet =>
      match existingMachineSets t with Ok l => Ok (len l) | Err e => Err e end
  | KMachineDeployment =>
      match existingMachineDeployments t with Ok l => Ok (len l) | Err e => Err e end
  | KMachineClass =>
      match machineClassList t with
      | Ok l =>
          match MachineClassList.ExtractList l with
          | Ok l => Ok (len l)
          | Err e => Err e
          end
      | Err e => Err e
      end
  | KMachineClassSecret =>
      match existingMachineClassSecrets t with
      | Ok l => Ok (len (filter (λ x, length (Secret.Finalizers x) ≠ 0%nat) l))
      | Err e => Err e
      end
  end.

(** The failed machines the listed machine deployments report, in the order
    of the two loops. *)
Definition failedMachines (k : Kind) (t : Snapshot) : list MachineSummary.t :=
  match k, existingMachineDeployments t with
  | KMachineDeployment, Ok l => md ← l ; MachineDeployment.FailedMachines md
  | _, _ => []
  end.

Global Instance allZero_dec c : Decision (allZero c).
Proof. unfold allZero. apply _. Defined.

(** The world after one more call. *)
Definition logged (o : Op) (w : World) : World :=
  {| machines := machines w; ops := ops w ++ [o] |}.

(** The progress entry a tick logs after its queries, if it goes on. *)
Definition logOf (before after : Counts) (r : result bool) : list Op :=
  match r with
  | Ok false => [progress (summary before after)]
  | _ => []
  end.

(** What one block of the condition does, as a relation between the state
    before and the state and result after. *)
Inductive checked (k : Kind) (t : Snapshot) (msg : string) (s : Poll)
  : Poll → result string → Prop :=
| checked_closed :
    count k s.1 = 0 → checked k t msg s s (Ok msg)
| checked_error e :
    count k s.1 ≠ 0 → observe k t = Err e →
    checked k t msg s (s.1, logged (OpList k) s.2) (Err e)
| checked_failed n fm rest :
    count k s.1 ≠ 0 → observe k t = Ok n → failedMachines k t = fm :: rest →
    checked k t msg s (setCount k n s.1, logged (OpList k) s.2)
      (Err (ErrMachineFailed (MachineSummary.Name fm) (MachineSummary.Description fm)))
| checked_open n :
    count k s.1 ≠ 0 → observe k t = Ok n → failedMachines k t = [] →
    checked k t msg s (setCount k n s.1, logged (OpList k) s.2) (Ok (msg +:+ entry k n)).

(** The answer to the labelling of a machine: none if it is marked already,
    else the answer of the API server to the update. *)
Definition outcome (a : genericActuator) (m : Machine.t) : option error :=
  if decide (marked m) then None else Update a (withMarker m).

(** The stored object once the labelling of [m] has run. *)
Definition labelled (a : genericActuator) (m : Machine.t) : Machine.t :=
  if decide (marked m) then m
  else match Update a (withMarker m) with
       | None => withMarker m
       | Some _ => m
       end.

(** The world once the labelling of [m] has run. *)
Definition afterMarking (a : genericActuator) (m : Machine.t) (w : World) : World :=
  if decide (marked m) then w
  else {| machines := match Update a (withMarker m) with
                      | None => store (withMarker m) (machines w)
                      | Some _ => machines w
                      end;
          ops := ops w ++ [OpUpdate (withMarker m)] |}.

(** The state of the fan-out over [items], started in world [w0]:
    - a goroutine that has not started holds its machine, which is stored
      as it was; one that has started has its machine stored as labelled;
    - a goroutine whose labelling failed is about to append its error, or
      has done so, and then [errorList] is not empty;
    - [errorList], and what a goroutine has read of it, holds errors of
      labellings only. *)
Record fanoutInv (a : genericActuator) (items : list Machine.t) (w0 : World)
    (f : fanout) : Prop := {
  inv_length : length (goroutines f) = length items;
  inv_stored : ∀ i m, items !! i = Some m →
    machines (world f) !! i
    = Some (match goroutines f !! i with
            | Some (Marking _) => m
            | _ => labelled a m
            end);
  inv_goroutine : ∀ i m, items !! i = Some m →
    match goroutines f !! i with
    | Some (Marking m') => m' = m
    | Some (Failed e) => outcome a m = Some e
    | Some (Appending old e) =>
        outcome a m = Some e
        ∧ ∀ e', e' ∈ old → ∃ m', m' ∈ items ∧ outcome a m' = Some e'
    | Some Done => outcome a m = None ∨ errorList f ≠ []
    | None => False
    end;
  inv_errors : ∀ e, e ∈ errorList f → ∃ m, m ∈ items ∧ outcome a m = Some e;
  inv_names : Machine.Name <$> machines (world f) = Machine.Name <$> items;
  inv_ops : ∃ us, ops (world f) = ops w0 ++ (OpUpdate <$> us)
                  ∧ ∀ u, u ∈ us → ∃ m, m ∈ items ∧ ¬ marked m ∧ u = withMarker m;
}.

(** The fan-out after its first [k] goroutines have run, one after the
    other. *)
Definition serialState (a : genericActuator) (items : list Machine.t) (w : World)
    (k : nat) : fanout :=
  {| world := foldl (λ w m, afterMarking a m w) w (take k items);
     errorList := omap (outcome a) (take k items);
     goroutines := replicate k Done ++ (Marking <$> drop k items) |}.

(** The stages of [Delete] that precede the labelling all pass. *)
Definition reachesMarking (a : genericActuator) : Prop :=
  WorkerDelegate a = None ∧ GetDeployment a = None ∧ ScaleDeployment a = None
  ∧ applyMachineControllerManagerShootChart a = None ∧ ListMachines a = None.

(** The calls of [Delete] up to the listing of the machines. *)
Definition opsBeforeMarking : list Op :=
  [OpWorkerDelegate; OpGetDeployment; OpScaleDeployment; OpApplyShootChart;
   OpLogInfo "Deleting all machines"; OpList KMachine].

(** The calls of the cascade deletion. *)
Definition cascade (o : Op) : Prop :=
  o = OpList KMachineDeployment ∨ o = OpCleanupMachineDeployments
  ∨ o = OpCleanupMachineClasses ∨ o = OpCleanupMachineClassSecrets.

(** The name of a resource type in the progress message. *)
Definition kindName (k : Kind) : string :=
  match k with
  | KMachine => "machines"
  | KMachineSet => "machine sets"
  | KMachineDeployment => "machine deployments"
  | KMachineClass => "machine classes"
  | KMachineClassSecret => "machine class secrets"
  end.

(** The progress message names non-zero counts only: the message of a tick that goes on names
    no resource type whose count the tick leaves at zero. *)
Definition summaryNamesNonZeroOnly (t : Snapshot) (s : Poll) : Prop :=
  ∀ s' msg k,
    condition t s = (s', Ok false) →
    last (ops s'.2) = Some (OpLogInfo msg) →
    count k s'.1 = 0 →
    Contains msg (kindName k) = false.

(** *** Notions used to state more properties of [Delete] *)

(** The machines of the goroutines that have not started to label. *)
Definition waiting (gs : list goroutine) : list Machine.t :=
  omap (λ g, match g with Marking m => Some m | _ => None end) gs.

(** The updates the labelling of some machines issues. *)
Definition updatesOf (ms : list Machine.t) : list Op :=
  OpUpdate <$> (withMarker <$> filter (λ m, ¬ marked m) ms).

(** Every goroutine is at its end or waits with a machine that carries the
    marker. *)
Definition settled (gs : list goroutine) : Prop :=
  ∀ g, g ∈ gs → g = Done ∨ ∃ m, g = Marking m ∧ marked m.

(** The calls issued between two worlds. *)
Definition issuedIn (w w' : World) : list Op := drop (length (ops w)) (ops w').

(** A call that reads or logs. *)
Definition readOnly (o : Op) : Prop :=
  match o with
  | OpList _ | OpLogInfo _ => True
  | _ => False
  end.

(** The calls that remove the machine-controller-manager. *)
Definition removal (o : Op) : Prop :=
  o = OpNewClientsForShoot ∨ o = OpDeleteShootChart ∨ o = OpDeleteSeedChart.

(** A call of the labelling stage. *)
Definition labelling (o : Op) : Prop :=
  match o with
  | OpList KMachine | OpUpdate _ => True
  | _ => False
  end.

(** The world after some more calls. *)
Definition called (os : list Op) (w : World) : World :=
  {| machines := machines w; ops := ops w ++ os |}.

(** The calls of [Delete] that precede the labelling, in their order. *)
Definition opsSetup : list Op :=
  [OpWorkerDelegate; OpGetDeployment; OpScaleDeployment; OpApplyShootChart;
   OpLogInfo "Deleting all machines"].

(** The calls of the cascade deletion, in their order. *)
Definition opsCascade : list Op :=
  [OpList KMachineDeployment; OpCleanupMachineDeployments;
   OpCleanupMachineClasses; OpCleanupMachineClassSecrets].

(** The calls of [Delete] that follow the wait, in their order. *)
Definition opsRemoval : list Op :=
  [OpLogInfo "Deleting the machine-controller-manager"; OpNewClientsForShoot;
   OpDeleteShootChart; OpDeleteSeedChart].

(** The stages of [Delete] that precede the labelling all pass. *)
Definition setupPasses (a : genericActuator) : Prop :=
  WorkerDelegate a = None ∧ GetDeployment a = None ∧ ScaleDeployment a = None
  ∧ applyMachineControllerManagerShootChart a = None.

(** The stages of the cascade deletion all pass. *)
Definition cascadePasses (a : genericActuator) : Prop :=
  ListMachineDeployments a = None ∧ cleanupMachineDeployments a = None
  ∧ cleanupMachineClasses a = None ∧ cleanupMachineClassSecrets a = None.

(** The stages that remove the machine-controller-manager all pass. *)
Definition removalPasses (a : genericActuator) : Prop :=
  NewClientsForShoot a = None ∧ mcmShootChartDelete a = None
  ∧ mcmSeedChartDelete a = None.

(** How a run of [Delete] ends: at the stage that fails first, with the
    calls issued up to it, or after the last stage. *)
Inductive DeleteEnds (a : genericActuator) (w : World) : World → result unit → Prop :=
| ends_setup n e :
    (n < 4)%nat →
    nth_error [WorkerDelegate a; GetDeployment a; ScaleDeployment a;
               applyMachineControllerManagerShootChart a] n = Some (Some e) →
    (∀ i, (i < n)%nat →
       nth_error [WorkerDelegate a; GetDeployment a; ScaleDeployment a;
                  applyMachineControllerManagerShootChart a] i = Some None) →
    DeleteEnds a w (called (take (S n) opsSetup) w)
      (Err (nth n [ErrWrapf e "could not instantiate actuator context"; e; e;
                   ErrWrapf e "could not apply machine-controller-manager shoot chart"]
                e))
| ends_marking w6 e :
    setupPasses a →
    markAllMachinesForcefulDeletion a (called opsSetup w) = (w6, Err e) →
    DeleteEnds a w w6
      (Err (ErrWrapf e "marking all machines for forceful deletion failed"))
| ends_cascade w6 n e :
    setupPasses a →
    markAllMachinesForcefulDeletion a (called opsSetup w) = (w6, Ok tt) →
    (n < 4)%nat →
    nth_error [ListMachineDeployments a; cleanupMachineDeployments a;
               cleanupMachineClasses a; cleanupMachineClassSecrets a] n = Some (Some e) →
    (∀ i, (i < n)%nat →
       nth_error [ListMachineDeployments a; cleanupMachineDeployments a;
                  cleanupMachineClasses a; cleanupMachineClassSecrets a] i = Some None) →
    DeleteEnds a w (called (take (S n) opsCascade) w6)
      (Err (nth n [e; ErrWrapf e "cleaning up machine deployments failed";
                   ErrWrapf e "cleaning up machine classes failed";
                   ErrWrapf e "cleaning up machine class secrets failed"] e))
| ends_wait w6 w11 e :
    setupPasses a →
    markAllMachinesForcefulDeletion a (called opsSetup w) = (w6, Ok tt) →
    cascadePasses a →
    waitUntilMachineResourcesDeleted a (called opsCascade w6) = (w11, Err e) →
    DeleteEnds a w w11
      (Err (DetermineError
              ("Failed while waiting for all machine resources to be deleted: '"
               +:+ Error e +:+ "'")))
| ends_removal w6 w11 n e :
    setupPasses a →
    markAllMachinesForcefulDeletion a (called opsSetup w) = (w6, Ok tt) →
    cascadePasses a →
    waitUntilMachineResourcesDeleted a (called opsCascade w6) = (w11, Ok tt) →
    (n < 3)%nat →
    nth_error [NewClientsForShoot a; mcmShootChartDelete a; mcmSeedChartDelete a] n
      = Some (Some e) →
    (∀ i, (i < n)%nat →
       nth_error [NewClientsForShoot a; mcmShootChartDelete a; mcmSeedChartDelete a] i
       = Some None) →
    DeleteEnds a w (called (take (S (S n)) opsRemoval) w11)
      (Err (ErrWrapf e
         (nth n ["could not create shoot client for cleanup of machine-controller-manager resources";
                 "cleaning up machine-controller-manager resources in shoot failed";
                 "cleaning up machine-controller-manager resources in seed failed"] "")))
| ends_done w6 w11 :
    setupPasses a →
    markAllMachinesForcefulDeletion a (called opsSetup w) = (w6, Ok tt) →
    cascadePasses a →
    waitUntilMachineResourcesDeleted a (called opsCascade w6) = (w11, Ok tt) →
    removalPasses a →
    DeleteEnds a w (called opsRemoval w11) (Ok tt).

(** A machine as [Delete] leaves it stored once the labelling has passed. *)
Definition withMarkerOnce (m : Machine.t) : Machine.t :=
  if decide (marked m) then m else withMarker m.

(** The resource types that are open in some counts, in the order of the
    blocks of the condition. *)
Definition openKinds (c : Counts) : list Kind := filter (λ k, count k c ≠ 0) kinds.

(** The listing of [k] at tick [t] ends the tick with error [e]: the listing
    fails with [e], or a listed machine deployment reports a failed
    machine. *)
Definition stopsWith (k : Kind) (t : Snapshot) (e : error) : Prop :=
  listError k t = Some e
  ∨ ∃ items md fm,
      k = KMachineDeployment
      ∧ existingMachineDeployments t = Ok items
      ∧ md ∈ items ∧ fm ∈ MachineDeployment.FailedMachines md
      ∧ e = ErrMachineFailed (MachineSummary.Name fm) (MachineSummary.Description fm).

End genericactuator.

(** ** Package genericmutator: the controlplane mutator *)

Module genericmutator.

(** Names of the well-known controlplane objects,
    [github.com/gardener/gardener/pkg/operation/common]. *)
Module common.
Definition KubeAPIServerDeploymentName : string := "kube-apiserver".
Definition KubeControllerManagerDeploymentName : string := "kube-controller-manager".
Definition KubeSchedulerDeploymentName : string := "kube-scheduler".
Definition EtcdMainStatefulSetName : string := "etcd-main".
Definition EtcdEventsStatefulSetName : string := "etcd-events".
End common.

(** [extensionsv1alpha1.OperatingSystemConfigPurposeReconcile] *)
Definition OperatingSystemConfigPurposeReconcile : string := "reconcile".

(** Modelled from the spec: the identifier of the base64 file codec,
    [cloudinit.B64FileCodecID], is declared outside the files at hand; the
    spec calls it the fixed encoding identifier. *)
Definition B64FileCodecID : string := "b64".

Definition cloudProviderConfigPath : string := "/var/lib/kubelet/cloudprovider.conf".

(** *** Objects *)

(** [unit.UnitOption] of [github.com/coreos/go-systemd/unit] *)
Module UnitOption.
Record t : Type := {
  Section : string;
  Name : string;
  Value : string;
}.
End UnitOption.

(** [extensionsv1alpha1.FileContentInline] *)
Module FileContentInline.
Record t : Type := {
  Encoding : string;
  Data : string;
}.
End FileContentInline.

(** [extensionsv1alpha1.FileContent]; the secret reference is kept as its
    name. *)
Module FileContent.
Record t : Type := {
  SecretRef : option string;
  Inline : option FileContentInline.t;
}.
End FileContent.

(** [extensionsv1alpha1.File] *)
Module File.
Record t : Type := {
  Path : string;
  Permissions : option Z;
  Content : FileContent.t;
}.
End File.

(** [extensionsv1alpha1.Unit], as far as the mutator reads or writes it. *)
Module Unit.
Record t : Type := {
  Name : string;
  Content : option string;
}.
End Unit.

(** [extensionsv1alpha1.OperatingSystemConfig] *)
Module OperatingSystemConfig.
Record t : Type := {
  Name : string;
  Namespace : string;
  Purpose : string;
  Units : list Unit.t;
  Files : list File.t;
}.
End OperatingSystemConfig.

(** A workload object ([corev1.Service], [appsv1.Deployment],
    [appsv1.StatefulSet]): its name, its namespace, and its specification,
    which only the provider looks into. *)
Module Workload.
Record t (Spec : Type) : Type := {
  Name : string;
  Namespace : string;
  Spec_ : Spec;
}.
Arguments Name {Spec} _.
Arguments Namespace {Spec} _.
Arguments Spec_ {Spec} _.
End Workload.

(** Every method of [Ensurer] and the cluster lookup, as they are called. *)
Inductive Call : Type :=
| CallGetCluster (namespace : string)
| CallEnsureKubeAPIServerService
| CallEnsureKubeAPIServerDeployment
| CallEnsureKubeControllerManagerDeployment
| CallEnsureKubeSchedulerDeployment
| CallEnsureETCDStatefulSet
| CallEnsureKubeletServiceUnitOptions
| CallEnsureKubeletConfiguration
| CallEnsureKubernetesGeneralConfiguration
| CallShouldProvisionKubeletCloudProviderConfig
| CallEnsureKubeletCloudProviderConfig (namespace : string).

Section Mutator.

(** The types the mutator only hands on to the provider. *)
Variables (ServiceSpec DeploymentSpec StatefulSetSpec : Type).
Variables (KubeletConfiguration Cluster : Type).

(** [runtime.Object]: the concrete types [Mutate] switches on, and any
    other. *)
Inductive Object : Type :=
| Service (x : Workload.t ServiceSpec)
| Deployment (x : Workload.t DeploymentSpec)
| StatefulSet (x : Workload.t StatefulSetSpec)
| OperatingSystemConfig (x : OperatingSystemConfig.t)
| Other (kind name : string).

(** [Ensurer] ensures that various standard Kubernets controlplane objects
    conform to the provider requirements.  A method that takes a pointer and
    returns [error] is a body on the object pointed to. *)
Record Ensurer : Type := {
  EnsureKubeAPIServerService : M (Workload.t ServiceSpec) unit;
  EnsureKubeAPIServerDeployment : M (Workload.t DeploymentSpec) unit;
  EnsureKubeControllerManagerDeployment : M (Workload.t DeploymentSpec) unit;
  EnsureKubeSchedulerDeployment : M (Workload.t DeploymentSpec) unit;
  EnsureETCDStatefulSet : Cluster → M (Workload.t StatefulSetSpec) unit;
  EnsureKubeletServiceUnitOptions : list UnitOption.t → result (list UnitOption.t);
  EnsureKubeletConfiguration : M KubeletConfiguration unit;
  EnsureKubernetesGeneralConfiguration : M string unit;
  ShouldProvisionKubeletCloudProviderConfig : bool;
  EnsureKubeletCloudProviderConfig : string → M string unit;
}.

(** [controlplane.UnitSerializer].  [Serialize] returns its string also
    along with an error. *)
Record UnitSerializer : Type := {
  Serialize : list UnitOption.t → string * option error;
  Deserialize : string → result (list UnitOption.t);
}.

(** [controlplane.KubeletConfigCodec] *)
Record KubeletConfigCodec : Type := {
  kcEncode : KubeletConfiguration → string → result FileContentInline.t;
  kcDecode : FileContentInline.t → result KubeletConfiguration;
}.

(** [controlplane.FileContentInlineCodec]; a [[]byte] is a [string]. *)
Record FileContentInlineCodec : Type := {
  fciEncode : string → string → result FileContentInline.t;
  fciDecode : FileContentInline.t → result string;
}.

(** [mutator]; of [client] only the cluster lookup
    [extensionscontroller.GetCluster(ctx, m.client, namespace)] is used. *)
Record mutator : Type := {
  GetCluster : string → result Cluster;
  ensurer : Ensurer;
  unitSerializer : UnitSerializer;
  kubeletConfigCodec : KubeletConfigCodec;
  fciCodec : FileContentInlineCodec;
}.

(** Modelled from the spec: [controlplane.UnitWithName] is declared outside
    the files at hand; the spec has it locate the unit of the given name.
    The pointer it returns is the position of the unit in the slice. *)
Definition UnitWithName (units : list Unit.t) (name : string) : option (nat * Unit.t) :=
  list_find (λ u, Unit.Name u = name) units.

(** Modelled from the spec: [controlplane.FileWithPath] is declared outside
    the files at hand; the spec has it locate the file at the given path. *)
Definition FileWithPath (files : list File.t) (path : string) : option (nat * File.t) :=
  list_find (λ f, File.Path f = path) files.

(** Modelled from the spec: [controlplane.EnsureFileWithPath] is declared
    outside the files at hand; the spec has it upsert the file into the
    list, which is to insert it, or to replace the entry at its path. *)
Definition EnsureFileWithPath (items : list File.t) (item : File.t) : list File.t :=
  match FileWithPath items (File.Path item) with
  | None => items ++ [item]
  | Some (i, _) => <[i := item]> items
  end.

(** The state of a body of the mutator: the object its pointer argument
    points to, and the calls made to the provider so far. *)
Definition invoke {X : Type} (c : Call) : M (X * list Call) unit :=
  modify (prod_map id (λ calls : list Call, (calls ++ [c])%list)).

(** Call a method of the ensurer on the object. *)
Definition onObject {X A : Type} (m : M X A) : M (X * list Call) A :=
  zoom fst (λ x s, (x, s.2)) m.

(** Run a body on a part [Y] of the object [X]. *)
Definition within {X Y A : Type} (get : X → Y) (put : Y → X → X)
    (m : M (Y * list Call) A) : M (X * list Call) A :=
  zoom (λ s, (get s.1, s.2)) (λ t s, (put t.1 s.1, t.2)) m.

Variable m : mutator.

Definition ensureKubeletServiceUnitContent : M (string * list Call) unit :=
  (* Deserialize unit options *)
  content ← gets fst ;
  opts ← wrapf (lift (Deserialize (unitSerializer m) content))
               "could not deserialize kubelet.service unit content" ;

  invoke CallEnsureKubeletServiceUnitOptions ;;
  opts ← lift (EnsureKubeletServiceUnitOptions (ensurer m) opts) ;

  (* Serialize unit options *)
  let (content, err) := Serialize (unitSerializer m) opts in
  modify (prod_map (λ _, content) id) ;;
  wrapf (liftErr err) "could not serialize kubelet.service unit options".

Definition ensureKubeletConfigFileContent : M (FileContentInline.t * list Call) unit :=
  (* Decode kubelet configuration from inline content *)
  fci ← gets fst ;
  kubeletConfig ← wrapf (lift (kcDecode (kubeletConfigCodec m) fci))
                        "could not decode kubelet configuration" ;

  invoke CallEnsureKubeletConfiguration ;;
  kubeletConfig ← within (λ _, kubeletConfig) (λ _ fci, fci)
                    (onObject (EnsureKubeletConfiguration (ensurer m)) ;; gets fst) ;

  (* Encode kubelet configuration into inline content *)
  newFCI ← wrapf (lift (kcEncode (kubeletConfigCodec m) kubeletConfig
                                 (FileContentInline.Encoding fci)))
                 "could not encode kubelet configuration" ;
  modify (prod_map (λ _, newFCI) id).

Definition ensureKubernetesGeneralConfiguration : M (FileContentInline.t * list Call) unit :=
  (* Decode kubernetes general configuration from inline content *)
  fci ← gets fst ;
  data ← wrapf (lift (fciDecode (fciCodec m) fci))
               "could not decode kubernetes general configuration" ;

  let s := data in
  invoke CallEnsureKubernetesGeneralConfiguration ;;
  s ← within (λ _, s) (λ _ fci, fci)
        (onObject (EnsureKubernetesGeneralConfiguration (ensurer m)) ;; gets fst) ;

  (* Encode kubernetes general configuration into inline content *)
  newFCI ← wrapf (lift (fciEncode (fciCodec m) s (FileContentInline.Encoding fci)))
                 "could not encode kubernetes general configuration" ;
  modify (prod_map (λ _, newFCI) id).

Definition setFiles (files : list File.t) (osc : OperatingSystemConfig.t)
  : OperatingSystemConfig.t :=
  {| OperatingSystemConfig.Name := OperatingSystemConfig.Name osc;
     OperatingSystemConfig.Namespace := OperatingSystemConfig.Namespace osc;
     OperatingSystemConfig.Purpose := OperatingSystemConfig.Purpose osc;
     OperatingSystemConfig.Units := OperatingSystemConfig.Units osc;
     OperatingSystemConfig.Files := files |}.

Definition setUnits (units : list Unit.t) (osc : OperatingSystemConfig.t)
  : OperatingSystemConfig.t :=
  {| OperatingSystemConfig.Name := OperatingSystemConfig.Name osc;
     OperatingSystemConfig.Namespace := OperatingSystemConfig.Namespace osc;
     OperatingSystemConfig.Purpose := OperatingSystemConfig.Purpose osc;
     OperatingSystemConfig.Units := units;
     OperatingSystemConfig.Files := OperatingSystemConfig.Files osc |}.

(** [util.Int32Ptr(0644)]; the literal is octal. *)
Definition perm0644 : Z := 6 * 64 + 4 * 8 + 4.

Definition ensureKubeletCloudProviderConfig
  : M (OperatingSystemConfig.t * list Call) unit :=
  (* Ensure kubelet cloud provider config *)
  let s := "" in
  namespace ← gets (λ st, OperatingSystemConfig.Namespace st.1) ;
  invoke (CallEnsureKubeletCloudProviderConfig namespace) ;;
  s ← within (λ _, s) (λ _ osc, osc)
        (onObject (EnsureKubeletCloudProviderConfig (ensurer m) namespace) ;; gets fst) ;

  (* Encode cloud provider config into inline content *)
  fci ← wrapf (lift (fciEncode (fciCodec m) s B64FileCodecID))
              "could not encode kubelet cloud provider config" ;

  (* Ensure the cloud provider config file is part of the OperatingSystemConfig *)
  modify (prod_map
    (λ osc, setFiles
       (EnsureFileWithPath (OperatingSystemConfig.Files osc)
          {| File.Path := cloudProviderConfigPath;
             File.Permissions := Some perm0644;
             File.Content := {| FileContent.SecretRef := None;
                                FileContent.Inline := Some fci |} |})
       osc) id).

Definition setContent (content : string) (u : Unit.t) : Unit.t :=
  {| Unit.Name := Unit.Name u; Unit.Content := Some content |}.

Definition setInline (fci : FileContentInline.t) (f : File.t) : File.t :=
  {| File.Path := File.Path f;
     File.Permissions := File.Permissions f;
     File.Content := {| FileContent.SecretRef := FileContent.SecretRef (File.Content f);
                        FileContent.Inline := Some fci |} |}.

(** Run [body] on [f.Content.Inline] of the file at [path], if present. *)
Definition onInlineOf (path : string)
    (body : M (FileContentInline.t * list Call) unit)
  : M (OperatingSystemConfig.t * list Call) unit :=
  files ← gets (λ st, OperatingSystemConfig.Files st.1) ;
  match FileWithPath files path with
  | Some (i, f) =>
      match FileContent.Inline (File.Content f) with
      | Some inline =>
          within (λ _, inline)
                 (λ inline osc,
                    setFiles (<[i := setInline inline f]> (OperatingSystemConfig.Files osc)) osc)
                 body
      | None => mret tt
      end
  | None => mret tt
  end.

Definition mutateOperatingSystemConfig : M (OperatingSystemConfig.t * list Call) unit :=
  (* Mutate kubelet.service unit, if present *)
  units ← gets (λ st, OperatingSystemConfig.Units st.1) ;
  match UnitWithName units "kubelet.service" with
  | Some (i, u) =>
      match Unit.Content u with
      | Some content =>
          within (λ _, content)
                 (λ content osc,
                    setUnits (<[i := setContent content u]> (OperatingSystemConfig.Units osc)) osc)
                 ensureKubeletServiceUnitContent
      | None => mret tt
      end
  | None => mret tt
  end ;;

  (* Mutate kubelet configuration file, if present *)
  onInlineOf "/var/lib/kubelet/config/kubelet" ensureKubeletConfigFileContent ;;

  (* Mutate 99 kubernetes general configuration file, if present *)
  onInlineOf "/etc/sysctl.d/99-k8s-general.conf" ensureKubernetesGeneralConfiguration ;;

  (* Check if cloud provider config needs to be ensured *)
  invoke CallShouldProvisionKubeletCloudProviderConfig ;;
  if ShouldProvisionKubeletCloudProviderConfig (ensurer m)
  then ensureKubeletCloudProviderConfig
  else mret tt.

(** Call the method [h] of the ensurer on [x], known to be the object. *)
Definition ensure {X : Type} (c : Call) (wrap : X → Object) (x : X) (h : M X unit)
  : M (Object * list Call) unit :=
  invoke c ;; within (λ _, x) (λ x _, wrap x) (onObject h).

(** [Mutate] validates and if needed mutates the given object. *)
Definition Mutate : M (Object * list Call) unit :=
  obj ← gets fst ;
  match obj with
  | Service x =>
      if decide (Workload.Name x = common.KubeAPIServerDeploymentName)
      then ensure CallEnsureKubeAPIServerService Service x
                  (EnsureKubeAPIServerService (ensurer m))
      else mret tt
  | Deployment x =>
      if decide (Workload.Name x = common.KubeAPIServerDeploymentName)
      then ensure CallEnsureKubeAPIServerDeployment Deployment x
                  (EnsureKubeAPIServerDeployment (ensurer m))
      else if decide (Workload.Name x = common.KubeControllerManagerDeploymentName)
      then ensure CallEnsureKubeControllerManagerDeployment Deployment x
                  (EnsureKubeControllerManagerDeployment (ensurer m))
      else if decide (Workload.Name x = common.KubeSchedulerDeploymentName)
      then ensure CallEnsureKubeSchedulerDeployment Deployment x
                  (EnsureKubeSchedulerDeployment (ensurer m))
      else mret tt
  | StatefulSet x =>
      if decide (Workload.Name x = common.EtcdMainStatefulSetName
                 ∨ Workload.Name x = common.EtcdEventsStatefulSetName)
      then
        (* Get cluster info *)
        invoke (CallGetCluster (Workload.Namespace x)) ;;
        cluster ← wrapf (lift (GetCluster m (Workload.Namespace x)))
                        ("could not get cluster for namespace '"
                         +:+ Workload.Namespace x +:+ "'") ;
        ensure CallEnsureETCDStatefulSet StatefulSet x
               (EnsureETCDStatefulSet (ensurer m) cluster)
      else mret tt
  | OperatingSystemConfig x =>
      if decide (OperatingSystemConfig.Purpose x = OperatingSystemConfigPurposeReconcile)
      then within (λ _, x) (λ x _, OperatingSystemConfig x) mutateOperatingSystemConfig
      else mret tt
  | Other _ _ => mret tt
  end.

End Mutator.

Arguments Service {_ _ _} x.
Arguments Deployment {_ _ _} x.
Arguments StatefulSet {_ _ _} x.
Arguments OperatingSystemConfig {_ _ _} x.
Arguments Other {_ _ _} kind name.
Arguments EnsureKubeAPIServerService {_ _ _ _ _} e.
Arguments EnsureKubeAPIServerDeployment {_ _ _ _ _} e.
Arguments EnsureKubeControllerManagerDeployment {_ _ _ _ _} e.
Arguments EnsureKubeSchedulerDeployment {_ _ _ _ _} e.
Arguments EnsureETCDStatefulSet {_ _ _ _ _} e.
Arguments EnsureKubeletServiceUnitOptions {_ _ _ _ _} e.
Arguments EnsureKubeletConfiguration {_ _ _ _ _} e.
Arguments EnsureKubernetesGeneralConfiguration {_ _ _ _ _} e.
Arguments ShouldProvisionKubeletCloudProviderConfig {_ _ _ _ _} e.
Arguments EnsureKubeletCloudProviderConfig {_ _ _ _ _} e.
Arguments kcEncode {_} k.
Arguments kcDecode {_} k.
Arguments GetCluster {_ _ _ _ _} m.
Arguments ensurer {_ _ _ _ _} m.
Arguments unitSerializer {_ _ _ _ _} m.
Arguments kubeletConfigCodec {_ _ _ _ _} m.
Arguments fciCodec {_ _ _ _ _} m.
Arguments ensureKubeletServiceUnitContent {_ _ _ _ _} m.
Arguments ensureKubeletConfigFileContent {_ _ _ _ _} m.
Arguments ensureKubernetesGeneralConfiguration {_ _ _ _ _} m.
Arguments ensureKubeletCloudProviderConfig {_ _ _ _ _} m.
Arguments mutateOperatingSystemConfig {_ _ _ _ _} m.
Arguments ensure {_ _ _ _} c wrap x h.
Arguments Mutate {_ _ _ _ _} m.

(** *** Notions used to state the properties of the mutator *)

Section Targets.
Context {ServiceSpec DeploymentSpec StatefulSetSpec : Type}.

(** The objects the dispatcher acts on: a workload object of a well-known
    name for its kind, or an OperatingSystemConfig of purpose "reconcile". *)
Definition target (obj : Object ServiceSpec DeploymentSpec StatefulSetSpec) : Prop :=
  match obj with
  | Service x => Workload.Name x = common.KubeAPIServerDeploymentName
  | Deployment x =>
      Workload.Name x ∈ [common.KubeAPIServerDeploymentName;
                         common.KubeControllerManagerDeploymentName;
                         common.KubeSchedulerDeploymentName]
  | StatefulSet x =>
      Workload.Name x ∈ [common.EtcdMainStatefulSetName;
                         common.EtcdEventsStatefulSetName]
  | OperatingSystemConfig x =>
      OperatingSystemConfig.Purpose x = OperatingSystemConfigPurposeReconcile
  | Other _ _ => False
  end.

End Targets.

(** The entries of a file list at a path. *)
Definition filesAt (path : string) (files : list File.t) : list File.t :=
  filter (λ f, File.Path f = path) files.

(** The file entry [ensureKubeletCloudProviderConfig] upserts. *)
Definition cloudProviderConfigFile (fci : FileContentInline.t) : File.t :=
  {| File.Path := cloudProviderConfigPath;
     File.Permissions := Some perm0644;
     File.Content := {| FileContent.SecretRef := None;
                        FileContent.Inline := Some fci |} |}.

(** A codec keeps the declared encoding: what [encode] returns carries the
    encoding it was asked for. *)
Definition keepsEncoding {A : Type}
    (encode : A → string → result FileContentInline.t) : Prop :=
  ∀ x encoding fci, encode x encoding = Ok fci → FileContentInline.Encoding fci = encoding.

(** A codec round-trips: encoding what was decoded from a payload, with the
    encoding the payload declares, gives the payload back. *)
Definition roundTrips {A : Type}
    (encode : A → string → result FileContentInline.t)
    (decode : FileContentInline.t → result A) : Prop :=
  ∀ fci x, decode fci = Ok x → encode x (FileContentInline.Encoding fci) = Ok fci.

Section Stated.
Context {ServiceSpec DeploymentSpec StatefulSetSpec KubeletConfiguration Cluster : Type}.
Variable m : mutator ServiceSpec DeploymentSpec StatefulSetSpec KubeletConfiguration Cluster.


(** With codecs that round-trip, the content the two steps re-encode
    carries the declared encoding of the original payload. *)
Definition reencodedWithDeclaredEncoding : Prop :=
  roundTrips (kcEncode (kubeletConfigCodec m)) (kcDecode (kubeletConfigCodec m)) →
  roundTrips (fciEncode (fciCodec m)) (fciDecode (fciCodec m)) →
  ∀ fci calls fci' calls',
    (ensureKubeletConfigFileContent m (fci, calls) = ((fci', calls'), Ok tt) →
     FileContentInline.Encoding fci' = FileContentInline.Encoding fci)
    ∧ (ensureKubernetesGeneralConfiguration m (fci, calls) = ((fci', calls'), Ok tt) →
       FileContentInline.Encoding fci' = FileContentInline.Encoding fci).

End Stated.

(** *** Notions used to state more properties of the mutator *)

(** The paths of the files [mutateOperatingSystemConfig] works on. *)
Definition mutatedPaths : list string :=
  ["/var/lib/kubelet/config/kubelet"; "/etc/sysctl.d/99-k8s-general.conf";
   cloudProviderConfigPath].

(** The methods of the provider [mutateOperatingSystemConfig] calls, in the
    order of its steps. *)
Definition stepsOf (namespace : string) : list Call :=
  [CallEnsureKubeletServiceUnitOptions; CallEnsureKubeletConfiguration;
   CallEnsureKubernetesGeneralConfiguration;
   CallShouldProvisionKubeletCloudProviderConfig;
   CallEnsureKubeletCloudProviderConfig namespace].

(** [osc'] is [osc] but for the content of the kubelet.service unit and of
    the files at [mutatedPaths]. *)
Definition keeps (osc osc' : OperatingSystemConfig.t) : Prop :=
  OperatingSystemConfig.Name osc' = OperatingSystemConfig.Name osc
  ∧ OperatingSystemConfig.Namespace osc' = OperatingSystemConfig.Namespace osc
  ∧ OperatingSystemConfig.Purpose osc' = OperatingSystemConfig.Purpose osc
  ∧ Unit.Name <$> OperatingSystemConfig.Units osc'
    = Unit.Name <$> OperatingSystemConfig.Units osc
  ∧ (∀ j u, OperatingSystemConfig.Units osc !! j = Some u →
       Unit.Name u ≠ "kubelet.service" →
       OperatingSystemConfig.Units osc' !! j = Some u)
  ∧ File.Path <$> OperatingSystemConfig.Files osc'
    = File.Path <$> OperatingSystemConfig.Files osc
  ∧ (∀ j f, OperatingSystemConfig.Files osc !! j = Some f →
       File.Path f ∉ mutatedPaths →
       OperatingSystemConfig.Files osc' !! j = Some f).

Section Steps.
Context {ServiceSpec DeploymentSpec StatefulSetSpec KubeletConfiguration Cluster : Type}.
Variable m : mutator ServiceSpec DeploymentSpec StatefulSetSpec KubeletConfiguration Cluster.

(** The first step of [mutateOperatingSystemConfig]: mutate the
    kubelet.service unit, if present. *)
Definition mutateKubeletServiceUnit : M (OperatingSystemConfig.t * list Call) unit :=
  units ← gets (λ st, OperatingSystemConfig.Units st.1) ;
  match UnitWithName units "kubelet.service" with
  | Some (i, u) =>
      match Unit.Content u with
      | Some content =>
          within (λ _, content)
                 (λ content osc,
                    setUnits (<[i := setContent content u]> (OperatingSystemConfig.Units osc)) osc)
                 (ensureKubeletServiceUnitContent m)
      | None => mret tt
      end
  | None => mret tt
  end.

End Steps.

End genericmutator.

(** ** Concrete worlds, used to run the definitions *)

Module examples.
Import genericactuator.

Definition machine (name : string) : Machine.t :=
  {| Machine.Name := name; Machine.Labels := None |}.

Definition markedMachine (name : string) : Machine.t :=
  {| Machine.Name := name;
     Machine.Labels := Some {[forceDeletionLabelKey := forceDeletionLabelValue]} |}.

Definition rejected (name : string) : error :=
  ErrNew ("update of machine " +:+ name +:+ " rejected").

(** An API server that rejects the updates of machines A and C. *)
Definition rejectAC (m : Machine.t) : option error :=
  if decide (Machine.Name m = "A" ∨ Machine.Name m = "C")
  then Some (rejected (Machine.Name m))
  else None.

(** An actuator whose collaborators all answer without error, but for the
    updates. *)
Definition actuator (update : Machine.t → option error) (sched : list nat)
    (snapshots : list Snapshot) : genericActuator :=
  {| WorkerDelegate := None; GetDeployment := None; ScaleDeployment := None;
     applyMachineControllerManagerShootChart := None; ListMachines := None;
     Update := update; schedule := sched;
     ListMachineDeployments := None; cleanupMachineDeployments := None;
     cleanupMachineClasses := None; cleanupMachineClassSecrets := None;
     ticks := snapshots;
     NewClientsForShoot := None; mcmShootChartDelete := None;
     mcmSeedChartDelete := None |}.

Definition ABCD : World :=
  {| machines := machine <$> ["A"; "B"; "C"; "D"]; ops := [] |}.

Definition noWorld : World := {| machines := []; ops := [] |}.

(** The goroutines of A and of C label, then both read [errorList], then
    both assign it. *)
Definition interleaved : list nat := [0; 2; 0; 2; 0; 2]%nat.

Definition deployment (failed : list MachineSummary.t) : MachineDeployment.t :=
  {| MachineDeployment.Name := "pool"; MachineDeployment.FailedMachines := failed |}.

Definition quotaExceeded : MachineSummary.t :=
  {| MachineSummary.Name := "A"; MachineSummary.Description := "quota exceeded" |}.

Definition snapshot (ms : list Machine.t) (sets : result (list MachineSet.t))
    (failed : list MachineSummary.t) : Snapshot :=
  {| existingMachines := Ok ms;
     existingMachineSets := sets;
     existingMachineDeployments := Ok [deployment failed];
     machineClassList := Ok {| MachineClassList.ExtractList := Ok ["class"] |};
     existingMachineClassSecrets :=
       Ok [ {| Secret.Name := "secret"; Secret.Finalizers := ["finalizer"] |};
            {| Secret.Name := "inert"; Secret.Finalizers := [] |} ] |}.

Definition oneSet : result (list MachineSet.t) := Ok [ {| MachineSet.Name := "set" |} ].

(** Everything is still there. *)
Definition busy : Snapshot := snapshot [machine "A"] oneSet [].
(** The machines are gone, the rest is still there. *)
Definition machinesGone : Snapshot := snapshot [] oneSet [].
(** The machine deployment reports a failed machine. *)
Definition failing : Snapshot := snapshot [machine "A"] oneSet [quotaExceeded].
(** The listing of the machine sets fails. *)
Definition unavailable : Snapshot :=
  snapshot [machine "A"] (Err (ErrNew "machine sets unavailable")) [].
(** Everything is gone. *)
Definition gone : Snapshot :=
  {| existingMachines := Ok [];
     existingMachineSets := Ok [];
     existingMachineDeployments := Ok [];
     machineClassList := Ok {| MachineClassList.ExtractList := Ok [] |};
     existingMachineClassSecrets :=
       Ok [ {| Secret.Name := "inert"; Secret.Finalizers := [] |} ] |}.

(** The state of the wait after a tick. *)
Definition after (t : Snapshot) (s : Poll) : Poll := (condition t s).1.
Definition start : Poll := (initialCounts, noWorld).

(** An API server that accepts every update. *)
Definition accept (m : Machine.t) : option error := None.

(** An actuator that does not find the deployment of the
    machine-controller-manager. *)
Definition noDeployment : genericActuator :=
  {| WorkerDelegate := None;
     GetDeployment := Some (ErrNew "deployment machine-controller-manager not found");
     ScaleDeployment := None;
     applyMachineControllerManagerShootChart := None; ListMachines := None;
     Update := accept; schedule := [];
     ListMachineDeployments := None; cleanupMachineDeployments := None;
     cleanupMachineClasses := None; cleanupMachineClassSecrets := None;
     ticks := [gone];
     NewClientsForShoot := None; mcmShootChartDelete := None;
     mcmSeedChartDelete := None |}.

(** Machine A is marked already, machine B is not. *)
Definition AB : World :=
  {| machines := [markedMachine "A"; machine "B"]; ops := [] |}.

End examples.

Module mutatorExamples.
Import genericmutator.

(** A codec that stores the data as it is, under the encoding asked for. *)
Definition verbatim : FileContentInlineCodec :=
  {| fciEncode := λ data encoding,
       Ok {| FileContentInline.Encoding := encoding; FileContentInline.Data := data |};
     fciDecode := λ fci, Ok (FileContentInline.Data fci) |}.

(** The same for a kubelet configuration kept as its text. *)
Definition kubeletCodec : KubeletConfigCodec string :=
  {| kcEncode := λ config encoding,
       Ok {| FileContentInline.Encoding := encoding; FileContentInline.Data := config |};
     kcDecode := λ fci, Ok (FileContentInline.Data fci) |}.

(** A provider that leaves everything as it is and asks for the cloud
    provider config "CONFIG". *)
Definition provider : Ensurer unit unit unit string unit :=
  {| EnsureKubeAPIServerService := mret tt;
     EnsureKubeAPIServerDeployment := mret tt;
     EnsureKubeControllerManagerDeployment := mret tt;
     EnsureKubeSchedulerDeployment := mret tt;
     EnsureETCDStatefulSet := λ _, mret tt;
     EnsureKubeletServiceUnitOptions := λ opts, Ok opts;
     EnsureKubeletConfiguration := mret tt;
     EnsureKubernetesGeneralConfiguration := mret tt;
     ShouldProvisionKubeletCloudProviderConfig := true;
     EnsureKubeletCloudProviderConfig := λ _, modify (λ _, "CONFIG") |}.

Definition exampleMutator : mutator unit unit unit string unit :=
  {| GetCluster := λ _, Ok tt;
     ensurer := provider;
     unitSerializer := {| Serialize := λ _, ("", None); Deserialize := λ _, Ok [] |};
     kubeletConfigCodec := kubeletCodec;
     fciCodec := verbatim |}.

Definition inline (data : string) : FileContentInline.t :=
  {| FileContentInline.Encoding := "b64"; FileContentInline.Data := data |}.

Definition file (path data : string) : File.t :=
  {| File.Path := path; File.Permissions := None;
     File.Content := {| FileContent.SecretRef := None;
                        FileContent.Inline := Some (inline data) |} |}.

Definition exampleConfig (purpose : string) : OperatingSystemConfig.t :=
  {| OperatingSystemConfig.Name := "osc";
     OperatingSystemConfig.Namespace := "shoot--foo--bar";
     OperatingSystemConfig.Purpose := purpose;
     OperatingSystemConfig.Units := [];
     OperatingSystemConfig.Files := [file "/var/lib/kubelet/config/kubelet" "kubelet"] |}.



(** A provider that adds a remark to the kubelet configuration and to the
    kubernetes general configuration, and empties nothing. *)
Definition remarking : Ensurer unit unit unit string unit :=
  {| EnsureKubeAPIServerService := mret tt;
     EnsureKubeAPIServerDeployment := mret tt;
     EnsureKubeControllerManagerDeployment := mret tt;
     EnsureKubeSchedulerDeployment := mret tt;
     EnsureETCDStatefulSet := λ _, mret tt;
     EnsureKubeletServiceUnitOptions := λ opts, Ok opts;
     EnsureKubeletConfiguration := modify (λ config, config +:+ " # seen");
     EnsureKubernetesGeneralConfiguration := modify (λ s, s +:+ " # seen");
     ShouldProvisionKubeletCloudProviderConfig := false;
     EnsureKubeletCloudProviderConfig := λ _, mret tt |}.

Definition remarkingMutator : mutator unit unit unit string unit :=
  {| GetCluster := λ _, Ok tt;
     ensurer := remarking;
     unitSerializer := {| Serialize := λ _, ("", None); Deserialize := λ _, Ok [] |};
     kubeletConfigCodec := kubeletCodec;
     fciCodec := verbatim |}.

(** A codec that stores an empty payload as plain text, whatever the
    encoding it is asked for, and that does not read an empty payload that
    declares an encoding. *)
Definition plainWhenEmpty : FileContentInlineCodec :=
  {| fciEncode := λ data encoding,
       Ok {| FileContentInline.Encoding := if decide (data = "") then "" else encoding;
             FileContentInline.Data := data |};
     fciDecode := λ fci,
       if decide (FileContentInline.Data fci = "" ∧ FileContentInline.Encoding fci ≠ "")
       then Err (ErrNew "empty payload with an encoding")
       else Ok (FileContentInline.Data fci) |}.

(** A provider that empties the kubernetes general configuration. *)
Definition emptying : Ensurer unit unit unit string unit :=
  {| EnsureKubeAPIServerService := mret tt;
     EnsureKubeAPIServerDeployment := mret tt;
     EnsureKubeControllerManagerDeployment := mret tt;
     EnsureKubeSchedulerDeployment := mret tt;
     EnsureETCDStatefulSet := λ _, mret tt;
     EnsureKubeletServiceUnitOptions := λ opts, Ok opts;
     EnsureKubeletConfiguration := mret tt;
     EnsureKubernetesGeneralConfiguration := modify (λ _, "");
     ShouldProvisionKubeletCloudProviderConfig := false;
     EnsureKubeletCloudProviderConfig := λ _, mret tt |}.

Definition emptyingMutator : mutator unit unit unit string unit :=
  {| GetCluster := λ _, Ok tt;
     ensurer := emptying;
     unitSerializer := {| Serialize := λ _, ("", None); Deserialize := λ _, Ok [] |};
     kubeletConfigCodec := kubeletCodec;
     fciCodec := plainWhenEmpty |}.

(** A unit with a content. *)
Definition systemdUnit (name content : string) : Unit.t :=
  {| Unit.Name := name; Unit.Content := Some content |}.

(** A configuration with the kubelet.service unit and another unit, the
    kubelet configuration file and another file. *)
Definition fullConfig : OperatingSystemConfig.t :=
  {| OperatingSystemConfig.Name := "osc";
     OperatingSystemConfig.Namespace := "shoot--foo--bar";
     OperatingSystemConfig.Purpose := "reconcile";
     OperatingSystemConfig.Units :=
       [systemdUnit "kubelet.service" "ExecStart=kubelet"; systemdUnit "docker.service" "ExecStart=dockerd"];
     OperatingSystemConfig.Files :=
       [file "/var/lib/kubelet/config/kubelet" "kubelet"; file "/etc/hosts" "localhost"] |}.

(** A configuration without any of the parts the mutator works on. *)
Definition bareConfig : OperatingSystemConfig.t :=
  {| OperatingSystemConfig.Name := "osc";
     OperatingSystemConfig.Namespace := "shoot--foo--bar";
     OperatingSystemConfig.Purpose := "reconcile";
     OperatingSystemConfig.Units := [systemdUnit "docker.service" "ExecStart=dockerd"];
     OperatingSystemConfig.Files := [file "/etc/hosts" "localhost"] |}.

(** A mutator whose serializer fails and hands back a partial text. *)
Definition garblingMutator : mutator unit unit unit string unit :=
  {| GetCluster := λ _, Ok tt;
     ensurer := provider;
     unitSerializer :=
       {| Serialize := λ _, ("[Unit", Some (ErrNew "cannot serialize"));
          Deserialize := λ _, Ok [] |};
     kubeletConfigCodec := kubeletCodec;
     fciCodec := verbatim |}.

(** A mutator that does not find the cluster. *)
Definition lostMutator : mutator unit unit unit string unit :=
  {| GetCluster := λ _, Err (ErrNew "cluster not found");
     ensurer := provider;
     unitSerializer := {| Serialize := λ _, ("", None); Deserialize := λ _, Ok [] |};
     kubeletConfigCodec := kubeletCodec;
     fciCodec := verbatim |}.

(** A workload object of the namespace of the shoot. *)
Definition workload (name : string) : Workload.t unit :=
  {| Workload.Name := name; Workload.Namespace := "shoot--foo--bar"; Workload.Spec_ := tt |}.

End mutatorExamples.

(** * Properties *)

(** ** The state and error monad *)

Lemma bind_ok {S A B : Type} (m : M S A) (f : A → M S B) s s' a :
  m s = (s', Ok a) → (m ≫= f) s = f a s'.
Proof. intros H. unfold mbind, M_bind, bind. by rewrite H. Qed.

Lemma bind_err {S A B : Type} (m : M S A) (f : A → M S B) s s' e :
  m s = (s', Err e) → (m ≫= f) s = (s', Err e).
Proof. intros H. unfold mbind, M_bind, bind. by rewrite H. Qed.

(** Unfold the monad down to case distinctions on the collaborators' answers. *)
Ltac unmonad :=
  unfold mbind, M_bind, bind, mret, M_ret, ret, fail, gets, modify, wrapf,
    lift, liftErr, zoom in *.

(** ** Package genericactuator *)

Section Marking.
Import genericactuator.

Variable a : genericActuator.

(** C5.  Marking a machine for forceful deletion is idempotent: for a
    machine that already carries the label [force-deletion="True"] no update
    is sent to the API server, world and machine stay as they are, and no
    error is returned; for a machine without that label the label is set and
    exactly one update is sent, whose answer is the result. *)
Theorem markMachineForcefulDeletion_idempotent (machine : Machine.t) (w : World) :
  (marked machine →
     markMachineForcefulDeletion a (machine, w) = ((machine, w), Ok tt))
  ∧ (¬ marked machine →
     ∃ w', markMachineForcefulDeletion a (machine, w)
             = ((withMarker machine, w'),
                match Update a (withMarker machine) with
                | Some err => Err err
                | None => Ok tt
                end)
           ∧ ops w' = ops w ++ [OpUpdate (withMarker machine)]
           ∧ machines w' = match Update a (withMarker machine) with
                           | Some _ => machines w
                           | None => store (withMarker machine) (machines w)
                           end
           ∧ marked (withMarker machine)).
Proof.
  destruct machine as [name [labels|]]; unfold marked, labelsOf; simpl; split.
  - intros Hm. unfold markMachineForcefulDeletion. unmonad. simpl.
    unfold labelsOf; simpl. rewrite decide_True by done. by destruct w.
  - intros Hm. unfold markMachineForcefulDeletion, withMarker. unmonad. simpl.
    unfold labelsOf; simpl. rewrite decide_False by done.
    unfold clientUpdate, call, record. unmonad. simpl.
    unfold setLabels, labelsOf; simpl.
    destruct (Update a _); simpl; eexists; (split; [reflexivity|]); simpl;
      by rewrite lookup_insert_eq.
  - intros Hm. by rewrite lookup_empty in Hm.
  - intros _. unfold markMachineForcefulDeletion, withMarker. unmonad. simpl.
    unfold labelsOf; simpl. rewrite decide_False by (by rewrite lookup_empty).
    unfold clientUpdate, call, record. unmonad. simpl.
    unfold setLabels, labelsOf; simpl.
    destruct (Update a _); simpl; eexists; (split; [reflexivity|]); simpl;
      by rewrite lookup_insert_eq.
Qed.

End Marking.

Section FanOut.
Import genericactuator.
Variable a : genericActuator.

Lemma mark_spec m w :
  markMachineForcefulDeletion a (m, w)
  = ((if decide (marked m) then m else withMarker m, afterMarking a m w),
     match outcome a m with None => Ok tt | Some e => Err e end).
Proof.
  unfold outcome, afterMarking.
  destruct (decide (marked m)) as [Hm|Hm].
  - destruct m as [name [labels|]]; unfold marked, labelsOf in Hm; simpl in Hm;
      [|by rewrite lookup_empty in Hm].
    unfold markMachineForcefulDeletion. unmonad. simpl. unfold labelsOf; simpl.
    rewrite decide_True by done. by destruct w.
  - unfold markMachineForcefulDeletion, withMarker. unmonad.
    destruct m as [name [labels|]]; unfold marked, labelsOf in *; simpl in *;
      rewrite decide_False by done;
      unfold clientUpdate, call, record, setLabels. unmonad.
    all: simpl; by destruct (Update a _).
Qed.

Lemma step_spec f i :
  step a f i =
    match goroutines f !! i with
    | Some (Marking m) =>
        {| world := afterMarking a m (world f);
           errorList := errorList f;
           goroutines := <[i := match outcome a m with
                                | None => Done
                                | Some e => Failed e
                                end]> (goroutines f) |}
    | Some (Failed e) =>
        {| world := world f; errorList := errorList f;
           goroutines := <[i := Appending (errorList f) e]> (goroutines f) |}
    | Some (Appending old e) =>
        {| world := world f; errorList := old ++ [e];
           goroutines := <[i := Done]> (goroutines f) |}
    | _ => f
    end.
Proof.
  unfold step. destruct (goroutines f !! i) as [[m|e|old e|]|]; try done.
  rewrite mark_spec. simpl. by destruct (outcome a m).
Qed.

Lemma step_length f i : length (goroutines (step a f i)) = length (goroutines f).
Proof.
  rewrite step_spec. destruct (goroutines f !! i) as [[m|e|old e|]|]; simpl;
    by rewrite ?length_insert.
Qed.

Lemma run_length sched f : length (goroutines (run a sched f)) = length (goroutines f).
Proof.
  revert f. induction sched as [|i sched IH]; intros f; [done|].
  unfold run in *. simpl. by rewrite IH, step_length.
Qed.

Lemma step_other f i j :
  i ≠ j → goroutines (step a f i) !! j = goroutines f !! j.
Proof.
  intros Hij. rewrite step_spec.
  destruct (goroutines f !! i) as [[m|e|old e|]|]; simpl;
    by rewrite ?list_lookup_insert_ne.
Qed.

Lemma step_Done f i j :
  goroutines f !! j = Some Done → goroutines (step a f i) !! j = Some Done.
Proof.
  intros Hj. destruct (decide (i = j)) as [->|Hij]; [|by rewrite step_other].
  by rewrite step_spec, Hj.
Qed.

Lemma run_Done sched f j :
  goroutines f !! j = Some Done → goroutines (run a sched f) !! j = Some Done.
Proof.
  revert f. induction sched as [|i sched IH]; intros f Hj; [done|].
  unfold run in *. simpl. apply IH. by apply step_Done.
Qed.

Lemma run_app s1 s2 f : run a (s1 ++ s2) f = run a s2 (run a s1 f).
Proof. unfold run. by rewrite foldl_app. Qed.

(** Three steps take a goroutine to its end. *)
Lemma step3_Done f i :
  (i < length (goroutines f))%nat →
  goroutines (run a [i; i; i] f) !! i = Some Done.
Proof.
  intros Hi. apply lookup_lt_is_Some in Hi as [g Hg]. unfold run. simpl.
  assert (∀ f g, goroutines f !! i = Some g →
    goroutines (step a f i) !! i = Some
      match g with
      | Marking m => match outcome a m with None => Done | Some e => Failed e end
      | Failed e => Appending (errorList f) e
      | Appending _ _ => Done
      | Done => Done
      end) as Hstep.
  { intros f' g' Hg'. rewrite step_spec, Hg'.
    assert (i < length (goroutines f'))%nat by (by eapply lookup_lt_Some).
    destruct g'; simpl; by rewrite ?list_lookup_insert_eq. }
  destruct g as [m|e|old e|].
  - pose proof (Hstep _ _ Hg) as H1. simpl in H1. destruct (outcome a m).
    + pose proof (Hstep _ _ H1) as H2. simpl in H2.
      by pose proof (Hstep _ _ H2) as H3.
    + by do 2 apply step_Done.
  - pose proof (Hstep _ _ Hg) as H1. pose proof (Hstep _ _ H1) as H2.
    by apply step_Done.
  - pose proof (Hstep _ _ Hg) as H1. by do 2 apply step_Done.
  - by do 3 apply step_Done.
Qed.

Lemma run_serial_Done n : ∀ f i,
  (n ≤ length (goroutines f))%nat → (i < n)%nat →
  goroutines (run a (j ← seq 0 n; [j; j; j]) f) !! i = Some Done.
Proof.
  induction n as [|n IH]; intros f i Hn Hi; [lia|].
  rewrite seq_S, bind_app, run_app. simpl.
  change (goroutines (run a [n; n; n] (run a (seq 0 n ≫= λ j, [j; j; j]) f)) !! i
          = Some Done).
  destruct (decide (i = n)) as [->|Hne].
  - apply step3_Done. rewrite run_length. lia.
  - apply run_Done. apply IH; lia.
Qed.

(** [wg.Wait()] returns with every goroutine at its end. *)
Lemma Wait_Done f i :
  (i < length (goroutines f))%nat → goroutines (Wait a f) !! i = Some Done.
Proof. intros Hi. unfold Wait. by apply run_serial_Done. Qed.

Lemma Wait_length f : length (goroutines (Wait a f)) = length (goroutines f).
Proof. apply run_length. Qed.

(** *** What holds of the fan-out under every schedule *)

Lemma labelled_Name m : Machine.Name (labelled a m) = Machine.Name m.
Proof. unfold labelled. case_decide; [done|]. by destruct (Update a _). Qed.

Lemma store_insert (l : list Machine.t) i m m' :
  NoDup (Machine.Name <$> l) → l !! i = Some m → Machine.Name m' = Machine.Name m →
  store m' l = <[i := m']> l.
Proof.
  intros Hnd Hi Hname. apply list_eq. intros j. unfold store.
  rewrite list_lookup_fmap.
  destruct (decide (i = j)) as [->|Hij].
  - rewrite list_lookup_insert_eq by (by eapply lookup_lt_Some).
    rewrite Hi. simpl. by rewrite decide_True.
  - rewrite list_lookup_insert_ne by done.
    destruct (l !! j) as [mj|] eqn:Hj; [|done]. simpl.
    rewrite decide_False; [done|].
    intros Heq. apply Hij.
    eapply NoDup_lookup; [exact Hnd| |]; rewrite list_lookup_fmap.
    + by rewrite Hi.
    + rewrite Hj. simpl. congruence.
Qed.

Section Invariant.
Variable items : list Machine.t.
Hypothesis items_NoDup : NoDup (Machine.Name <$> items).

Variable w0 : World.

Lemma fanoutInv_init :
  machines w0 = items →
  fanoutInv a items w0 {| world := w0; errorList := []; goroutines := Marking <$> items |}.
Proof.
  intros Hw. split; simpl.
  - by rewrite length_fmap.
  - intros i m Hi. rewrite list_lookup_fmap, Hi. simpl. by rewrite Hw.
  - intros i m Hi. rewrite list_lookup_fmap, Hi. done.
  - by intros e ?%elem_of_nil.
  - by rewrite Hw.
  - exists []. simpl. rewrite app_nil_r. split; [done|]. by intros u ?%elem_of_nil.
Qed.

Lemma fanoutInv_step f i : fanoutInv a items w0 f → fanoutInv a items w0 (step a f i).
Proof.
  intros [Hlen Hst Hg Herr Hnames Hops]. rewrite step_spec.
  destruct (goroutines f !! i) as [g|] eqn:Hi; [|done].
  assert (i < length items)%nat as Hlt by (rewrite <- Hlen; by eapply lookup_lt_Some).
  destruct (lookup_lt_is_Some_2 items i Hlt) as [mi Hmi].
  pose proof (Hg i mi Hmi) as Hgi. rewrite Hi in Hgi.
  destruct g as [m|e|old e|]; [| | |done].
  - (* the goroutine labels its machine *)
    subst m.
    assert (machines (afterMarking a mi (world f))
            = <[i := labelled a mi]> (machines (world f))) as Hstore.
    { pose proof (Hst i mi Hmi) as Hsi. rewrite Hi in Hsi.
      unfold afterMarking, labelled. case_decide.
      - by rewrite list_insert_id.
      - simpl. destruct (Update a (withMarker mi)).
        + by rewrite list_insert_id.
        + eapply store_insert; [by rewrite Hnames|done|done]. }
    split; simpl.
    + by rewrite length_insert.
    + intros j m Hj. rewrite Hstore.
      destruct (decide (i = j)) as [->|Hij].
      * rewrite !list_lookup_insert_eq
          by (rewrite ?Hlen; first [done|apply (f_equal length) in Hnames;
                rewrite !length_fmap in Hnames; by rewrite Hnames]).
        assert (m = mi) as -> by congruence. by destruct (outcome a mi).
      * rewrite !list_lookup_insert_ne by done. by apply Hst.
    + intros j m Hj. destruct (decide (i = j)) as [->|Hij].
      * rewrite list_lookup_insert_eq by (by rewrite Hlen).
        assert (m = mi) as -> by congruence.
        destruct (outcome a mi); [done|by left].
      * rewrite list_lookup_insert_ne by done. by apply Hg.
    + done.
    + rewrite Hstore, list_fmap_insert, labelled_Name.
      rewrite list_insert_id; [done|].
      rewrite Hnames, list_lookup_fmap, Hmi. done.
    + destruct Hops as (us & Hus & Hin). unfold afterMarking.
      case_decide as Hmarked; [by exists us|]. simpl.
      exists (us ++ [withMarker mi]). split.
      * by rewrite Hus, fmap_app, app_assoc.
      * intros u [Hu|Hu]%elem_of_app; [by apply Hin|].
        apply list_elem_of_singleton in Hu as ->.
        exists mi. split_and!; [by eapply list_elem_of_lookup_2|done..].
  - (* it reads errorList *)
    split; simpl; try done.
    + by rewrite length_insert.
    + intros j m Hj. destruct (decide (i = j)) as [->|Hij].
      * rewrite list_lookup_insert_eq by (by rewrite Hlen).
        specialize (Hst j m Hj). by rewrite Hi in Hst.
      * rewrite list_lookup_insert_ne by done. by apply Hst.
    + intros j m Hj. destruct (decide (i = j)) as [->|Hij].
      * rewrite list_lookup_insert_eq by (by rewrite Hlen).
        assert (m = mi) as -> by congruence. done.
      * rewrite list_lookup_insert_ne by done. by apply Hg.
  - (* it assigns errorList *)
    destruct Hgi as [Hout Hold].
    split; simpl; try done.
    + by rewrite length_insert.
    + intros j m Hj. destruct (decide (i = j)) as [->|Hij].
      * rewrite list_lookup_insert_eq by (by rewrite Hlen).
        specialize (Hst j m Hj). by rewrite Hi in Hst.
      * rewrite list_lookup_insert_ne by done. by apply Hst.
    + intros j m Hj. destruct (decide (i = j)) as [->|Hij].
      * rewrite list_lookup_insert_eq by (by rewrite Hlen).
        right. by destruct old.
      * rewrite list_lookup_insert_ne by done.
        specialize (Hg j m Hj). destruct (goroutines f !! j) as [[| | |]|]; try done.
        destruct Hg as [?|?]; [by left|right]. by destruct old.
    + intros e' [He'|He']%elem_of_app; [by apply Hold|].
      apply list_elem_of_singleton in He' as ->.
      exists mi. split; [by eapply list_elem_of_lookup_2|done].
Qed.

Lemma fanoutInv_run sched f :
  fanoutInv a items w0 f → fanoutInv a items w0 (run a sched f).
Proof.
  revert f. induction sched as [|i sched IH]; intros f Hf; [done|].
  unfold run in *. simpl. apply IH. by apply fanoutInv_step.
Qed.


(** The fan-out under any schedule: [errorList] holds errors of failed
    labellings only, and at least one if a labelling failed; every machine
    is stored as its labelling has left it; only updates are issued. *)
Lemma fanOut_spec w' errs :
  machines w0 = items →
  fanOut a items w0 = (w', Ok errs) →
  (∀ e, e ∈ errs → ∃ m, m ∈ items ∧ outcome a m = Some e)
  ∧ ((∃ m, m ∈ items ∧ outcome a m ≠ None) → errs ≠ [])
  ∧ machines w' = labelled a <$> items
  ∧ ∃ us, ops w' = ops w0 ++ (OpUpdate <$> us)
          ∧ ∀ u, u ∈ us → ∃ m, m ∈ items ∧ ¬ marked m ∧ u = withMarker m.
Proof.
  intros Hw. unfold fanOut. intros [= <- <-].
  set (f0 := {| world := w0; errorList := []; goroutines := Marking <$> items |}).
  assert (fanoutInv a items w0 (Wait a (run a (schedule a) f0)))
    as [Hlen Hst Hg Herr Hnames Hops]
    by (unfold Wait; by do 2 apply fanoutInv_run; apply fanoutInv_init).
  assert (∀ i, (i < length items)%nat →
            goroutines (Wait a (run a (schedule a) f0)) !! i = Some Done) as Hdone.
  { intros i Hi. apply Wait_Done. rewrite run_length. simpl. by rewrite length_fmap. }
  split_and!; [done| | |done].
  - intros (m & [i Hi]%list_elem_of_lookup_1 & Hm).
    specialize (Hg i m Hi). rewrite Hdone in Hg by (by eapply lookup_lt_Some).
    by destruct Hg.
  - apply list_eq. intros i. rewrite list_lookup_fmap.
    destruct (items !! i) as [m|] eqn:Hi; simpl.
    + rewrite (Hst i m Hi), Hdone; [done|by eapply lookup_lt_Some].
    + apply lookup_ge_None. apply lookup_ge_None in Hi.
      apply (f_equal length) in Hnames. rewrite !length_fmap in Hnames. lia.
Qed.

End Invariant.

(** *** The fan-out when the goroutines run one after the other *)

Lemma step_at w errs k g rest :
  step a {| world := w; errorList := errs;
            goroutines := replicate k Done ++ g :: rest |} k
  = match g with
    | Marking m =>
        {| world := afterMarking a m w; errorList := errs;
           goroutines := replicate k Done
                         ++ match outcome a m with
                            | None => Done
                            | Some e => Failed e
                            end :: rest |}
    | Failed e =>
        {| world := w; errorList := errs;
           goroutines := replicate k Done ++ Appending errs e :: rest |}
    | Appending old e =>
        {| world := w; errorList := old ++ [e];
           goroutines := replicate k Done ++ Done :: rest |}
    | Done =>
        {| world := w; errorList := errs;
           goroutines := replicate k Done ++ Done :: rest |}
    end.
Proof.
  rewrite step_spec. simpl.
  rewrite lookup_app_r by (by rewrite length_replicate).
  rewrite length_replicate, Nat.sub_diag. simpl.
  destruct g; try done; simpl;
    rewrite insert_app_r_alt by (by rewrite length_replicate);
    by rewrite length_replicate, Nat.sub_diag.
Qed.

Lemma run_goroutine items w k m :
  items !! k = Some m →
  run a [k; k; k] (serialState a items w k) = serialState a items w (S k).
Proof.
  intros Hk. unfold run, serialState. simpl.
  rewrite (drop_S _ _ _ Hk), (take_S_r _ _ _ Hk), foldl_app, omap_app. simpl.
  rewrite step_at.
  assert (∀ rest : list goroutine,
    replicate k Done ++ Done :: rest = Done :: replicate k Done ++ rest) as Hend.
  { intros rest. change (Done :: replicate k Done ++ rest)
      with (replicate (S k) Done ++ rest).
    by rewrite replicate_S_end, <- app_assoc. }
  destruct (outcome a m) as [e|] eqn:Ho.
  - by rewrite !step_at, Hend.
  - by rewrite !step_at, Hend, app_nil_r.
Qed.

Lemma run_serial items w k :
  (k ≤ length items)%nat →
  run a (j ← seq 0 k; [j; j; j]) (serialState a items w 0) = serialState a items w k.
Proof.
  induction k as [|k IH]; intros Hk; [done|].
  rewrite seq_S, bind_app, run_app, IH by lia. simpl.
  destruct (lookup_lt_is_Some_2 items k) as [m Hm]; [lia|].
  rewrite ?app_nil_r. by apply run_goroutine with m.
Qed.

(** Without interleaving, [errorList] ends as the errors of all failed
    labellings, in the order of the machines. *)
Lemma fanOut_serial items w w' errs :
  schedule a = [] →
  fanOut a items w = (w', Ok errs) →
  errs = omap (outcome a) items.
Proof.
  intros Hs. unfold fanOut. rewrite Hs. intros [= <- <-].
  unfold Wait. simpl. rewrite length_fmap.
  change {| world := w; errorList := []; goroutines := Marking <$> items |}
    with (serialState a items w 0).
  rewrite run_serial by done. simpl. by rewrite firstn_all.
Qed.

End FanOut.

Section DeleteMarking.
Import genericactuator.
Variable a : genericActuator.

Lemma markAll_spec w :
  ListMachines a = None →
  markAllMachinesForcefulDeletion a w
  = match fanOut a (machines w) (logged (OpList KMachine) w) with
    | (w', Ok [])  => (w', Ok tt)
    | (w', Ok errs) => (w', Err (ErrLabelling errs))
    | (w', Err e) => (w', Err e)
    end.
Proof.
  intros Hl. unfold markAllMachinesForcefulDeletion, call, record. rewrite Hl.
  unmonad. simpl. unfold fanOut. simpl. unfold logged.
  by destruct (errorList _).
Qed.

(** When the labelling of some machine fails, under any schedule of the
    goroutines: [Delete] returns the wrapped aggregate error, which holds at
    least one error and only errors of failed labellings; every machine is
    stored as its own labelling has left it; and [Delete] has issued the
    calls up to the labelling and updates, but no call of the cascade. *)
Lemma Delete_aborts_when_labelling_fails w :
  reachesMarking a →
  NoDup (Machine.Name <$> machines w) →
  (∃ m, m ∈ machines w ∧ outcome a m ≠ None) →
  ∃ w' errs us,
    Delete a w = (w', Err (ErrWrapf (ErrLabelling errs)
                             "marking all machines for forceful deletion failed"))
    ∧ errs ≠ []
    ∧ (∀ e, e ∈ errs → ∃ m, m ∈ machines w ∧ outcome a m = Some e)
    ∧ (schedule a = [] → errs = omap (outcome a) (machines w))
    ∧ machines w' = labelled a <$> machines w
    ∧ ops w' = ops w ++ opsBeforeMarking ++ (OpUpdate <$> us)
    ∧ ∀ o, o ∈ opsBeforeMarking ++ (OpUpdate <$> us) → ¬ cascade o.
Proof.
  intros (H1 & H2 & H3 & H4 & H5) Hnd Hfail.
  set (w1 := {| machines := machines w;
                ops := ((((ops w ++ [OpWorkerDelegate]) ++ [OpGetDeployment])
                         ++ [OpScaleDeployment]) ++ [OpApplyShootChart])
                       ++ [OpLogInfo "Deleting all machines"] |}).
  destruct (fanOut a (machines w) (logged (OpList KMachine) w1)) as [w' r] eqn:Hf.
  assert (∃ errs, r = Ok errs) as [errs ->]
    by (unfold fanOut in Hf; injection Hf as _ <-; eauto).
  destruct (fanOut_spec a (machines w) Hnd (logged (OpList KMachine) w1) w' errs
              eq_refl Hf)
    as (Hgen & Hne & Hst & us & Hops & Hus).
  specialize (Hne Hfail).
  exists w', errs, us.
  assert (Delete a w = (w', Err (ErrWrapf (ErrLabelling errs)
            "marking all machines for forceful deletion failed"))) as ->.
  { unfold Delete, call, record. rewrite H1, H2, H3, H4.
    unmonad. simpl.
    change {| machines := machines w; ops := _ |} with w1.
    rewrite (markAll_spec w1 H5). change (machines w1) with (machines w).
    rewrite Hf. by destruct errs. }
  split_and!; try done.
  - intros Hs. by eapply fanOut_serial.
  - rewrite Hops. simpl. unfold opsBeforeMarking. by rewrite <- !app_assoc.
  - intros o [Ho|Ho]%elem_of_app [Hc|[Hc|[Hc|Hc]]]; subst o.
    all: try (apply list_elem_of_fmap in Ho as (? & ? & _); done).
    all: unfold opsBeforeMarking in Ho;
      repeat (apply elem_of_cons in Ho as [Ho|Ho]; [done|]);
      by apply elem_of_nil in Ho.
Qed.

End DeleteMarking.

Section Wait.
Import genericactuator.

Lemma count_setCount k k' n c :
  count k (setCount k' n c) = if decide (k = k') then n else count k c.
Proof. by destruct k, k'. Qed.

Lemma check_spec k t msg (s : Poll) :
  check k t msg s =
    if decide (count k s.1 = 0) then (s, Ok msg)
    else
      match observe k t with
      | Err e => ((s.1, logged (OpList k) s.2), Err e)
      | Ok n =>
          ((setCount k n s.1, logged (OpList k) s.2),
           match failedMachines k t with
           | fm :: _ => Err (ErrMachineFailed (MachineSummary.Name fm)
                                              (MachineSummary.Description fm))
           | [] => Ok (msg +:+ entry k n)
           end)
      end.
Proof.
  destruct s as [c w], t as [a1 a2 a3 a4 a5], k; simpl;
    unfold checkMachines, checkMachineSets, checkMachineDeployments,
      checkMachineClasses, checkMachineClassSecrets, clientList, assign,
      inWorld, record, observe, failedMachines, logged, entry;
    unmonad; simpl.
  all: repeat case_decide; try done.
  all: repeat match goal with
       | |- context [match ?r with Ok _ => _ | Err _ => _ end] => destruct r; simpl
       end; try done.
  all: try match goal with
       | |- context [match ?l with [] => _ | _ :: _ => _ end] => destruct l; simpl
       end; try done.
Qed.

Lemma observe_listError k t n : observe k t = Ok n → listError k t = None.
Proof.
  destruct k, t as [a1 a2 a3 a4 a5]; simpl; intros H;
    repeat match goal with
    | H : context [match ?r with Ok _ => _ | Err _ => _ end] |- _ => destruct r; simpl in *
    end; done.
Qed.

Lemma observe_err k t e : observe k t = Err e → listError k t = Some e.
Proof.
  destruct k, t as [a1 a2 a3 a4 a5]; simpl; intros H;
    repeat match goal with
    | H : context [match ?r with Ok _ => _ | Err _ => _ end] |- _ => destruct r; simpl in *
    end; congruence.
Qed.


Lemma check_checked k t msg s : checked k t msg s (check k t msg s).1 (check k t msg s).2.
Proof.
  rewrite check_spec. case_decide; [by constructor|].
  destruct (observe k t) eqn:Ho; simpl; [|by constructor].
  destruct (failedMachines k t) eqn:Hf; by econstructor.
Qed.

Lemma check_inv k t msg s s' r : check k t msg s = (s', r) → checked k t msg s s' r.
Proof. intros H. pose proof (check_checked k t msg s) as Hc. by rewrite H in Hc. Qed.

Lemma checks_cons k ks t msg s :
  checks (k :: ks) t msg s =
    match check k t msg s with
    | (s1, Ok msg1) => checks ks t msg1 s1
    | (s1, Err e) => (s1, Err e)
    end.
Proof. reflexivity. Qed.

Lemma failedMachines_nonzero k t n fm rest :
  observe k t = Ok n → failedMachines k t = fm :: rest → n ≠ 0.
Proof.
  destruct k, t as [a1 a2 a3 a4 a5]; simpl; try done.
  destruct a3 as [l|]; [|done]. intros [= <-] Hf.
  destruct l; [done|]. unfold len. simpl. lia.
Qed.

Lemma checked_frame k t msg s s' r :
  checked k t msg s s' r →
  machines s'.2 = machines s.2
  ∧ ∀ k', count k' s.1 = 0 → count k' s'.1 = 0.
Proof.
  destruct 1; simpl; (split; [done|]); try done.
  all: intros k' Hk'; rewrite count_setCount; case_decide; congruence.
Qed.

(** The resource types listed by a run of blocks, in the order listed. *)
Lemma checks_queries ks t : ∀ msg s s' r,
  checks ks t msg s = (s', r) →
  ∃ qs : list Kind,
    ops s'.2 = ops s.2 ++ (OpList <$> qs)
    ∧ machines s'.2 = machines s.2
    ∧ (∀ k, k ∈ qs → k ∈ ks ∧ count k s.1 ≠ 0)
    ∧ (∀ k, count k s.1 = 0 → count k s'.1 = 0)
    ∧ (∀ k e, k ∈ qs → listError k t = Some e → r = Err e)
    ∧ (∀ k fm rest, k ∈ qs → listError k t = None →
         failedMachines k t = fm :: rest →
         r = Err (ErrMachineFailed (MachineSummary.Name fm)
                                   (MachineSummary.Description fm)))
    ∧ (∀ e, r = Err e → ∃ k, count k s'.1 ≠ 0)
    ∧ (∀ k, (∃ msg', r = Ok msg') → k ∈ ks → count k s.1 ≠ 0 → k ∈ qs).
Proof.
  induction ks as [|k0 ks IH]; intros msg s s' r H.
  - injection H as <- <-. exists []. simpl. rewrite app_nil_r.
    split_and!; try done; intros; exfalso; by eapply not_elem_of_nil.
  - rewrite checks_cons in H.
    destruct (check k0 t msg s) as [s1 r1] eqn:Hc. apply check_inv in Hc.
    destruct Hc as [Hz|e Hnz Ho|n fm rest Hnz Ho Hf|n Hnz Ho Hf].
    + apply IH in H as (qs & Hops & Hm & Hq & Hcl & Hle & Hfm & He & Hall).
      exists qs. split_and!; try done.
      * intros k [? ?]%Hq. split; [by apply elem_of_cons; right|done].
      * intros k Hr [->|Hk]%elem_of_cons Hnz; [done|by apply Hall].
    + injection H as <- <-. exists [k0]. simpl. split_and!; try done.
      * intros k ->%list_elem_of_singleton. split; [by apply elem_of_cons; left|done].
      * intros k e' ->%list_elem_of_singleton Hl.
        apply observe_err in Ho. congruence.
      * intros k fm rest ->%list_elem_of_singleton Hl.
        apply observe_err in Ho. congruence.
      * intros _ _. by exists k0.
      * by intros k [? ?].
    + injection H as <- <-. exists [k0]. simpl. split_and!; try done.
      * intros k ->%list_elem_of_singleton. split; [by apply elem_of_cons; left|done].
      * intros k' Hk'. rewrite count_setCount. case_decide; congruence.
      * intros k e' ->%list_elem_of_singleton Hl.
        apply observe_listError in Ho. congruence.
      * intros k fm' rest' ->%list_elem_of_singleton _ Hf'. congruence.
      * intros _ _. exists k0. rewrite count_setCount, decide_True by done.
        by eapply failedMachines_nonzero.
      * by intros k [? ?].
    + apply IH in H as (qs & Hops & Hm & Hq & Hcl & Hle & Hfm & He & Hall).
      simpl in *. exists (k0 :: qs). simpl. split_and!; try done.
      * by rewrite Hops, <- app_assoc.
      * intros k [->|[Hin Hk]%Hq]%elem_of_cons.
        { split; [by apply elem_of_cons; left|done]. }
        split; [by apply elem_of_cons; right|].
        rewrite count_setCount in Hk. case_decide; congruence.
      * intros k Hk. apply Hcl. rewrite count_setCount. case_decide; congruence.
      * intros k e [->|H]%elem_of_cons Hl; [|by eapply Hle].
        apply observe_listError in Ho. congruence.
      * intros k fm rest [->|H]%elem_of_cons Hl Hf'; [congruence|by eapply Hfm].
      * intros k Hr Hk Hk'. apply elem_of_cons.
        destruct (decide (k = k0)) as [->|Hne]; [by left|right].
        apply elem_of_cons in Hk as [?|Hk]; [done|].
        apply Hall; [done..|]. by rewrite count_setCount, decide_False.
Qed.

Lemma filter_ext_elem {A} (P Q : A → Prop) `{∀ x, Decision (P x)} `{∀ x, Decision (Q x)}
    (l : list A) :
  (∀ x, x ∈ l → (P x ↔ Q x)) → filter P l = filter Q l.
Proof.
  induction l as [|x l IH]; intros Hl; [done|].
  rewrite !filter_cons.
  assert (P x ↔ Q x) as Hx by (apply Hl; by apply elem_of_cons; left).
  rewrite IH by (intros y Hy; apply Hl; by apply elem_of_cons; right).
  repeat case_decide; tauto.
Qed.

Lemma checks_untouched ks t : ∀ msg s s' r k,
  checks ks t msg s = (s', r) → k ∉ ks → count k s'.1 = count k s.1.
Proof.
  induction ks as [|k0 ks IH]; intros msg s s' r k H Hk.
  - by injection H as <- <-.
  - apply not_elem_of_cons in Hk as [Hk0 Hk].
    rewrite checks_cons in H.
    destruct (check k0 t msg s) as [s1 r1] eqn:Hc. apply check_inv in Hc.
    destruct Hc as [Hz|e Hnz Ho|n fm rest Hnz Ho Hf|n Hnz Ho Hf].
    + by eapply IH.
    + by injection H as <- <-.
    + injection H as <- <-. simpl. by rewrite count_setCount, decide_False.
    + eapply IH in H; [|done]. rewrite H. simpl.
      by rewrite count_setCount, decide_False.
Qed.

(** The message a run of blocks hands on, and the counts it leaves. *)
Lemma checks_summary ks t : NoDup ks → ∀ msg s s' msg',
  checks ks t msg s = (s', Ok msg') →
  msg' = foldl (λ m k, m +:+ entry k (count k s'.1)) msg
               (filter (λ k, count k s.1 ≠ 0) ks)
  ∧ (∀ k, k ∈ ks → count k s.1 ≠ 0 →
       observe k t = Ok (count k s'.1) ∧ failedMachines k t = []).
Proof.
  induction 1 as [|k0 ks Hk0 Hnd IH]; intros msg s s' msg' H.
  - injection H as <- <-. split; [done|]. intros; exfalso; by eapply not_elem_of_nil.
  - rewrite checks_cons in H.
    destruct (check k0 t msg s) as [s1 r1] eqn:Hc. apply check_inv in Hc.
    destruct Hc as [Hz|e Hnz Ho|n fm rest Hnz Ho Hf|n Hnz Ho Hf]; try done.
    + apply IH in H as [-> Hobs]. split.
      * by rewrite filter_cons_False by (intros ?; done).
      * intros k [->|Hk]%elem_of_cons Hk'; [done|by apply Hobs].
    + pose proof (checks_untouched _ _ _ _ _ _ k0 H Hk0) as Hun.
      simpl in Hun. rewrite count_setCount, decide_True in Hun by done.
      apply IH in H as [-> Hobs]. simpl in *. split.
      * rewrite filter_cons_True by done. simpl. rewrite Hun. f_equal.
        apply filter_ext_elem. intros k Hk. rewrite count_setCount.
        case_decide; [congruence|done].
      * intros k [->|Hk]%elem_of_cons Hk'; [by rewrite Hun|].
        apply Hobs; [done|]. rewrite count_setCount. case_decide; congruence.
Qed.

Lemma allZero_count c : allZero c ↔ ∀ k, count k c = 0.
Proof.
  unfold allZero. split.
  - intros (?&?&?&?&?) []; done.
  - intros H. split_and!; [apply (H KMachine)|apply (H KMachineSet)
      |apply (H KMachineDeployment)|apply (H KMachineClass)
      |apply (H KMachineClassSecret)].
Qed.


Lemma conclude_spec msg (s : Poll) :
  conclude msg s =
    if decide (allZero s.1) then (s, Ok true)
    else ((s.1, logged (progress msg) s.2), Ok false).
Proof.
  unfold conclude, inWorld, record, progress, logged, allZero. unmonad.
  destruct s as [c w]; simpl.
  repeat case_decide; try done; exfalso; lia.
Qed.

Lemma condition_checks t s :
  condition t s =
    match checks kinds t "" s with
    | (s1, Ok msg) => conclude msg s1
    | (s1, Err e) => (s1, Err e)
    end.
Proof.
  unfold condition, kinds, checks, check. unmonad.
  destruct (checkMachines t "" s) as [s1 [m1|e1]]; [|done].
  destruct (checkMachineSets t m1 s1) as [s2 [m2|e2]]; [|done].
  destruct (checkMachineDeployments t m2 s2) as [s3 [m3|e3]]; [|done].
  destruct (checkMachineClasses t m3 s3) as [s4 [m4|e4]]; [|done].
  by destruct (checkMachineClassSecrets t m4 s4) as [s5 [m5|e5]].
Qed.

Lemma NoDup_kinds : NoDup kinds.
Proof. unfold kinds. repeat constructor; rewrite ?elem_of_cons, ?elem_of_nil; naive_solver. Qed.

Lemma elem_of_kinds k : k ∈ kinds.
Proof. unfold kinds. destruct k; rewrite !elem_of_cons; auto 10. Qed.


(** One evaluation of the condition. *)
Lemma condition_inv t s s' r :
  condition t s = (s', r) →
  ∃ qs : list Kind,
    ops s'.2 = ops s.2 ++ (OpList <$> qs) ++ logOf s.1 s'.1 r
    ∧ machines s'.2 = machines s.2
    ∧ (∀ k, k ∈ qs → count k s.1 ≠ 0)
    ∧ (∀ k, count k s.1 = 0 → count k s'.1 = 0)
    ∧ (∀ k e, k ∈ qs → listError k t = Some e → r = Err e)
    ∧ (∀ k fm rest, k ∈ qs → listError k t = None →
         failedMachines k t = fm :: rest →
         r = Err (ErrMachineFailed (MachineSummary.Name fm)
                                   (MachineSummary.Description fm)))
    ∧ (r = Ok true ↔ allZero s'.1)
    ∧ (∀ k, (∃ b, r = Ok b) → count k s.1 ≠ 0 →
         k ∈ qs ∧ observe k t = Ok (count k s'.1) ∧ failedMachines k t = []).
Proof.
  rewrite condition_checks.
  destruct (checks kinds t "" s) as [s1 [msg|e]] eqn:Hc.
  - pose proof (checks_summary _ _ NoDup_kinds _ _ _ _ Hc) as [Hmsg Hobs].
    apply checks_queries in Hc as (qs & Hops & Hm & Hq & Hcl & Hle & Hfm & He & Hall).
    rewrite conclude_spec. case_decide as Hz; intros [= <- <-]; exists qs; simpl.
    + rewrite app_nil_r. split_and!; try done.
      * intros k Hk. by apply Hq.
      * intros k e Hk Hl. by specialize (Hle k e Hk Hl).
      * intros k fm rest Hk Hl Hf. by specialize (Hfm k fm rest Hk Hl Hf).
      * intros k _ Hk. split; [apply Hall; eauto using elem_of_kinds|].
        apply Hobs; [apply elem_of_kinds|done].
    + split_and!; try done.
      * rewrite Hops, <- app_assoc. unfold summary. by rewrite <- Hmsg.
      * intros k Hk. by apply Hq.
      * intros k e Hk Hl. by specialize (Hle k e Hk Hl).
      * intros k fm rest Hk Hl Hf. by specialize (Hfm k fm rest Hk Hl Hf).
      * intros k _ Hk. split; [apply Hall; eauto using elem_of_kinds|].
        apply Hobs; [apply elem_of_kinds|done].
  - apply checks_queries in Hc as (qs & Hops & Hm & Hq & Hcl & Hle & Hfm & He & _).
    intros [= <- <-]. exists qs. simpl. rewrite app_nil_r. split_and!; try done.
    + intros k Hk. by apply Hq.
    + intros k e' Hk Hl. specialize (Hle k e' Hk Hl). congruence.
    + intros k fm rest Hk Hl Hf. specialize (Hfm k fm rest Hk Hl Hf). congruence.
    + split; [done|]. intros Hz. destruct (He e eq_refl) as [k Hk].
      by apply allZero_count with (k := k) in Hz.
    + by intros k [b ?].
Qed.

Section Polling.
Context {S T : Type} (cond : T → M S bool).

Lemma PollUntil_cons t ticks s :
  PollUntil (t :: ticks) cond s =
    match cond t s with
    | (s1, Ok true) => (s1, Ok tt)
    | (s1, Ok false) => PollUntil ticks cond s1
    | (s1, Err e) => (s1, Err e)
    end.
Proof. simpl. unmonad. by destruct (cond t s) as [s1 [[]|]]. Qed.

Lemma PollUntil_pending pre rest s s1 :
  pending cond pre s s1 →
  PollUntil (pre ++ rest) cond s = PollUntil rest cond s1.
Proof.
  induction 1 as [|t ticks s s1 s' Ht _ IH]; [done|].
  rewrite <- app_comm_cons, PollUntil_cons, Ht. exact IH.
Qed.

(** The poll ends with the timeout error when no tick before the deadline
    was conclusive. *)
Lemma PollUntil_timeout ticks s s' :
  pending cond ticks s s' → PollUntil ticks cond s = (s', Err ErrWaitTimeout).
Proof.
  intros H. rewrite <- (app_nil_r ticks). by rewrite (PollUntil_pending _ _ _ _ H).
Qed.

(** The poll ends at the first tick that is conclusive, whatever the later
    ticks would have been. *)
Lemma PollUntil_done pre t post s s1 s' :
  pending cond pre s s1 → cond t s1 = (s', Ok true) →
  PollUntil (pre ++ t :: post) cond s = (s', Ok tt).
Proof.
  intros H Ht. by rewrite (PollUntil_pending _ _ _ _ H), PollUntil_cons, Ht.
Qed.

Lemma PollUntil_error pre t post s s1 s' e :
  pending cond pre s s1 → cond t s1 = (s', Err e) →
  PollUntil (pre ++ t :: post) cond s = (s', Err e).
Proof.
  intros H Ht. by rewrite (PollUntil_pending _ _ _ _ H), PollUntil_cons, Ht.
Qed.

(** The poll always returns: either it times out after all its ticks, or it
    stops at one of them. *)
Lemma PollUntil_total ticks s :
  ∃ pre s1, pending cond pre s s1
    ∧ ((ticks = pre ∧ PollUntil ticks cond s = (s1, Err ErrWaitTimeout))
       ∨ ∃ t post s' r, ticks = pre ++ t :: post ∧ cond t s1 = (s', r)
           ∧ r ≠ Ok false
           ∧ PollUntil ticks cond s
             = (s', match r with Ok _ => Ok tt | Err e => Err e end)).
Proof.
  revert s. induction ticks as [|t ticks IH]; intros s.
  - exists [], s. split; [constructor|]. by left.
  - destruct (cond t s) as [s1 r] eqn:Ht.
    assert (r = Ok false ∨ r ≠ Ok false) as [->|Hr]
      by (destruct r as [[]|]; auto).
    + destruct (IH s1) as (pre & s2 & Hp & Hcase).
      exists (t :: pre), s2. split; [by econstructor|].
      rewrite PollUntil_cons, Ht.
      destruct Hcase as [[-> Hto]|(t' & post & s' & r & -> & Ht' & Hr & Hres)].
      * by left.
      * right. by exists t', post, s', r.
    + exists [], s. split; [constructor|]. right.
      exists t, ticks, s1, r. split_and!; try done.
      rewrite PollUntil_cons, Ht. by destruct r as [[]|].
Qed.
End Polling.

Lemma waitUntil_poll a w :
  waitUntilMachineResourcesDeleted a w
  = ((PollUntil (ticks a) condition (initialCounts, w)).1.2,
     (PollUntil (ticks a) condition (initialCounts, w)).2).
Proof.
  unfold waitUntilMachineResourcesDeleted, poll, zoom.
  by destruct (PollUntil _ _ _).
Qed.

(** An error of a run of blocks is the error of a listing, or reports a
    failed machine of a listed machine deployment. *)
Lemma checks_error ks t : ∀ msg s s' e,
  checks ks t msg s = (s', Err e) →
  ∃ k, observe k t = Err e
       ∨ ∃ n fm rest, observe k t = Ok n ∧ failedMachines k t = fm :: rest
           ∧ e = ErrMachineFailed (MachineSummary.Name fm)
                                  (MachineSummary.Description fm).
Proof.
  induction ks as [|k0 ks IH]; intros msg s s' e H; [done|].
  rewrite checks_cons in H.
  destruct (check k0 t msg s) as [s1 r1] eqn:Hc. apply check_inv in Hc.
  destruct Hc as [Hz|e' Hnz Ho|n fm rest Hnz Ho Hf|n Hnz Ho Hf].
  - by eapply IH.
  - injection H as <- <-. exists k0. by left.
  - injection H as <- <-. exists k0. right. by exists n, fm, rest.
  - by eapply IH.
Qed.

(** At a tick at which every listing is answered by an empty list (for the
    secrets: none with a finalizer), the condition is met. *)
Lemma condition_converges t s :
  (∀ k, observe k t = Ok 0) →
  ∃ s', condition t s = (s', Ok true) ∧ allZero s'.1.
Proof.
  intros Hobs. destruct (condition t s) as [s' r] eqn:Ht. exists s'.
  destruct r as [b|e].
  - pose proof Ht as (qs & _ & _ & _ & Hcl & _ & _ & Hz & Hall)%condition_inv.
    assert (allZero s'.1) as Hzero.
    { apply allZero_count. intros k.
      destruct (decide (count k s.1 = 0)) as [Hk|Hk]; [by apply Hcl|].
      destruct (Hall k) as (_ & Ho & _); [by eauto|done|].
      rewrite Hobs in Ho. by injection Ho. }
    split; [|done]. f_equal. by apply Hz.
  - exfalso. rewrite condition_checks in Ht.
    destruct (checks kinds t "" s) as [s1 [msg|e']] eqn:Hc.
    + rewrite conclude_spec in Ht. by case_decide.
    + injection Ht as <- <-.
      apply checks_error in Hc as [k [Ho|(n & fm & rest & Ho & Hf & _)]].
      * by rewrite Hobs in Ho.
      * rewrite Hobs in Ho. injection Ho as <-.
        by eapply failedMachines_nonzero.
Qed.

Lemma issued_queries t s s' r :
  condition t s = (s', r) →
  ∀ k, OpList k ∈ issued s s' → count k s.1 ≠ 0 ∧
    (∀ e, listError k t = Some e → r = Err e)
    ∧ (∀ fm rest, listError k t = None → failedMachines k t = fm :: rest →
         r = Err (ErrMachineFailed (MachineSummary.Name fm)
                                   (MachineSummary.Description fm))).
Proof.
  intros (qs & Hops & _ & Hq & _ & Hle & Hfm & _)%condition_inv k Hk.
  unfold issued in Hk. rewrite Hops, drop_app_length in Hk.
  apply elem_of_app in Hk as [Hk|Hk].
  - apply list_elem_of_fmap in Hk as (k' & [= ->] & Hk). split_and!; eauto.
  - unfold logOf in Hk. destruct r as [[]|]; simpl in Hk;
      rewrite ?list_elem_of_singleton, ?elem_of_nil in Hk; done.
Qed.

Lemma pending_not_allZero pre s0 s :
  pending condition pre s0 s → ¬ allZero s0.1 → ¬ allZero s.1.
Proof.
  induction 1 as [|t ticks s s1 s' Ht _ IH]; [done|]. intros _. apply IH.
  apply condition_inv in Ht as (qs & _ & _ & _ & _ & _ & _ & Hz & _).
  intros Hz'. by apply Hz in Hz'.
Qed.

Lemma initialCounts_not_allZero : ¬ allZero initialCounts.
Proof. by intros [? _]. Qed.

Lemma pending_app {S T} (cond : T → M S bool) pre1 pre2 s s' :
  pending cond (pre1 ++ pre2) s s' →
  ∃ s1, pending cond pre1 s s1 ∧ pending cond pre2 s1 s'.
Proof.
  revert s. induction pre1 as [|t pre1 IH]; intros s H.
  - exists s. split; [constructor|done].
  - inversion H as [|? ? ? s1 ? Ht Hp]; subst.
    apply IH in Hp as (s2 & Hp1 & Hp2).
    exists s2. split; [by econstructor|done].
Qed.

(** A resource type whose count is zero is not listed by the rest of the
    poll, and its count stays zero. *)
Lemma PollUntil_closed k ticks : ∀ s s' r,
  count k s.1 = 0 → PollUntil ticks condition s = (s', r) →
  ∃ new, ops s'.2 = ops s.2 ++ new ∧ (OpList k ∉ new) ∧ count k s'.1 = 0.
Proof.
  induction ticks as [|t ticks IH]; intros s s' r Hk H.
  - injection H as <- <-. exists []. rewrite app_nil_r.
    split_and!; [done|apply not_elem_of_nil|done].
  - rewrite PollUntil_cons in H.
    destruct (condition t s) as [s1 r1] eqn:Ht.
    pose proof Ht as (qs & Hops & _ & Hq & Hcl & _)%condition_inv.
    assert (OpList k ∉ (OpList <$> qs) ++ logOf s.1 s1.1 r1) as Hnew.
    { intros [Hin|Hin]%elem_of_app.
      - apply list_elem_of_fmap in Hin as (k' & [= <-] & Hin). by apply Hq in Hin.
      - destruct r1 as [[]|]; simpl in Hin;
          rewrite ?list_elem_of_singleton, ?elem_of_nil in Hin; done. }
    destruct r1 as [[]|e].
    + injection H as <- <-. eauto.
    + apply IH in H as (new & Hops' & Hnew' & Hk'); [|by apply Hcl].
      eexists. split_and!; [by rewrite Hops', Hops, <- app_assoc| |done].
      by intros [?|?]%elem_of_app.
    + injection H as <- <-. eauto.
Qed.

(** A count that is zero has been observed as zero: the counts start at -1,
    and only the listing of a resource type assigns its count. *)
Lemma pending_observed k pre s0 s :
  pending condition pre s0 s → count k s.1 = 0 →
  count k s0.1 = 0 ∨ ∃ t, t ∈ pre ∧ observe k t = Ok 0.
Proof.
  induction 1 as [|t ticks s0 s1 s' Ht _ IH]; intros Hk; [by left|].
  destruct (decide (count k s0.1 = 0)) as [?|Hopen]; [by left|]. right.
  destruct (IH Hk) as [Hk1|(t' & Hin & Ho)].
  - exists t. split; [by apply elem_of_cons; left|].
    apply condition_inv in Ht as (qs & _ & _ & _ & _ & _ & _ & _ & Hall).
    destruct (Hall k) as (_ & Ho & _); [by eauto|done|]. by rewrite Ho, Hk1.
  - exists t'. split; [by apply elem_of_cons; right|done].
Qed.

(** A wait that returns nil has stopped at a tick that left all five counts
    at zero, each of them observed as zero at that tick or at an earlier
    one. *)
Lemma wait_ok_inv a w w' :
  waitUntilMachineResourcesDeleted a w = (w', Ok tt) →
  ∃ pre t post s s',
    ticks a = pre ++ t :: post
    ∧ pending condition pre (initialCounts, w) s
    ∧ condition t s = (s', Ok true) ∧ allZero s'.1 ∧ w' = s'.2
    ∧ ∀ k, count k s'.1 = 0 ∧ ∃ t', t' ∈ pre ++ [t] ∧ observe k t' = Ok 0.
Proof.
  rewrite waitUntil_poll.
  destruct (PollUntil_total condition (ticks a) (initialCounts, w))
    as (pre & s1 & Hp & [[_ Hto]|(t & post & s' & r & Ht & Hc & Hr & Hres)]).
  - rewrite Hto. simpl. by intros [= _].
  - rewrite Hres. simpl. intros [= <- Hok].
    destruct r as [[]|e]; [|done..].
    exists pre, t, post, s1, s'.
    pose proof Hc as (qs & _ & _ & _ & _ & _ & _ & Hz & _)%condition_inv.
    assert (allZero s'.1) as Hzero by (by apply Hz).
    split_and!; try done. intros k.
    assert (count k s'.1 = 0) as Hk by (by apply allZero_count).
    split; [done|].
    assert (pending condition (pre ++ [t]) (initialCounts, w) s'
            ∨ count k s1.1 = 0 ∨ observe k t = Ok 0) as Hcases.
    { destruct (decide (count k s1.1 = 0)) as [?|Hopen]; [by auto|].
      apply condition_inv in Hc as (? & _ & _ & _ & _ & _ & _ & _ & Hall).
      destruct (Hall k) as (_ & Ho & _); [by eauto|done|].
      right. right. by rewrite Ho, Hk. }
    destruct Hcases as [Hp'|[Hk1|Ho]].
    + destruct (pending_observed k _ _ _ Hp' Hk) as [Hinit|(t' & Hin & Ho)];
        [by destruct k|by eauto].
    + destruct (pending_observed k _ _ _ Hp Hk1) as [Hinit|(t' & Hin & Ho)];
        [by destruct k|].
      exists t'. split; [|done]. apply elem_of_app. by left.
    + exists t. split; [|done]. apply elem_of_app. right. by apply elem_of_cons; left.
Qed.

Section WaitClaims.
Variable a : genericActuator.
Variable w : World.

Lemma wait_at pre t post s s' (r : result bool) :
  ticks a = pre ++ t :: post →
  pending condition pre (initialCounts, w) s →
  condition t s = (s', r) → r ≠ Ok false →
  waitUntilMachineResourcesDeleted a w
  = (s'.2, match r with Ok _ => Ok tt | Err e => Err e end).
Proof.
  intros Ha Hp Ht Hr. rewrite waitUntil_poll, Ha.
  rewrite (PollUntil_pending _ _ _ _ _ Hp), PollUntil_cons, Ht.
  by destruct r as [[]|].
Qed.

(** C2.  On a tick at which the machine deployments are listed and one of
    them reports a failed machine, the wait ends at that tick with the error
    "Machine <name> failed: <description>" of a failed machine of a listed
    machine deployment, whatever the other counts are; no later tick is
    evaluated. *)
Theorem wait_fails_on_failed_machine pre t post s s' r items md :
  ticks a = pre ++ t :: post →
  pending condition pre (initialCounts, w) s →
  condition t s = (s', r) →
  OpList KMachineDeployment ∈ issued s s' →
  existingMachineDeployments t = Ok items →
  md ∈ items → MachineDeployment.FailedMachines md ≠ [] →
  ∃ md' failedMachine,
    md' ∈ items ∧ failedMachine ∈ MachineDeployment.FailedMachines md'
    ∧ r = Err (ErrMachineFailed (MachineSummary.Name failedMachine)
                                (MachineSummary.Description failedMachine))
    ∧ waitUntilMachineResourcesDeleted a w
      = (s'.2, Err (ErrMachineFailed (MachineSummary.Name failedMachine)
                                     (MachineSummary.Description failedMachine))).
Proof.
  intros Ha Hp Ht Hq Hitems Hmd Hfailed.
  destruct (issued_queries _ _ _ _ Ht _ Hq) as (_ & _ & Hfm).
  assert (listError KMachineDeployment t = None) as Hle
    by (simpl; by rewrite Hitems).
  destruct (failedMachines KMachineDeployment t) as [|fm rest] eqn:Hf.
  { exfalso. unfold failedMachines in Hf. rewrite Hitems in Hf.
    destruct (MachineDeployment.FailedMachines md) as [|fm' ?] eqn:Hmd'; [done|].
    assert (fm' ∈ items ≫= λ md, MachineDeployment.FailedMachines md) as Hin.
    { apply list_elem_of_bind. exists md. split; [|done].
      rewrite Hmd'. by apply elem_of_cons; left. }
    rewrite Hf in Hin. by apply elem_of_nil in Hin. }
  specialize (Hfm fm rest Hle eq_refl).
  assert (fm ∈ items ≫= λ md, MachineDeployment.FailedMachines md) as Hin.
  { unfold failedMachines in Hf. rewrite Hitems in Hf. rewrite Hf.
    by apply elem_of_cons; left. }
  apply list_elem_of_bind in Hin as (md' & Hfm' & Hmd').
  exists md', fm. split_and!; try done.
  rewrite (wait_at _ _ _ _ _ _ Ha Hp Ht); by rewrite Hfm.
Qed.

(** C10.  When a list call issued during a tick is answered with an error,
    the wait ends at that tick with that error; no later tick is evaluated. *)
Theorem wait_stops_on_list_error pre t post s s' r k e :
  ticks a = pre ++ t :: post →
  pending condition pre (initialCounts, w) s →
  condition t s = (s', r) →
  OpList k ∈ issued s s' →
  listError k t = Some e →
  r = Err e ∧ waitUntilMachineResourcesDeleted a w = (s'.2, Err e).
Proof.
  intros Ha Hp Ht Hq Hle.
  destruct (issued_queries _ _ _ _ Ht _ Hq) as (_ & He & _).
  specialize (He e Hle). split; [done|].
  rewrite (wait_at _ _ _ _ _ _ Ha Hp Ht); by rewrite He.
Qed.

(** C3.  The wait returns nil at the first tick that leaves all five counts
    at zero, which is the case at a tick at which every listing is answered
    by an empty list, and only then: a wait that returns nil has stopped at
    a tick that left the counts of machines, machine sets, machine
    deployments, machine classes and machine class secrets at zero, each
    observed as zero at that tick or an earlier one, and a tick ends the
    wait with nil exactly when it leaves all five at zero.  When no tick
    that fires before the deadline is conclusive it returns the timeout
    error, which differs from the error of a failed machine, also in its
    text and after [Delete] has made its own error of it. *)
Theorem wait_converges_or_times_out :
  (∀ pre t post s s' r,
     ticks a = pre ++ t :: post →
     pending condition pre (initialCounts, w) s →
     condition t s = (s', r) →
     allZero s'.1 →
     waitUntilMachineResourcesDeleted a w = (s'.2, Ok tt)
     ∧ ∀ pre1 pre2 s1, pre = pre1 ++ pre2 →
         pending condition pre1 (initialCounts, w) s1 → ¬ allZero s1.1)
  ∧ (∀ w',
       waitUntilMachineResourcesDeleted a w = (w', Ok tt) →
       ∃ pre t post s s',
         ticks a = pre ++ t :: post
         ∧ pending condition pre (initialCounts, w) s
         ∧ condition t s = (s', Ok true) ∧ w' = s'.2
         ∧ countMachines s'.1 = 0 ∧ countMachineSets s'.1 = 0
         ∧ countMachineDeployments s'.1 = 0 ∧ countMachineClasses s'.1 = 0
         ∧ countMachineClassSecrets s'.1 = 0
         ∧ ∀ k, ∃ t', t' ∈ pre ++ [t] ∧ observe k t' = Ok 0)
  ∧ (∀ t s s' r,
       condition t s = (s', r) →
       (r = Ok true ↔ allZero s'.1)
       ∧ (r = Ok false →
            countMachines s'.1 ≠ 0 ∨ countMachineSets s'.1 ≠ 0
            ∨ countMachineDeployments s'.1 ≠ 0 ∨ countMachineClasses s'.1 ≠ 0
            ∨ countMachineClassSecrets s'.1 ≠ 0))
  ∧ (∀ pre t post s,
       ticks a = pre ++ t :: post →
       pending condition pre (initialCounts, w) s →
       (∀ k, observe k t = Ok 0) →
       ∃ s', condition t s = (s', Ok true) ∧ allZero s'.1
             ∧ waitUntilMachineResourcesDeleted a w = (s'.2, Ok tt))
  ∧ (∀ s', pending condition (ticks a) (initialCounts, w) s' →
       waitUntilMachineResourcesDeleted a w = (s'.2, Err ErrWaitTimeout)
       ∧ ¬ allZero s'.1)
  ∧ (∀ name description,
       ErrWaitTimeout ≠ ErrMachineFailed name description
       ∧ Error ErrWaitTimeout ≠ Error (ErrMachineFailed name description)
       ∧ ∀ (S : Type) (s : S),
           determine (fail (A := unit) ErrWaitTimeout) s
           ≠ determine (fail (ErrMachineFailed name description)) s).
Proof.
  split_and!.
  - intros pre t post s s' r Ha Hp Ht Hz. split.
    + pose proof Ht as (_ & _ & _ & _ & _ & _ & _ & Hr & _)%condition_inv.
      apply Hr in Hz as ->. by rewrite (wait_at _ _ _ _ _ _ Ha Hp Ht).
    + intros pre1 pre2 s1 _ Hp1.
      eapply pending_not_allZero; [done|apply initialCounts_not_allZero].
  - intros w' (pre & t & post & s & s' & Ha & Hp & Ht & Hz & Hw & Hobs)%wait_ok_inv.
    exists pre, t, post, s, s'. destruct Hz as (? & ? & ? & ? & ?).
    split_and!; try done. intros k. by destruct (Hobs k).
  - intros t s s' r Ht.
    apply condition_inv in Ht as (qs & _ & _ & _ & _ & _ & _ & Hz & _).
    split; [done|]. intros ->.
    assert (¬ allZero s'.1) as Hnz by (intros H%Hz; done).
    unfold allZero in Hnz.
    destruct (decide (countMachines s'.1 = 0)); [|by auto].
    destruct (decide (countMachineSets s'.1 = 0)); [|by auto].
    destruct (decide (countMachineDeployments s'.1 = 0)); [|by auto].
    destruct (decide (countMachineClasses s'.1 = 0)); [|by auto].
    destruct (decide (countMachineClassSecrets s'.1 = 0)); [|by auto 10].
    by destruct Hnz.
  - intros pre t post s Ha Hp Hobs.
    destruct (condition_converges t s Hobs) as (s' & Ht & Hz).
    exists s'. split_and!; [done..|]. by rewrite (wait_at _ _ _ _ _ _ Ha Hp Ht).
  - intros s' Hp. split.
    + by rewrite waitUntil_poll, (PollUntil_timeout _ _ _ _ Hp).
    + eapply pending_not_allZero; [done|apply initialCounts_not_allZero].
  - intros name description. split_and!; [done|done|].
    intros S s. unfold determine, fail, DetermineError. simpl. by intros [=].
Qed.

(** C4.  Once a tick of the wait has left the count of a resource type at
    zero, no later tick of that wait lists that resource type, and the count
    stays at zero. *)
Theorem closed_kind_not_listed_again k pre t post s s1 s' r :
  ticks a = pre ++ t :: post →
  pending condition pre (initialCounts, w) s →
  condition t s = (s1, Ok false) →
  count k s1.1 = 0 →
  PollUntil post condition s1 = (s', r) →
  (OpList k ∉ issued s1 s') ∧ count k s'.1 = 0
  ∧ waitUntilMachineResourcesDeleted a w = (s'.2, r).
Proof.
  intros Ha Hp Ht Hk Hpost.
  destruct (PollUntil_closed _ _ _ _ _ Hk Hpost) as (new & Hops & Hnew & Hk').
  split_and!; [|done|].
  - unfold issued. by rewrite Hops, drop_app_length.
  - rewrite waitUntil_poll, Ha, (PollUntil_pending _ _ _ _ _ Hp), PollUntil_cons, Ht.
    by rewrite Hpost.
Qed.

End WaitClaims.

(** C9, as amended.  The progress message of a tick that goes on names
    the resource types the tick has listed, which are those whose count was
    not zero when the tick began, each with the count the tick has observed;
    that count may be zero. *)
Theorem progress_names_listed_kinds t s s' :
  condition t s = (s', Ok false) →
  last (ops s'.2) = Some (progress (summary s.1 s'.1))
  ∧ (∀ k, count k s.1 ≠ 0 →
       OpList k ∈ issued s s' ∧ observe k t = Ok (count k s'.1))
  ∧ (∀ k, count k s.1 = 0 → OpList k ∉ issued s s').
Proof.
  intros Ht.
  pose proof Ht as (qs & Hops & _ & Hq & _ & _ & _ & _ & Hall)%condition_inv.
  simpl in Hops. split_and!.
  - by rewrite Hops, app_assoc, last_snoc.
  - intros k Hk. destruct (Hall k) as (Hin & Ho & _); [by eauto|done|].
    split; [|done]. unfold issued. rewrite Hops, drop_app_length.
    apply elem_of_app; left. by apply list_elem_of_fmap_2.
  - intros k Hk Hin. by destruct (issued_queries _ _ _ _ Ht _ Hin) as [? _].
Qed.

End Wait.

(** ** Package genericmutator *)

Section Dispatch.
Import genericmutator.

Context {ServiceSpec DeploymentSpec StatefulSetSpec KubeletConfiguration Cluster : Type}.
Variable m : mutator ServiceSpec DeploymentSpec StatefulSetSpec KubeletConfiguration Cluster.

(** C6.  For an object whose kind the dispatcher does not know, or whose
    name is not a well-known name for its kind, and for an
    OperatingSystemConfig whose purpose is not "reconcile", [Mutate] leaves
    the object as it is, calls no method of the ensurer (nor the cluster
    lookup), and returns no error. *)
Theorem Mutate_noop_unless_target
    (obj : Object ServiceSpec DeploymentSpec StatefulSetSpec) (calls : list Call) :
  ¬ target obj → Mutate m (obj, calls) = ((obj, calls), Ok tt).
Proof.
  intros Hno. unfold Mutate. unmonad. simpl.
  destruct obj as [x|x|x|x|kind name]; simpl in *; try reflexivity.
  - by rewrite decide_False.
  - rewrite !decide_False; [done|set_solver..].
  - rewrite decide_False; [done|set_solver].
  - by rewrite decide_False.
Qed.

End Dispatch.

Section Upsert.
Import genericmutator.

Lemma FileWithPath_cons f files path :
  FileWithPath (f :: files) path
  = if decide (File.Path f = path) then Some (0%nat, f)
    else prod_map S id <$> FileWithPath files path.
Proof. unfold FileWithPath. simpl. by case_decide. Qed.

Lemma EnsureFileWithPath_cons f files item :
  EnsureFileWithPath (f :: files) item
  = if decide (File.Path f = File.Path item) then item :: files
    else f :: EnsureFileWithPath files item.
Proof.
  unfold EnsureFileWithPath. rewrite FileWithPath_cons. case_decide; [done|].
  by destruct (FileWithPath files (File.Path item)) as [[i g]|].
Qed.

(** The upsert keeps the paths of the list, or adds the path at the end;
    the first entry at the path is then the given file; and it is the only
    one there unless there were several before. *)
Lemma EnsureFileWithPath_spec files item :
  (File.Path <$> EnsureFileWithPath files item
   = if decide (File.Path item ∈ File.Path <$> files) then File.Path <$> files
     else (File.Path <$> files) ++ [File.Path item])
  ∧ (∃ i, FileWithPath (EnsureFileWithPath files item) (File.Path item) = Some (i, item))
  ∧ ((length (filesAt (File.Path item) files) ≤ 1)%nat →
     filesAt (File.Path item) (EnsureFileWithPath files item) = [item])
  ∧ (∀ j f, files !! j = Some f → File.Path f ≠ File.Path item →
       EnsureFileWithPath files item !! j = Some f).
Proof.
  induction files as [|f files (IHp & [i IHf] & IHc & IHo)].
  - unfold EnsureFileWithPath, filesAt. simpl. split_and!; try done.
    + exists 0%nat. unfold FileWithPath. simpl. by rewrite decide_True.
    + intros _. by rewrite filter_cons_True, filter_nil.
  - rewrite EnsureFileWithPath_cons. unfold filesAt in *.
    destruct (decide (File.Path f = File.Path item)) as [Heq|Hne].
    + split_and!.
      * rewrite decide_True by (rewrite fmap_cons, Heq; by apply elem_of_cons; left).
        by rewrite !fmap_cons, Heq.
      * exists 0%nat. by rewrite FileWithPath_cons, decide_True.
      * rewrite filter_cons_True by done. simpl. intros Hlen.
        rewrite filter_cons_True by done.
        by destruct (filter _ files); [|simpl in Hlen; lia].
      * intros [|j] g Hj Hg; simpl in *; [congruence|done].
    + split_and!.
      * rewrite !fmap_cons, IHp.
        destruct (decide (File.Path item ∈ File.Path <$> files)) as [Hin|Hnin].
        -- by rewrite decide_True by (by apply elem_of_cons; right).
        -- rewrite decide_False; [done|].
           intros [?|?]%elem_of_cons; [congruence|done].
      * exists (S i). by rewrite FileWithPath_cons, decide_False, IHf.
      * rewrite !filter_cons_False by done. exact IHc.
      * intros [|j] g Hj Hg; simpl in *; [done|by apply IHo].
Qed.

Lemma EnsureFileWithPath_idem files item :
  EnsureFileWithPath (EnsureFileWithPath files item) item
  = EnsureFileWithPath files item.
Proof.
  induction files as [|f files IH].
  - unfold EnsureFileWithPath at 2. simpl.
    by rewrite EnsureFileWithPath_cons, decide_True.
  - rewrite (EnsureFileWithPath_cons f). case_decide.
    + by rewrite EnsureFileWithPath_cons, decide_True.
    + by rewrite EnsureFileWithPath_cons, decide_False, IH.
Qed.



End Upsert.

Section CloudProviderConfig.
Import genericmutator.
Context {ServiceSpec DeploymentSpec StatefulSetSpec KubeletConfiguration Cluster : Type}.
Variable m : mutator ServiceSpec DeploymentSpec StatefulSetSpec KubeletConfiguration Cluster.

Lemma ensureKubeletCloudProviderConfig_spec osc calls :
  ensureKubeletCloudProviderConfig m (osc, calls)
  = let namespace := OperatingSystemConfig.Namespace osc in
    let calls := calls ++ [CallEnsureKubeletCloudProviderConfig namespace] in
    match EnsureKubeletCloudProviderConfig (ensurer m) namespace "" with
    | (s, Ok _) =>
        match fciEncode (fciCodec m) s B64FileCodecID with
        | Ok fci =>
            ((setFiles (EnsureFileWithPath (OperatingSystemConfig.Files osc)
                          (cloudProviderConfigFile fci)) osc, calls), Ok tt)
        | Err e =>
            ((osc, calls),
             Err (ErrWrapf e "could not encode kubelet cloud provider config"))
        end
    | (_, Err e) => ((osc, calls), Err e)
    end.
Proof.
  unfold ensureKubeletCloudProviderConfig, invoke, within, onObject. unmonad. simpl.
  destruct (EnsureKubeletCloudProviderConfig _ _ _) as [s [[]|e]]; simpl; [|done].
  by destruct (fciEncode _ _ _).
Qed.





End CloudProviderConfig.

Section Reencoding.
Import genericmutator.
Context {ServiceSpec DeploymentSpec StatefulSetSpec KubeletConfiguration Cluster : Type}.
Variable m : mutator ServiceSpec DeploymentSpec StatefulSetSpec KubeletConfiguration Cluster.

Lemma ensureKubeletConfigFileContent_spec fci calls :
  ensureKubeletConfigFileContent m (fci, calls)
  = match kcDecode (kubeletConfigCodec m) fci with
    | Err e => ((fci, calls), Err (ErrWrapf e "could not decode kubelet configuration"))
    | Ok kubeletConfig =>
        let calls := calls ++ [CallEnsureKubeletConfiguration] in
        match EnsureKubeletConfiguration (ensurer m) kubeletConfig with
        | (_, Err e) => ((fci, calls), Err e)
        | (kubeletConfig, Ok _) =>
            match kcEncode (kubeletConfigCodec m) kubeletConfig
                    (FileContentInline.Encoding fci) with
            | Err e =>
                ((fci, calls), Err (ErrWrapf e "could not encode kubelet configuration"))
            | Ok newFCI => ((newFCI, calls), Ok tt)
            end
        end
    end.
Proof.
  unfold ensureKubeletConfigFileContent, invoke, within, onObject. unmonad. simpl.
  destruct (kcDecode _ _) as [c|e]; simpl; [|done].
  destruct (EnsureKubeletConfiguration _ _) as [c' [[]|e]]; simpl; [|done].
  by destruct (kcEncode _ _ _).
Qed.

Lemma ensureKubernetesGeneralConfiguration_spec fci calls :
  ensureKubernetesGeneralConfiguration m (fci, calls)
  = match fciDecode (fciCodec m) fci with
    | Err e =>
        ((fci, calls),
         Err (ErrWrapf e "could not decode kubernetes general configuration"))
    | Ok data =>
        let calls := calls ++ [CallEnsureKubernetesGeneralConfiguration] in
        match EnsureKubernetesGeneralConfiguration (ensurer m) data with
        | (_, Err e) => ((fci, calls), Err e)
        | (s, Ok _) =>
            match fciEncode (fciCodec m) s (FileContentInline.Encoding fci) with
            | Err e =>
                ((fci, calls),
                 Err (ErrWrapf e "could not encode kubernetes general configuration"))
            | Ok newFCI => ((newFCI, calls), Ok tt)
            end
        end
    end.
Proof.
  unfold ensureKubernetesGeneralConfiguration, invoke, within, onObject. unmonad. simpl.
  destruct (fciDecode _ _) as [c|e]; simpl; [|done].
  destruct (EnsureKubernetesGeneralConfiguration _ _) as [c' [[]|e]]; simpl; [|done].
  by destruct (fciEncode _ _ _).
Qed.

(** C8, as amended.  The kubelet configuration step and the sysctl
    configuration step return nil exactly when the codec decodes the inline
    content, the hook accepts what was decoded, and the codec encodes what
    the hook has left, asked for the encoding the original payload declares;
    the content is then what the codec has returned, and on an error it is
    left as it was.  Hence the content declares the same encoding after the
    step when the codec returns the encoding it is asked for; and with a
    codec that round-trips, a payload that the hook leaves as decoded is the
    same after the step. *)
Theorem reencoding_keeps_encoding_and_payload fci calls :
  (∀ fci' calls',
     ensureKubeletConfigFileContent m (fci, calls) = ((fci', calls'), Ok tt)
     ↔ ∃ kubeletConfig kubeletConfig',
         kcDecode (kubeletConfigCodec m) fci = Ok kubeletConfig
         ∧ EnsureKubeletConfiguration (ensurer m) kubeletConfig = (kubeletConfig', Ok tt)
         ∧ kcEncode (kubeletConfigCodec m) kubeletConfig'
             (FileContentInline.Encoding fci) = Ok fci'
         ∧ calls' = calls ++ [CallEnsureKubeletConfiguration])
  ∧ (∀ fci' calls' e,
       ensureKubeletConfigFileContent m (fci, calls) = ((fci', calls'), Err e) →
       fci' = fci)
  ∧ (keepsEncoding (kcEncode (kubeletConfigCodec m)) →
     ∀ fci' calls' r,
       ensureKubeletConfigFileContent m (fci, calls) = ((fci', calls'), r) →
       FileContentInline.Encoding fci' = FileContentInline.Encoding fci)
  ∧ (roundTrips (kcEncode (kubeletConfigCodec m)) (kcDecode (kubeletConfigCodec m)) →
     ∀ kubeletConfig,
       kcDecode (kubeletConfigCodec m) fci = Ok kubeletConfig →
       EnsureKubeletConfiguration (ensurer m) kubeletConfig = (kubeletConfig, Ok tt) →
       ensureKubeletConfigFileContent m (fci, calls)
       = ((fci, calls ++ [CallEnsureKubeletConfiguration]), Ok tt))
  ∧ (∀ fci' calls',
       ensureKubernetesGeneralConfiguration m (fci, calls) = ((fci', calls'), Ok tt)
       ↔ ∃ data s,
           fciDecode (fciCodec m) fci = Ok data
           ∧ EnsureKubernetesGeneralConfiguration (ensurer m) data = (s, Ok tt)
           ∧ fciEncode (fciCodec m) s (FileContentInline.Encoding fci) = Ok fci'
           ∧ calls' = calls ++ [CallEnsureKubernetesGeneralConfiguration])
  ∧ (∀ fci' calls' e,
       ensureKubernetesGeneralConfiguration m (fci, calls) = ((fci', calls'), Err e) →
       fci' = fci)
  ∧ (keepsEncoding (fciEncode (fciCodec m)) →
     ∀ fci' calls' r,
       ensureKubernetesGeneralConfiguration m (fci, calls) = ((fci', calls'), r) →
       FileContentInline.Encoding fci' = FileContentInline.Encoding fci)
  ∧ (roundTrips (fciEncode (fciCodec m)) (fciDecode (fciCodec m)) →
     ∀ s,
       fciDecode (fciCodec m) fci = Ok s →
       EnsureKubernetesGeneralConfiguration (ensurer m) s = (s, Ok tt) →
       ensureKubernetesGeneralConfiguration m (fci, calls)
       = ((fci, calls ++ [CallEnsureKubernetesGeneralConfiguration]), Ok tt)).
Proof.
  split_and!.
  - intros fci' calls'. rewrite ensureKubeletConfigFileContent_spec. split.
    + destruct (kcDecode _ _) as [c|e]; [|done]. simpl.
      destruct (EnsureKubeletConfiguration _ _) as [c' [[]|e]] eqn:Hhook; [|done].
      destruct (kcEncode _ _ _) as [newFCI|e] eqn:He; [|done].
      intros [= <- <-]. by exists c, c'.
    + intros (c & c' & -> & Hhook & He & ->). simpl. by rewrite Hhook, He.
  - intros fci' calls' e. rewrite ensureKubeletConfigFileContent_spec.
    destruct (kcDecode _ _) as [c|e']; [|by intros [= <- _ _]]. simpl.
    destruct (EnsureKubeletConfiguration _ _) as [c' [[]|e']]; [|by intros [= <- _ _]].
    by destruct (kcEncode _ _ _) as [newFCI|e']; [|intros [= <- _ _]].
  - intros kc_keeps fci' calls' r. rewrite ensureKubeletConfigFileContent_spec.
    destruct (kcDecode _ _) as [c|e]; [|by intros [= <- _ _]]. simpl.
    destruct (EnsureKubeletConfiguration _ _) as [c' [[]|e]]; [|by intros [= <- _ _]].
    destruct (kcEncode _ _ _) as [newFCI|e] eqn:He; [|by intros [= <- _ _]].
    intros [= <- _ _]. by eapply kc_keeps.
  - intros kc_roundTrips c Hd Hhook.
    rewrite ensureKubeletConfigFileContent_spec, Hd. simpl.
    by rewrite Hhook, (kc_roundTrips _ _ Hd).
  - intros fci' calls'. rewrite ensureKubernetesGeneralConfiguration_spec. split.
    + destruct (fciDecode _ _) as [c|e]; [|done]. simpl.
      destruct (EnsureKubernetesGeneralConfiguration _ _) as [c' [[]|e]] eqn:Hhook;
        [|done].
      destruct (fciEncode _ _ _) as [newFCI|e] eqn:He; [|done].
      intros [= <- <-]. by exists c, c'.
    + intros (c & c' & -> & Hhook & He & ->). simpl. by rewrite Hhook, He.
  - intros fci' calls' e. rewrite ensureKubernetesGeneralConfiguration_spec.
    destruct (fciDecode _ _) as [c|e']; [|by intros [= <- _ _]]. simpl.
    destruct (EnsureKubernetesGeneralConfiguration _ _) as [c' [[]|e']];
      [|by intros [= <- _ _]].
    by destruct (fciEncode _ _ _) as [newFCI|e']; [|intros [= <- _ _]].
  - intros fci_keeps fci' calls' r. rewrite ensureKubernetesGeneralConfiguration_spec.
    destruct (fciDecode _ _) as [c|e]; [|by intros [= <- _ _]]. simpl.
    destruct (EnsureKubernetesGeneralConfiguration _ _) as [c' [[]|e]];
      [|by intros [= <- _ _]].
    destruct (fciEncode _ _ _) as [newFCI|e] eqn:He; [|by intros [= <- _ _]].
    intros [= <- _ _]. by eapply fci_keeps.
  - intros fci_roundTrips c Hd Hhook.
    rewrite ensureKubernetesGeneralConfiguration_spec, Hd. simpl.
    by rewrite Hhook, (fci_roundTrips _ _ Hd).
Qed.

End Reencoding.

Section Examples.
Import genericactuator examples.

(** C1.  With machines A, B, C, D, the updates of A and C rejected, and the
    goroutines of A and C interleaved so that both read [errorList] before
    either assigns it, [Delete] returns an aggregate error that holds the
    error of C only: the error of A is lost.  When the goroutines run one
    after the other the aggregate holds both. *)
Theorem labelling_error_lost_when_goroutines_interleave :
  outcome (actuator rejectAC interleaved []) (machine "A") = Some (rejected "A")
  ∧ outcome (actuator rejectAC interleaved []) (machine "C") = Some (rejected "C")
  ∧ (Delete (actuator rejectAC interleaved []) ABCD).2
    = Err (ErrWrapf (ErrLabelling [rejected "C"])
                    "marking all machines for forceful deletion failed")
  ∧ (Delete (actuator rejectAC [] []) ABCD).2
    = Err (ErrWrapf (ErrLabelling [rejected "A"; rejected "C"])
                    "marking all machines for forceful deletion failed").
Proof. vm_compute. done. Qed.

(** C9 fails at the first tick of a wait that finds no machine left and the
    rest still there: the message reads "0 machines, 1 machine sets, ...". *)
Lemma summary_names_kind_observed_at_zero :
  (condition machinesGone start).2 = Ok false
  ∧ countMachines (after machinesGone start).1 = 0
  ∧ last (ops (after machinesGone start).2)
    = Some (OpLogInfo
        "Waiting until the following machine resources have been processed: 0 machines, 1 machine sets, 1 machine deployments, 1 machine classes, 1 machine class secrets")
  ∧ ¬ summaryNamesNonZeroOnly machinesGone start.
Proof.
  split_and!; [by vm_compute..|].
  intros H.
  assert (Contains
    "Waiting until the following machine resources have been processed: 0 machines, 1 machine sets, 1 machine deployments, 1 machine classes, 1 machine class secrets"
    (kindName KMachine) = false) as Hno
    by (eapply (H (after machinesGone start)); by vm_compute).
  by vm_compute in Hno.
Qed.

End Examples.

Section MutatorExamples.
Import genericmutator mutatorExamples.


(** C8 fails with a codec that round-trips and stores an empty payload as
    plain text: once the hook has emptied the sysctl configuration, the
    content declares another encoding than the payload did. *)
Lemma reencoding_may_change_declared_encoding :
  ensureKubernetesGeneralConfiguration emptyingMutator (inline "sysctl", [])
  = (({| FileContentInline.Encoding := ""; FileContentInline.Data := "" |},
      [CallEnsureKubernetesGeneralConfiguration]), Ok tt)
  ∧ roundTrips (fciEncode (fciCodec emptyingMutator)) (fciDecode (fciCodec emptyingMutator))
  ∧ ¬ reencodedWithDeclaredEncoding emptyingMutator.
Proof.
  assert (roundTrips (kcEncode (kubeletConfigCodec emptyingMutator))
                     (kcDecode (kubeletConfigCodec emptyingMutator))) as Hkc
    by (intros [encoding data] x [= <-]; reflexivity).
  assert (roundTrips (fciEncode (fciCodec emptyingMutator))
                     (fciDecode (fciCodec emptyingMutator))) as Hfci.
  { intros [encoding data] x. simpl.
    destruct (decide (data = "" ∧ encoding ≠ "")) as [?|Hno]; [done|].
    intros [= <-]. f_equal. f_equal.
    destruct (decide (data = "")) as [->|?]; [|done].
    destruct (decide (encoding = "")) as [->|?]; [done|]. by destruct Hno. }
  split_and!; [by vm_compute|done|]. intros H.
  destruct (H Hkc Hfci (inline "sysctl") []
              {| FileContentInline.Encoding := ""; FileContentInline.Data := "" |}
              [CallEnsureKubernetesGeneralConfiguration]) as [_ Hsysctl].
  specialize (Hsysctl eq_refl). by vm_compute in Hsysctl.
Qed.

End MutatorExamples.

(** ** The theorems at concrete inputs *)

Section Witnesses.
Import genericactuator examples.


Lemma markMachineForcefulDeletion_idempotent_witness :
  markMachineForcefulDeletion (actuator rejectAC [] []) (markedMachine "A", ABCD)
  = ((markedMachine "A", ABCD), Ok tt)
  ∧ ∃ w', markMachineForcefulDeletion (actuator rejectAC [] []) (machine "B", ABCD)
          = ((withMarker (machine "B"), w'), Ok tt)
        ∧ ops w' = [OpUpdate (withMarker (machine "B"))].
Proof.
  split.
  - apply (proj1 (markMachineForcefulDeletion_idempotent
                    (actuator rejectAC [] []) (markedMachine "A") ABCD)).
    by vm_compute.
  - destruct (proj2 (markMachineForcefulDeletion_idempotent
                       (actuator rejectAC [] []) (machine "B") ABCD))
      as (w' & Hmark & Hops & _); [by vm_compute|].
    exists w'. split; [exact Hmark|exact Hops].
Defined.

Lemma wait_fails_on_failed_machine_witness :
  (waitUntilMachineResourcesDeleted (actuator rejectAC [] [busy; failing; gone]) noWorld).2
  = Err (ErrMachineFailed "A" "quota exceeded").
Proof.
  destruct (wait_fails_on_failed_machine
              (actuator rejectAC [] [busy; failing; gone]) noWorld
              [busy] failing [gone] (after busy start)
              (after failing (after busy start))
              (condition failing (after busy start)).2
              [deployment [quotaExceeded]] (deployment [quotaExceeded]))
    as (md' & failedMachine & _ & _ & Hr & Hwait).
  - reflexivity.
  - econstructor; [by vm_compute|constructor].
  - by vm_compute.
  - apply list_elem_of_In. vm_compute. auto 10.
  - reflexivity.
  - by apply elem_of_cons; left.
  - done.
  - rewrite Hwait. simpl. destruct failedMachine as [name description].
    vm_compute in Hr. by injection Hr as <- <-.
Defined.

Lemma wait_stops_on_list_error_witness :
  (waitUntilMachineResourcesDeleted
     (actuator rejectAC [] [busy; unavailable; gone]) noWorld).2
  = Err (ErrNew "machine sets unavailable").
Proof.
  destruct (wait_stops_on_list_error
              (actuator rejectAC [] [busy; unavailable; gone]) noWorld
              [busy] unavailable [gone] (after busy start)
              (after unavailable (after busy start))
              (condition unavailable (after busy start)).2
              KMachineSet (ErrNew "machine sets unavailable"))
    as [_ Hwait].
  - reflexivity.
  - econstructor; [by vm_compute|constructor].
  - by vm_compute.
  - apply list_elem_of_In. vm_compute. auto 10.
  - reflexivity.
  - by rewrite Hwait.
Defined.

Lemma wait_converges_or_times_out_witness :
  (waitUntilMachineResourcesDeleted (actuator rejectAC [] [busy; gone]) noWorld).2
  = Ok tt
  ∧ (waitUntilMachineResourcesDeleted (actuator rejectAC [] [busy; busy]) noWorld).2
    = Err ErrWaitTimeout
  ∧ (∃ pre t post s',
       [busy; gone] = pre ++ t :: post
       ∧ (waitUntilMachineResourcesDeleted (actuator rejectAC [] [busy; gone]) noWorld).1
         = s'.2
       ∧ countMachines s'.1 = 0 ∧ countMachineSets s'.1 = 0
       ∧ countMachineDeployments s'.1 = 0 ∧ countMachineClasses s'.1 = 0
       ∧ countMachineClassSecrets s'.1 = 0
       ∧ ∀ k, ∃ t', t' ∈ pre ++ [t] ∧ observe k t' = Ok 0)
  ∧ ((condition machinesGone start).2 = Ok false
     ∧ ¬ allZero (after machinesGone start).1
     ∧ (countMachines (after machinesGone start).1 ≠ 0
        ∨ countMachineSets (after machinesGone start).1 ≠ 0
        ∨ countMachineDeployments (after machinesGone start).1 ≠ 0
        ∨ countMachineClasses (after machinesGone start).1 ≠ 0
        ∨ countMachineClassSecrets (after machinesGone start).1 ≠ 0)).
Proof.
  split; [|split; [|split]].
  - destruct (wait_converges_or_times_out (actuator rejectAC [] [busy; gone]) noWorld)
      as (Hdone & _ & _ & _ & _ & _).
    destruct (Hdone [busy] gone [] (after busy start) (after gone (after busy start))
                (condition gone (after busy start)).2) as [Hwait _].
    + reflexivity.
    + econstructor; [by vm_compute|constructor].
    + by vm_compute.
    + vm_compute. auto.
    + by rewrite Hwait.
  - destruct (wait_converges_or_times_out (actuator rejectAC [] [busy; busy]) noWorld)
      as (_ & _ & _ & _ & Htimeout & _).
    destruct (Htimeout (after busy (after busy start))) as [Hwait _].
    + econstructor; [by vm_compute|]. econstructor; [by vm_compute|constructor].
    + by rewrite Hwait.
  - destruct (wait_converges_or_times_out (actuator rejectAC [] [busy; gone]) noWorld)
      as (_ & Honly & _).
    destruct (Honly (waitUntilMachineResourcesDeleted
                       (actuator rejectAC [] [busy; gone]) noWorld).1)
      as (pre & t & post & s & s' & Ha & _ & _ & Hw & H1 & H2 & H3 & H4 & H5 & Hobs).
    + by vm_compute.
    + exists pre, t, post, s'. split_and!; try done.
  - destruct (wait_converges_or_times_out (actuator rejectAC [] [machinesGone]) noWorld)
      as (_ & _ & Htick & _).
    destruct (Htick machinesGone start (after machinesGone start) (Ok false))
      as [Hiff Hopen]; [by vm_compute|].
    split_and!; [by vm_compute| |by apply Hopen].
    intros Hz. by apply Hiff in Hz.
Defined.

Lemma closed_kind_not_listed_again_witness :
  (OpList KMachine
     ∉ issued (after machinesGone start) (after gone (after machinesGone start)))
  ∧ (waitUntilMachineResourcesDeleted
       (actuator rejectAC [] [machinesGone; gone]) noWorld).2 = Ok tt.
Proof.
  destruct (closed_kind_not_listed_again
              (actuator rejectAC [] [machinesGone; gone]) noWorld KMachine
              [] machinesGone [gone] start (after machinesGone start)
              (after gone (after machinesGone start)) (Ok tt))
    as (Hnot & _ & Hwait).
  - reflexivity.
  - constructor.
  - by vm_compute.
  - by vm_compute.
  - by vm_compute.
  - split; [exact Hnot|]. by rewrite Hwait.
Defined.

Lemma progress_names_listed_kinds_witness :
  last (ops (after machinesGone start).2)
  = Some (progress (summary start.1 (after machinesGone start).1))
  ∧ OpList KMachine ∈ issued start (after machinesGone start)
  ∧ observe KMachine machinesGone = Ok (count KMachine (after machinesGone start).1).
Proof.
  destruct (progress_names_listed_kinds machinesGone start (after machinesGone start))
    as (Hlast & Hlisted & _); [by vm_compute|].
  destruct (Hlisted KMachine) as [Hin Hobs]; [by vm_compute|].
  split_and!; [exact Hlast|exact Hin|exact Hobs].
Defined.

End Witnesses.

Section MutatorWitnesses.
Import genericmutator mutatorExamples.

Lemma Mutate_noop_unless_target_witness :
  Mutate exampleMutator (Other "ConfigMap" "kube-apiserver", [])
  = ((Other "ConfigMap" "kube-apiserver", []), Ok tt)
  ∧ Mutate exampleMutator
      (Service {| Workload.Name := "kube-dns"; Workload.Namespace := "shoot--foo--bar";
                  Workload.Spec_ := tt |}, [])
    = ((Service {| Workload.Name := "kube-dns"; Workload.Namespace := "shoot--foo--bar";
                   Workload.Spec_ := tt |}, []), Ok tt)
  ∧ Mutate exampleMutator (OperatingSystemConfig (exampleConfig "provision"), [])
    = ((OperatingSystemConfig (exampleConfig "provision"), []), Ok tt).
Proof.
  split_and!; apply (Mutate_noop_unless_target exampleMutator); by vm_compute.
Defined.


Lemma reencoding_keeps_encoding_and_payload_witness :
  ensureKubeletConfigFileContent remarkingMutator (inline "kubelet", [])
  = ((inline "kubelet # seen", [CallEnsureKubeletConfiguration]), Ok tt)
  ∧ ensureKubernetesGeneralConfiguration remarkingMutator (inline "sysctl", [])
    = ((inline "sysctl # seen", [CallEnsureKubernetesGeneralConfiguration]), Ok tt)
  ∧ FileContentInline.Encoding
      (ensureKubernetesGeneralConfiguration remarkingMutator (inline "sysctl", [])).1.1
    = "b64"
  ∧ ensureKubeletConfigFileContent exampleMutator (inline "kubelet", [])
    = ((inline "kubelet", [CallEnsureKubeletConfiguration]), Ok tt)
  ∧ ensureKubernetesGeneralConfiguration exampleMutator (inline "sysctl", [])
    = ((inline "sysctl", [CallEnsureKubernetesGeneralConfiguration]), Ok tt).
Proof.
  assert (roundTrips (kcEncode (kubeletConfigCodec exampleMutator))
                     (kcDecode (kubeletConfigCodec exampleMutator))) as H2
    by (intros [encoding data] x [= <-]; reflexivity).
  assert (keepsEncoding (fciEncode (fciCodec remarkingMutator))) as H3
    by (intros x encoding fci [= <-]; reflexivity).
  assert (roundTrips (fciEncode (fciCodec exampleMutator))
                     (fciDecode (fciCodec exampleMutator))) as H4
    by (intros [encoding data] x [= <-]; reflexivity).
  split; [|split; [|split; [|split]]].
  - destruct (reencoding_keeps_encoding_and_payload remarkingMutator
                (inline "kubelet") []) as (Hiff & _).
    apply Hiff. exists "kubelet", "kubelet # seen". by vm_compute.
  - destruct (reencoding_keeps_encoding_and_payload remarkingMutator
                (inline "sysctl") []) as (_ & _ & _ & _ & Hiff & _).
    apply Hiff. exists "sysctl", "sysctl # seen". by vm_compute.
  - destruct (reencoding_keeps_encoding_and_payload remarkingMutator
                (inline "sysctl") []) as (_ & _ & _ & _ & _ & _ & Hkeeps & _).
    apply (Hkeeps H3 _
             (ensureKubernetesGeneralConfiguration remarkingMutator (inline "sysctl", [])).1.2
             (ensureKubernetesGeneralConfiguration remarkingMutator (inline "sysctl", [])).2).
    reflexivity.
  - destruct (reencoding_keeps_encoding_and_payload exampleMutator
                (inline "kubelet") []) as (_ & _ & _ & Hsame & _).
    apply (Hsame H2 "kubelet"); reflexivity.
  - destruct (reencoding_keeps_encoding_and_payload exampleMutator
                (inline "sysctl") []) as (_ & _ & _ & _ & _ & _ & _ & Hsame).
    apply (Hsame H4 "sysctl"); reflexivity.
Defined.

End MutatorWitnesses.

(** * More properties *)

(** ** Package genericactuator *)

Section ActuatorProperties.
Import genericactuator.

Section FanOutUpdates.
Variable a : genericActuator.

Lemma waiting_insert_started gs i m g :
  gs !! i = Some (Marking m) →
  (∀ m', g ≠ Marking m') →
  waiting gs ≡ₚ m :: waiting (<[i := g]> gs).
Proof.
  intros Hi Hg. unfold waiting.
  rewrite <- (take_drop_middle gs i (Marking m) Hi) at 1.
  rewrite insert_take_drop by (by eapply lookup_lt_Some).
  rewrite !omap_app. simpl.
  assert (match g with Marking m0 => Some m0 | _ => None end = None) as ->
    by (destruct g; [by destruct (Hg m0)|done..]).
  by rewrite Permutation_middle.
Qed.

Lemma waiting_insert_other gs i g g' :
  gs !! i = Some g →
  (∀ m', g ≠ Marking m') → (∀ m', g' ≠ Marking m') →
  waiting (<[i := g']> gs) = waiting gs.
Proof.
  intros Hi Hg Hg'. unfold waiting.
  rewrite <- (take_drop_middle gs i g Hi) at 2.
  rewrite insert_take_drop by (by eapply lookup_lt_Some).
  rewrite !omap_app. simpl.
  assert (∀ g, (∀ m', g ≠ Marking m') →
            match g with Marking m0 => Some m0 | _ => None end = None) as Hnone
    by (intros [m0| | |] H; [by destruct (H m0)|done..]).
  by rewrite !Hnone.
Qed.

Lemma updatesOf_app ms1 ms2 : updatesOf (ms1 ++ ms2) = updatesOf ms1 ++ updatesOf ms2.
Proof. unfold updatesOf. by rewrite filter_app, !fmap_app. Qed.

Lemma updatesOf_cons m ms :
  updatesOf (m :: ms)
  = (if decide (marked m) then [] else [OpUpdate (withMarker m)]) ++ updatesOf ms.
Proof.
  unfold updatesOf. rewrite filter_cons.
  destruct (decide (marked m)); destruct (decide (¬ marked m)); done || tauto.
Qed.

(** Whatever the schedule does, the goroutines that start in it are some of
    those that waited, and the updates issued are theirs, in the order in
    which they start. *)
Lemma run_updates sched : ∀ f,
  ∃ started,
    waiting (goroutines f) ≡ₚ started ++ waiting (goroutines (run a sched f))
    ∧ ops (world (run a sched f)) = ops (world f) ++ updatesOf started.
Proof.
  induction sched as [|i sched IH]; intros f.
  - exists []. unfold updatesOf. simpl. by rewrite app_nil_r.
  - unfold run in *. simpl.
    destruct (IH (step a f i)) as (started & Hw & Hops).
    rewrite step_spec in Hw, Hops. rewrite step_spec.
    destruct (goroutines f !! i) as [[m|e|old e|]|] eqn:Hi; simpl in *.
    + exists (m :: started). split.
      * rewrite (waiting_insert_started _ i m
                   (match outcome a m with Some e => Failed e | None => Done end) Hi)
          by (by destruct (outcome a m)).
        simpl. by f_equiv.
      * rewrite Hops, updatesOf_cons. unfold afterMarking.
        case_decide; simpl; [done|by rewrite <- app_assoc].
    + exists started. split; [|done].
      by rewrite <- (waiting_insert_other _ i (Failed e) (Appending (errorList f) e) Hi).
    + exists started. split; [|done].
      by rewrite <- (waiting_insert_other _ i (Appending old e) Done Hi).
    + by exists started.
    + by exists started.
Qed.

Lemma waiting_Done gs :
  (∀ i, (i < length gs)%nat → gs !! i = Some Done) → waiting gs = [].
Proof.
  induction gs as [|g gs IH]; intros H; [done|].
  pose proof (H 0%nat ltac:(simpl; lia)) as [= ->]. unfold waiting in *. simpl.
  apply IH. intros i Hi. apply (H (S i)). simpl. lia.
Qed.

Lemma waiting_Marking items : waiting (Marking <$> items) = items.
Proof.
  induction items as [|m items IH]; [done|].
  unfold waiting in *. simpl. f_equal. exact IH.
Qed.

(** The fan-out issues, in some order, one update for every machine that
    does not carry the marker, and nothing else. *)
Lemma fanOut_updates items w w' errs :
  fanOut a items w = (w', Ok errs) →
  ∃ started, started ≡ₚ items ∧ ops w' = ops w ++ updatesOf started.
Proof.
  unfold fanOut. intros [= <- <-].
  set (f0 := {| world := w; errorList := []; goroutines := Marking <$> items |}).
  set (f1 := run a (schedule a) f0).
  destruct (run_updates (schedule a) f0) as (s1 & Hw1 & Hops1). fold f1 in Hw1, Hops1.
  destruct (run_updates (i ← seq 0 (length (goroutines f1)); [i; i; i]) f1)
    as (s2 & Hw2 & Hops2).
  change (run a _ f1) with (Wait a f1) in Hw2, Hops2.
  rewrite (waiting_Done (goroutines (Wait a f1))) in Hw2.
  2:{ intros i Hi. rewrite Wait_length in Hi. by apply (Wait_Done a). }
  exists (s1 ++ s2). split.
  - rewrite app_nil_r in Hw2. rewrite Hw2 in Hw1. simpl in Hw1.
    by rewrite waiting_Marking in Hw1.
  - rewrite Hops2, Hops1. simpl. by rewrite updatesOf_app, app_assoc.
Qed.

End FanOutUpdates.

Section MarkAll.
Variable a : genericActuator.

Lemma outcome_marked m : marked m → outcome a m = None.
Proof. intros H. unfold outcome. by rewrite decide_True. Qed.

Lemma labelled_marked m : outcome a m = None → marked (labelled a m).
Proof.
  unfold outcome, labelled. case_decide as Hm; [done|]. intros ->.
  unfold marked, withMarker, setLabels, labelsOf. simpl. by rewrite lookup_insert_eq.
Qed.

Lemma step_settled f i :
  settled (goroutines f) →
  world (step a f i) = world f ∧ errorList (step a f i) = errorList f
  ∧ settled (goroutines (step a f i)).
Proof.
  intros Hs. rewrite step_spec.
  destruct (goroutines f !! i) as [g|] eqn:Hi; [|done].
  destruct (Hs g) as [->|(m & -> & Hm)]; [by eapply list_elem_of_lookup_2|done|].
  rewrite (outcome_marked m Hm). simpl. unfold afterMarking.
  rewrite decide_True by done. split_and!; [done..|].
  intros g [j Hj]%list_elem_of_lookup_1.
  destruct (decide (i = j)) as [->|Hij].
  - rewrite list_lookup_insert_eq in Hj by (by eapply lookup_lt_Some).
    injection Hj as <-. by left.
  - rewrite list_lookup_insert_ne in Hj by done.
    apply Hs. by eapply list_elem_of_lookup_2.
Qed.

Lemma run_settled sched : ∀ f,
  settled (goroutines f) →
  world (run a sched f) = world f ∧ errorList (run a sched f) = errorList f
  ∧ settled (goroutines (run a sched f)).
Proof.
  induction sched as [|i sched IH]; intros f Hs; [done|].
  unfold run in *. simpl.
  destruct (step_settled f i Hs) as (Hw & He & Hs').
  destruct (IH _ Hs') as (Hw' & He' & Hs''). split_and!; [congruence..|done].
Qed.

(** When every machine carries the marker, the fan-out does nothing,
    whatever the schedule. *)
Lemma fanOut_marked items w :
  Forall marked items → fanOut a items w = (w, Ok []).
Proof.
  intros Hm. unfold fanOut.
  set (f0 := {| world := w; errorList := []; goroutines := Marking <$> items |}).
  assert (settled (goroutines f0)) as Hs.
  { intros g (m & -> & Hin)%list_elem_of_fmap. right. exists m. split; [done|].
    by eapply Forall_forall in Hm. }
  destruct (run_settled (schedule a) f0 Hs) as (Hw & He & Hs').
  unfold Wait.
  destruct (run_settled (i ← seq 0 (length (goroutines (run a (schedule a) f0))); [i; i; i])
              _ Hs') as (Hw' & He' & _).
  by rewrite Hw', He', Hw, He.
Qed.

Lemma markAll_marked w :
  ListMachines a = None → Forall marked (machines w) →
  markAllMachinesForcefulDeletion a w = (logged (OpList KMachine) w, Ok tt).
Proof.
  intros Hl Hm. rewrite (markAll_spec a w Hl).
  by rewrite (fanOut_marked (machines w) (logged (OpList KMachine) w) Hm).
Qed.

(** What a run of [markAllMachinesForcefulDeletion] leaves, when the
    listing passes and the machines have distinct names. *)
Lemma markAll_inv w w' r :
  ListMachines a = None →
  NoDup (Machine.Name <$> machines w) →
  markAllMachinesForcefulDeletion a w = (w', r) →
  machines w' = labelled a <$> machines w
  ∧ (r = Ok tt ↔ ∀ m, m ∈ machines w → outcome a m = None)
  ∧ (∀ e, r = Err e → ∃ errs, e = ErrLabelling errs ∧ errs ≠ []
       ∧ ∀ e', e' ∈ errs → ∃ m, m ∈ machines w ∧ outcome a m = Some e').
Proof.
  intros Hl Hnd. rewrite (markAll_spec a w Hl).
  destruct (fanOut a (machines w) (logged (OpList KMachine) w)) as [w1 r1] eqn:Hf.
  assert (∃ errs, r1 = Ok errs) as [errs ->]
    by (unfold fanOut in Hf; injection Hf as _ <-; eauto).
  destruct (fanOut_spec a (machines w) Hnd (logged (OpList KMachine) w) w1 errs
              eq_refl Hf) as (Hgen & Hne & Hst & _).
  destruct errs as [|e0 errs]; intros [= <- <-].
  - split_and!; [done| |done]. split; [|done]. intros _ m Hm.
    destruct (outcome a m) eqn:Ho; [|done]. destruct Hne; [|done].
    exists m. split; [done|]. by rewrite Ho.
  - split_and!; [done| |].
    + split; [done|]. intros Hall.
      destruct (Hgen e0) as (m & Hm & Ho); [by apply elem_of_cons; left|].
      by rewrite (Hall m Hm) in Ho.
    + intros e [= <-]. by exists (e0 :: errs).
Qed.

End MarkAll.

Section DeleteStages.
Variable a : genericActuator.

Lemma Delete_spec w :
  Delete a w =
    let w1 := logged OpWorkerDelegate w in
    match WorkerDelegate a with
    | Some e => (w1, Err (ErrWrapf e "could not instantiate actuator context"))
    | None =>
    let w2 := logged OpGetDeployment w1 in
    match GetDeployment a with
    | Some e => (w2, Err e)
    | None =>
    let w3 := logged OpScaleDeployment w2 in
    match ScaleDeployment a with
    | Some e => (w3, Err e)
    | None =>
    let w4 := logged OpApplyShootChart w3 in
    match applyMachineControllerManagerShootChart a with
    | Some e =>
        (w4, Err (ErrWrapf e "could not apply machine-controller-manager shoot chart"))
    | None =>
    let w5 := logged (OpLogInfo "Deleting all machines") w4 in
    match markAllMachinesForcefulDeletion a w5 with
    | (w6, Err e) =>
        (w6, Err (ErrWrapf e "marking all machines for forceful deletion failed"))
    | (w6, Ok _) =>
    let w7 := logged (OpList KMachineDeployment) w6 in
    match ListMachineDeployments a with
    | Some e => (w7, Err e)
    | None =>
    let w8 := logged OpCleanupMachineDeployments w7 in
    match cleanupMachineDeployments a with
    | Some e => (w8, Err (ErrWrapf e "cleaning up machine deployments failed"))
    | None =>
    let w9 := logged OpCleanupMachineClasses w8 in
    match cleanupMachineClasses a with
    | Some e => (w9, Err (ErrWrapf e "cleaning up machine classes failed"))
    | None =>
    let w10 := logged OpCleanupMachineClassSecrets w9 in
    match cleanupMachineClassSecrets a with
    | Some e => (w10, Err (ErrWrapf e "cleaning up machine class secrets failed"))
    | None =>
    match waitUntilMachineResourcesDeleted a w10 with
    | (w11, Err e) =>
        (w11, Err (DetermineError
                     ("Failed while waiting for all machine resources to be deleted: '"
                      +:+ Error e +:+ "'")))
    | (w11, Ok _) =>
    let w12 := logged (OpLogInfo "Deleting the machine-controller-manager") w11 in
    let w13 := logged OpNewClientsForShoot w12 in
    match NewClientsForShoot a with
    | Some e =>
        (w13, Err (ErrWrapf e
          "could not create shoot client for cleanup of machine-controller-manager resources"))
    | None =>
    let w14 := logged OpDeleteShootChart w13 in
    match mcmShootChartDelete a with
    | Some e =>
        (w14, Err (ErrWrapf e
          "cleaning up machine-controller-manager resources in shoot failed"))
    | None =>
    let w15 := logged OpDeleteSeedChart w14 in
    match mcmSeedChartDelete a with
    | Some e =>
        (w15, Err (ErrWrapf e
          "cleaning up machine-controller-manager resources in seed failed"))
    | None => (w15, Ok tt)
    end end end end end end end end end end end end end.
Proof.
  unfold Delete, call, record, determine, logged. unmonad. simpl.
  destruct (WorkerDelegate a); [done|].
  destruct (GetDeployment a); [done|].
  destruct (ScaleDeployment a); [done|].
  destruct (applyMachineControllerManagerShootChart a); [done|].
  destruct (markAllMachinesForcefulDeletion a _) as [w6 [[]|e]]; [|done].
  destruct (ListMachineDeployments a); [done|].
  destruct (cleanupMachineDeployments a); [done|].
  destruct (cleanupMachineClasses a); [done|].
  destruct (cleanupMachineClassSecrets a); [done|]. simpl.
  destruct (waitUntilMachineResourcesDeleted a _) as [w11 [[]|e]]; [|done].
  destruct (NewClientsForShoot a); [done|].
  destruct (mcmShootChartDelete a); [done|].
  by destruct (mcmSeedChartDelete a).
Qed.

End DeleteStages.

(** The wait only lists and logs, and leaves the machines as they are. *)
Lemma condition_readOnly t s s' r :
  condition t s = (s', r) →
  machines s'.2 = machines s.2
  ∧ ∃ new, ops s'.2 = ops s.2 ++ new ∧ Forall readOnly new.
Proof.
  intros (qs & Hops & Hm & _)%condition_inv. split; [done|].
  eexists. split; [exact Hops|]. apply Forall_app. split.
  - apply Forall_fmap, Forall_forall. by intros k _.
  - destruct r as [[]|]; simpl; by repeat constructor.
Qed.

Lemma PollUntil_readOnly ticks : ∀ s s' r,
  PollUntil ticks condition s = (s', r) →
  machines s'.2 = machines s.2
  ∧ ∃ new, ops s'.2 = ops s.2 ++ new ∧ Forall readOnly new.
Proof.
  induction ticks as [|t ticks IH]; intros s s' r H.
  - injection H as <- <-. split; [done|]. exists []. by rewrite app_nil_r.
  - rewrite PollUntil_cons in H.
    destruct (condition t s) as [s1 r1] eqn:Ht.
    apply condition_readOnly in Ht as (Hm & new & Hops & Hnew).
    destruct r1 as [[]|e].
    + injection H as <- <-. eauto.
    + apply IH in H as (Hm' & new' & Hops' & Hnew'). split; [congruence|].
      exists (new ++ new'). split; [by rewrite Hops', Hops, app_assoc|].
      by apply Forall_app.
    + injection H as <- <-. eauto.
Qed.

Lemma wait_readOnly a w w' r :
  waitUntilMachineResourcesDeleted a w = (w', r) →
  machines w' = machines w
  ∧ ∃ new, ops w' = ops w ++ new ∧ Forall readOnly new.
Proof.
  rewrite waitUntil_poll. intros [= <- <-].
  destruct (PollUntil (ticks a) condition (initialCounts, w)) as [s' r'] eqn:Hp.
  by apply PollUntil_readOnly in Hp.
Qed.

Section Labelling.
Variable a : genericActuator.

Lemma markAll_list_error w e :
  ListMachines a = Some e →
  markAllMachinesForcefulDeletion a w = (logged (OpList KMachine) w, Err e).
Proof.
  intros Hl. unfold markAllMachinesForcefulDeletion, call, record, logged.
  rewrite Hl. by unmonad.
Qed.

Lemma markAll_ops w w' r :
  markAllMachinesForcefulDeletion a w = (w', r) →
  ∃ new, ops w' = ops w ++ new ∧ Forall labelling new.
Proof.
  destruct (ListMachines a) as [e|] eqn:Hl.
  - rewrite (markAll_list_error w e Hl). intros [= <- <-].
    exists [OpList KMachine]. split; [done|]. by repeat constructor.
  - rewrite (markAll_spec a w Hl).
    destruct (fanOut a (machines w) (logged (OpList KMachine) w)) as [w1 r1] eqn:Hf.
    assert (∃ errs, r1 = Ok errs) as [errs ->]
      by (unfold fanOut in Hf; injection Hf as _ <-; eauto).
    apply fanOut_updates in Hf as (started & _ & Hops). simpl in Hops.
    assert (w' = w1 → ∃ new, ops w' = ops w ++ new ∧ Forall labelling new) as Hgoal.
    { intros ->. exists (OpList KMachine :: updatesOf started).
      split; [by rewrite Hops, <- app_assoc|].
      constructor; [done|]. unfold updatesOf.
      apply Forall_fmap, Forall_forall. by intros u _. }
    destruct errs; intros [= <- _]; by apply Hgoal.
Qed.

End Labelling.

Lemma logged_called o os w : logged o (called os w) = called (os ++ [o]) w.
Proof. unfold logged, called. simpl. by rewrite app_assoc. Qed.

Lemma logged_world o w : logged o w = called [o] w.
Proof. done. Qed.

Lemma Delete_ends a w : DeleteEnds a w (Delete a w).1 (Delete a w).2.
Proof.
  rewrite Delete_spec. cbv zeta.
  rewrite (logged_world OpWorkerDelegate), !logged_called. simpl app.
  destruct (WorkerDelegate a) as [e|] eqn:H1.
  { apply (ends_setup a w 0 e); [lia|by simpl; rewrite H1|intros; lia]. }
  destruct (GetDeployment a) as [e|] eqn:H2.
  { apply (ends_setup a w 1 e); [lia|by simpl; rewrite H2|].
    intros [|i] Hi; [by simpl; rewrite H1|lia]. }
  destruct (ScaleDeployment a) as [e|] eqn:H3.
  { apply (ends_setup a w 2 e); [lia|by simpl; rewrite H3|].
    intros [|[|i]] Hi; [by simpl; rewrite H1|by simpl; rewrite H2|lia]. }
  destruct (applyMachineControllerManagerShootChart a) as [e|] eqn:H4.
  { apply (ends_setup a w 3 e); [lia|by simpl; rewrite H4|].
    intros [|[|[|i]]] Hi;
      [by simpl; rewrite H1|by simpl; rewrite H2|by simpl; rewrite H3|lia]. }
  assert (setupPasses a) as Hsetup by done.
  change (called _ w) with (called opsSetup w).
  destruct (markAllMachinesForcefulDeletion a (called opsSetup w)) as [w6 [[]|e]] eqn:Hm;
    [|by apply ends_marking].
  rewrite (logged_world (OpList KMachineDeployment)), !logged_called. simpl app.
  destruct (ListMachineDeployments a) as [e|] eqn:H5.
  { apply (ends_cascade a w w6 0 e); [done..|lia|by simpl; rewrite H5|intros; lia]. }
  destruct (cleanupMachineDeployments a) as [e|] eqn:H6.
  { apply (ends_cascade a w w6 1 e); [done..|lia|by simpl; rewrite H6|].
    intros [|i] Hi; [by simpl; rewrite H5|lia]. }
  destruct (cleanupMachineClasses a) as [e|] eqn:H7.
  { apply (ends_cascade a w w6 2 e); [done..|lia|by simpl; rewrite H7|].
    intros [|[|i]] Hi; [by simpl; rewrite H5|by simpl; rewrite H6|lia]. }
  destruct (cleanupMachineClassSecrets a) as [e|] eqn:H8.
  { apply (ends_cascade a w w6 3 e); [done..|lia|by simpl; rewrite H8|].
    intros [|[|[|i]]] Hi;
      [by simpl; rewrite H5|by simpl; rewrite H6|by simpl; rewrite H7|lia]. }
  assert (cascadePasses a) as Hcascade by done.
  change (called _ w6) with (called opsCascade w6).
  destruct (waitUntilMachineResourcesDeleted a (called opsCascade w6))
    as [w11 [[]|e]] eqn:Hw; [|by eapply ends_wait].
  rewrite (logged_world (OpLogInfo _)), !logged_called. simpl app.
  destruct (NewClientsForShoot a) as [e|] eqn:H9.
  { apply (ends_removal a w w6 w11 0 e); [done..|lia|by simpl; rewrite H9|intros; lia]. }
  destruct (mcmShootChartDelete a) as [e|] eqn:H10.
  { apply (ends_removal a w w6 w11 1 e); [done..|lia|by simpl; rewrite H10|].
    intros [|i] Hi; [by simpl; rewrite H9|lia]. }
  destruct (mcmSeedChartDelete a) as [e|] eqn:H11.
  { apply (ends_removal a w w6 w11 2 e); [done..|lia|by simpl; rewrite H11|].
    intros [|[|i]] Hi; [by simpl; rewrite H9|by simpl; rewrite H10|lia]. }
  by eapply ends_done.
Qed.

Lemma issuedIn_app w w' l : ops w' = ops w ++ l → issuedIn w w' = l.
Proof. unfold issuedIn. intros ->. by rewrite drop_app_length. Qed.

Lemma markAll_ok_listed a w w' : 
  markAllMachinesForcefulDeletion a w = (w', Ok tt) → ListMachines a = None.
Proof.
  destruct (ListMachines a) as [e|] eqn:Hl; [|done].
  by rewrite (markAll_list_error a w e Hl).
Qed.

Lemma markAll_updates a w w' r :
  ListMachines a = None →
  markAllMachinesForcefulDeletion a w = (w', r) →
  ∃ started, started ≡ₚ machines w
    ∧ ops w' = ops w ++ OpList KMachine :: updatesOf started.
Proof.
  intros Hl. rewrite (markAll_spec a w Hl).
  destruct (fanOut a (machines w) (logged (OpList KMachine) w)) as [w1 r1] eqn:Hf.
  assert (∃ errs, r1 = Ok errs) as [errs ->]
    by (unfold fanOut in Hf; injection Hf as _ <-; eauto).
  apply fanOut_updates in Hf as (started & Hp & Hops).
  intros H. exists started. split; [done|].
  assert (w' = w1) as -> by (destruct errs; by injection H).
  rewrite Hops. simpl. by rewrite <- app_assoc.
Qed.

Lemma labelled_withMarkerOnce a m :
  outcome a m = None → labelled a m = withMarkerOnce m.
Proof.
  unfold outcome, labelled, withMarkerOnce. case_decide; [done|]. by intros ->.
Qed.

Lemma withMarkerOnce_marked m : marked (withMarkerOnce m).
Proof.
  unfold withMarkerOnce. case_decide; [done|].
  unfold marked, withMarker, setLabels, labelsOf. simpl. by rewrite lookup_insert_eq.
Qed.

(** After a labelling that passed, every machine is stored with the marker. *)
Lemma markAll_ok a w w' :
  NoDup (Machine.Name <$> machines w) →
  markAllMachinesForcefulDeletion a w = (w', Ok tt) →
  machines w' = withMarkerOnce <$> machines w
  ∧ ∀ m, m ∈ machines w → outcome a m = None.
Proof.
  intros Hnd H. pose proof (markAll_ok_listed _ _ _ H) as Hl.
  destruct (markAll_inv a w w' (Ok tt) Hl Hnd H) as (Hm & Hok & _).
  pose proof (proj1 Hok eq_refl) as Hall. split; [|done].
  rewrite Hm. apply list_fmap_ext. intros i m Hi.
  apply labelled_withMarkerOnce, Hall. by eapply list_elem_of_lookup_2.
Qed.

Lemma not_removal_setup n o : o ∈ take n opsSetup → ¬ removal o ∧ ¬ cascade o.
Proof.
  intros Ho%subseteq_take. unfold opsSetup in Ho.
  repeat (apply elem_of_cons in Ho as [->|Ho];
          [by split; intros H; repeat destruct H as [H|H]|]).
  by apply elem_of_nil in Ho.
Qed.


Lemma labelling_not_removal o : labelling o → ¬ removal o ∧ ¬ cascade o.
Proof.
  destruct o as [| | | |k|m| | | | | | |]; try done.
  - destruct k; try done. intros _.
    split; intros H; repeat destruct H as [H|H]; done.
  - intros _. split; intros H; repeat destruct H as [H|H]; done.
Qed.


Section DeleteOrder.
Variable a : genericActuator.

(** X4.  When one of the stages of [Delete] that precede the labelling
    fails (the worker delegate, the lookup or the scaling of the
    machine-controller-manager deployment, the shoot chart, the listing of
    the machines), [Delete] returns an error, has issued only calls of these
    stages, in their order, and has left every machine as it was: no machine
    is updated and nothing is cleaned up. *)
Theorem Delete_stops_when_setup_fails w w' r :
  ¬ reachesMarking a →
  Delete a w = (w', r) →
  machines w' = machines w
  ∧ (∃ e, r = Err e)
  ∧ ∃ n, issuedIn w w' = take n opsBeforeMarking.
Proof.
  intros Hnot H. pose proof (Delete_ends a w) as He. rewrite H in He. simpl in He.
  destruct He as [n e Hn Hfail Hpass| w6 e Hsetup Hm | w6 n e Hsetup Hm
                 | w6 w11 e Hsetup Hm | w6 w11 n e Hsetup Hm | w6 w11 Hsetup Hm].
  - split_and!; [done|eauto|]. exists (S n). apply issuedIn_app.
    destruct n as [|[|[|[|n]]]]; [done..|lia].
  - destruct (ListMachines a) as [e'|] eqn:Hl.
    + rewrite (markAll_list_error a _ e' Hl) in Hm. injection Hm as <- <-.
      split_and!; [done|eauto|]. exists 6%nat. apply issuedIn_app.
      simpl. by rewrite <- app_assoc.
    + destruct Hnot. by destruct Hsetup as (? & ? & ? & ?).
  - destruct Hnot. apply markAll_ok_listed in Hm. by destruct Hsetup as (? & ? & ? & ?).
  - destruct Hnot. apply markAll_ok_listed in Hm. by destruct Hsetup as (? & ? & ? & ?).
  - destruct Hnot. apply markAll_ok_listed in Hm. by destruct Hsetup as (? & ? & ? & ?).
  - destruct Hnot. apply markAll_ok_listed in Hm. by destruct Hsetup as (? & ? & ? & ?).
Qed.

(** What [Delete] has issued and stored when it got past the labelling. *)
Lemma Delete_past_marking w w6 :
  NoDup (Machine.Name <$> machines w) →
  markAllMachinesForcefulDeletion a (called opsSetup w) = (w6, Ok tt) →
  machines w6 = withMarkerOnce <$> machines w
  ∧ (∀ m, m ∈ machines w → outcome a m = None)
  ∧ ∃ started, started ≡ₚ machines w
      ∧ ops w6 = ops w ++ opsSetup ++ OpList KMachine :: updatesOf started.
Proof.
  intros Hnd Hm. destruct (markAll_ok a (called opsSetup w) w6 Hnd Hm) as (Hst & Hall).
  split_and!; [done..|].
  destruct (markAll_updates a _ _ _ (markAll_ok_listed _ _ _ Hm) Hm)
    as (started & Hp & Hops).
  exists started. split; [done|]. rewrite Hops. simpl. by rewrite <- app_assoc.
Qed.

End DeleteOrder.

Section DeleteStagesInOrder.
Variable a : genericActuator.

Lemma markAll_called w w6 r :
  markAllMachinesForcefulDeletion a (called opsSetup w) = (w6, r) →
  ∃ marking, Forall labelling marking ∧ ops w6 = ops w ++ opsSetup ++ marking.
Proof.
  intros (new & Hops & Hnew)%markAll_ops. exists new. split; [done|].
  rewrite Hops. simpl. by rewrite <- app_assoc.
Qed.

Lemma wait_called w6 w11 r :
  waitUntilMachineResourcesDeleted a (called opsCascade w6) = (w11, r) →
  ∃ waited, Forall readOnly waited ∧ ops w11 = ops w6 ++ opsCascade ++ waited
    ∧ machines w11 = machines w6.
Proof.
  intros (Hm & new & Hops & Hnew)%wait_readOnly. exists new. split_and!; [done| |done].
  rewrite Hops. simpl. by rewrite <- app_assoc.
Qed.

(** A tick at which no listing fails and no failed machine is reported
    answers without error. *)
Lemma condition_ok t s :
  (∀ k, listError k t = None ∧ failedMachines k t = []) →
  ∃ s' b, condition t s = (s', Ok b).
Proof.
  intros Hclean. destruct (condition t s) as [s' [b|e]] eqn:Ht; [by eauto|].
  exfalso. rewrite condition_checks in Ht.
  destruct (checks kinds t "" s) as [s1 [msg|e']] eqn:Hc.
  - rewrite conclude_spec in Ht. by case_decide.
  - apply checks_error in Hc as [k [Ho|(n & fm & rest & Ho & Hf & _)]].
    + apply observe_err in Ho. destruct (Hclean k) as [Hl _]. congruence.
    + destruct (Hclean k) as [_ Hfm]. congruence.
Qed.

(** The poll returns nil when a tick finds everything gone and no earlier
    tick fails. *)
Lemma PollUntil_converges pre t post : ∀ s,
  (∀ t', t' ∈ pre → ∀ k, listError k t' = None ∧ failedMachines k t' = []) →
  (∀ k, observe k t = Ok 0) →
  ∃ s', PollUntil (pre ++ t :: post) condition s = (s', Ok tt).
Proof.
  induction pre as [|t0 pre IH]; intros s Hpre Ht.
  - destruct (condition_converges t s Ht) as (s' & Hc & _).
    exists s'. simpl app. by rewrite PollUntil_cons, Hc.
  - destruct (condition_ok t0 s) as (s1 & b & Hc);
      [apply Hpre; by apply elem_of_cons; left|].
    rewrite <- app_comm_cons, PollUntil_cons, Hc. destruct b; [by eauto|].
    apply IH; [|done]. intros t' Ht'. apply Hpre. by apply elem_of_cons; right.
Qed.

(** X5.  When [Delete] has issued a call of the cascade deletion or of the
    removal of the machine-controller-manager, whatever it returns in the
    end, every machine is stored with the marker, and otherwise as it was:
    no labelling has failed. *)
Theorem Delete_deletes_only_marked_machines w w' r o :
  NoDup (Machine.Name <$> machines w) →
  Delete a w = (w', r) →
  o ∈ issuedIn w w' → cascade o ∨ removal o →
  machines w' = withMarkerOnce <$> machines w
  ∧ Forall marked (machines w')
  ∧ ∀ m, m ∈ machines w → outcome a m = None.
Proof.
  intros Hnd H Ho Hkind. pose proof (Delete_ends a w) as He. rewrite H in He. simpl in He.
  assert (∀ w6, markAllMachinesForcefulDeletion a (called opsSetup w) = (w6, Ok tt) →
            machines w' = machines w6 →
            machines w' = withMarkerOnce <$> machines w
            ∧ Forall marked (machines w')
            ∧ ∀ m, m ∈ machines w → outcome a m = None) as Hpast.
  { intros w6 Hm Heq. destruct (Delete_past_marking a w w6 Hnd Hm) as (Hst & Hall & _).
    rewrite Heq, Hst. split_and!; [done| |done].
    apply Forall_fmap, Forall_forall. intros m _. apply withMarkerOnce_marked. }
  destruct He as [n e Hn Hfail Hpass| w6 e Hsetup Hm | w6 n e Hsetup Hm
                 | w6 w11 e Hsetup Hm Hcasc Hw | w6 w11 n e Hsetup Hm Hcasc Hw
                 | w6 w11 Hsetup Hm Hcasc Hw].
  - exfalso. rewrite (issuedIn_app w (called (take (S n) opsSetup) w) (take (S n) opsSetup)
               eq_refl) in Ho.
    apply not_removal_setup in Ho. tauto.
  - exfalso. apply markAll_called in Hm as (marking & Hlab & Hops).
    rewrite (issuedIn_app w _ _ Hops) in Ho.
    apply elem_of_app in Ho as [Ho|Ho].
    + apply (not_removal_setup 5) in Ho. tauto.
    + eapply Forall_forall in Hlab; [|done]. apply labelling_not_removal in Hlab. tauto.
  - by apply (Hpast w6).
  - apply (Hpast w6); [done|]. by apply wait_called in Hw as (? & _ & _ & ?).
  - apply (Hpast w6); [done|]. by apply wait_called in Hw as (? & _ & _ & ?).
  - apply (Hpast w6); [done|]. by apply wait_called in Hw as (? & _ & _ & ?).
Qed.


(** X7.  A [Delete] that returns nil has issued, in this order: the calls
    of the setup, the listing of the machines, one update for each machine
    that did not carry the marker, the four calls of the cascade deletion,
    the listings and log entries of the wait, and the calls that remove the
    machine-controller-manager; and nothing else. *)
Theorem Delete_success_trace w w' :
  Delete a w = (w', Ok tt) →
  ∃ started waited,
    started ≡ₚ machines w ∧ Forall readOnly waited
    ∧ issuedIn w w'
      = opsSetup ++ OpList KMachine :: updatesOf started
        ++ opsCascade ++ waited ++ opsRemoval.
Proof.
  intros H. pose proof (Delete_ends a w) as He. rewrite H in He. simpl in He.
  remember (Ok tt) as r eqn:Hr in He.
  destruct He as [n e Hn Hfail Hpass| w6 e Hsetup Hm | w6 n e Hsetup Hm
                 | w6 w11 e Hsetup Hm Hcasc Hw | w6 w11 n e Hsetup Hm Hcasc Hw
                 | w6 w11 Hsetup Hm Hcasc Hw]; try done.
  - destruct (markAll_updates a _ _ _ (markAll_ok_listed _ _ _ Hm) Hm)
      as (started & Hp & Hops).
    apply wait_called in Hw as (waited & Hro & Hops' & _).
    exists started, waited. split_and!; [done..|]. apply issuedIn_app. simpl ops.
    rewrite Hops', Hops. simpl ops. by rewrite <- !app_assoc.
Qed.

(** X8.  [Delete] returns nil when every collaborator answers without error,
    no update of a machine is rejected, and some tick of the wait finds
    every resource type gone while no earlier tick meets a failing listing
    or a failed machine; every machine is then stored with the marker.  The
    machines have distinct names. *)
Theorem Delete_succeeds w pre t post :
  reachesMarking a → cascadePasses a → removalPasses a →
  NoDup (Machine.Name <$> machines w) →
  (∀ m, m ∈ machines w → outcome a m = None) →
  ticks a = pre ++ t :: post →
  (∀ t', t' ∈ pre → ∀ k, listError k t' = None ∧ failedMachines k t' = []) →
  (∀ k, observe k t = Ok 0) →
  ∃ w', Delete a w = (w', Ok tt) ∧ machines w' = withMarkerOnce <$> machines w.
Proof.
  intros (H1 & H2 & H3 & H4 & H5) (H6 & H7 & H8 & H9) (H10 & H11 & H12)
    Hnd Hall Hticks Hpre Ht.
  rewrite Delete_spec. cbv zeta. rewrite H1, H2, H3, H4, H6, H7, H8, H9, H10, H11, H12.
  set (w5 := logged (OpLogInfo "Deleting all machines") _).
  destruct (markAllMachinesForcefulDeletion a w5) as [w6 r6] eqn:Hm.
  destruct (markAll_inv a w5 w6 r6 H5 Hnd Hm) as (Hst & Hok & _).
  assert (r6 = Ok tt) as -> by (by apply Hok).
  set (w10 := logged OpCleanupMachineClassSecrets _).
  destruct (PollUntil_converges pre t post (initialCounts, w10) Hpre Ht) as (s' & Hs').
  rewrite waitUntil_poll, Hticks, Hs'. simpl. eexists. split; [done|]. simpl.
  pose proof (PollUntil_readOnly _ _ _ _ Hs') as [Hmach _]. simpl in Hmach.
  rewrite Hmach, Hst. apply list_fmap_ext. intros i m Hi.
  apply labelled_withMarkerOnce, Hall. by eapply list_elem_of_lookup_2.
Qed.

End DeleteStagesInOrder.

Lemma failedMachines_stopsWith k t fm rest :
  failedMachines k t = fm :: rest →
  stopsWith k t (ErrMachineFailed (MachineSummary.Name fm) (MachineSummary.Description fm)).
Proof.
  intros H. right. unfold failedMachines in H.
  destruct k; try done.
  destruct (existingMachineDeployments t) as [items|] eqn:Hitems; [|done].
  assert (fm ∈ fm :: rest) as Hin by (by apply elem_of_cons; left).
  rewrite <- H in Hin.
  apply list_elem_of_bind in Hin as (md & Hfm & Hmd).
  by exists items, md, fm.
Qed.

Lemma filter_open_setCount k0 n c (ks : list Kind) :
  k0 ∉ ks →
  filter (λ k, count k (setCount k0 n c) ≠ 0) ks = filter (λ k, count k c ≠ 0) ks.
Proof.
  intros Hk0. apply filter_ext_elem. intros k Hk.
  rewrite count_setCount. case_decide; [|done]. congruence.
Qed.

(** The blocks list the open resource types in their order, up to the first
    one that ends the tick. *)
Lemma checks_order ks t : NoDup ks → ∀ msg s s' r,
  checks ks t msg s = (s', r) →
  ∃ qs,
    ops s'.2 = ops s.2 ++ (OpList <$> qs)
    ∧ qs `prefix_of` filter (λ k, count k s.1 ≠ 0) ks
    ∧ ((∃ msg', r = Ok msg') → qs = filter (λ k, count k s.1 ≠ 0) ks)
    ∧ (∀ e, r = Err e → ∃ k, last qs = Some k ∧ stopsWith k t e).
Proof.
  induction ks as [|k0 ks IH]; intros Hnd msg s s' r H.
  - injection H as <- <-. exists []. simpl. rewrite app_nil_r. by split_and!.
  - apply NoDup_cons in Hnd as [Hk0 Hnd].
    rewrite checks_cons in H. rewrite filter_cons.
    destruct (check k0 t msg s) as [s1 r1] eqn:Hc. apply check_inv in Hc.
    destruct Hc as [Hz|e Hnz Ho|n fm rest Hnz Ho Hf|n Hnz Ho Hf].
    + rewrite decide_False by (by intros ?).
      by apply (IH Hnd) in H.
    + rewrite decide_True by done. injection H as <- <-. exists [k0]. simpl.
      split_and!; [done| |by intros [? ?]|].
      * by apply prefix_cons, prefix_nil.
      * intros e' [= <-]. exists k0. split; [done|]. left. by apply observe_err.
    + rewrite decide_True by done. injection H as <- <-. exists [k0]. simpl.
      split_and!; [done| |by intros [? ?]|].
      * by apply prefix_cons, prefix_nil.
      * intros e' [= <-]. exists k0. split; [done|]. by eapply failedMachines_stopsWith.
    + rewrite decide_True by done.
      apply (IH Hnd) in H as (qs & Hops & Hpre & Hall & Herr). simpl in *.
      rewrite filter_open_setCount in Hpre, Hall by done.
      exists (k0 :: qs). split_and!.
      * rewrite Hops. simpl. by rewrite <- app_assoc.
      * by apply prefix_cons.
      * intros Hr. by rewrite (Hall Hr).
      * intros e Hr. destruct (Herr e Hr) as (k & Hlast & Hstop).
        exists k. split; [|done]. destruct qs; [done|]. done.
Qed.

(** One tick: the calls it issues. *)
Lemma condition_order t s s' r :
  condition t s = (s', r) →
  ∃ qs,
    issued s s' = (OpList <$> qs) ++ logOf s.1 s'.1 r
    ∧ qs `prefix_of` openKinds s.1
    ∧ ((∃ b, r = Ok b) → qs = openKinds s.1)
    ∧ (∀ e, r = Err e → ∃ k, last qs = Some k ∧ stopsWith k t e).
Proof.
  intros H. pose proof H as (qs' & Hops' & _)%condition_inv.
  rewrite condition_checks in H.
  destruct (checks kinds t "" s) as [s1 r1] eqn:Hc.
  pose proof (checks_order kinds t NoDup_kinds _ _ _ _ Hc) as (qs & Hops & Hpre & Hall & Herr).
  assert (ops s'.2 = ops s.2 ++ (OpList <$> qs) ++ logOf s.1 s'.1 r) as Hissued.
  { destruct r1 as [msg|e].
    - pose proof (checks_summary _ _ NoDup_kinds _ _ _ _ Hc) as [Hmsg _].
      rewrite conclude_spec in H. case_decide; injection H as <- <-; simpl.
      + by rewrite app_nil_r.
      + rewrite Hops, <- app_assoc. unfold summary. by rewrite <- Hmsg.
    - injection H as <- <-. simpl. by rewrite app_nil_r. }
  exists qs. split_and!.
  - unfold issued. by rewrite Hissued, drop_app_length.
  - done.
  - intros [b ->]. apply Hall. destruct r1 as [msg|e]; [by eauto|].
    by injection H.
  - intros e ->. apply Herr. destruct r1 as [msg|e'].
    + rewrite conclude_spec in H. by case_decide.
    + injection H as _ <-. done.
Qed.




Lemma filter_finalizers_nil (secrets : list Secret.t) :
  filter (λ x, Secret.Finalizers x ≠ []) secrets = []
  ↔ Forall (λ x, Secret.Finalizers x = []) secrets.
Proof.
  induction secrets as [|x l IH]; [done|]. rewrite filter_cons, Forall_cons.
  destruct (decide (Secret.Finalizers x ≠ [])) as [Hne|He].
  - split; [done|]. by intros [? _].
  - rewrite IH. split; [|tauto]. intros ?. split; [|done].
    by destruct (decide (Secret.Finalizers x = [])).
Qed.

Section WaitMore.
Variable a : genericActuator.
Variable w : World.


(** X10.  At a tick of the wait, the resource types are listed in the order
    machines, machine sets, machine deployments, machine classes, machine
    class secrets, those left out whose count is zero already.  A tick that
    answers lists them all; a tick that ends with an error stops at the
    resource type whose listing has failed or has reported a failed machine,
    lists none after it, and the wait returns that error. *)
Theorem tick_lists_open_kinds_in_order pre t post s s' r :
  ticks a = pre ++ t :: post →
  pending condition pre (initialCounts, w) s →
  condition t s = (s', r) →
  ∃ qs,
    issued s s' = (OpList <$> qs) ++ logOf s.1 s'.1 r
    ∧ qs `prefix_of` openKinds s.1
    ∧ ((∃ b, r = Ok b) → qs = openKinds s.1)
    ∧ (∀ e, r = Err e →
         (∃ k, last qs = Some k ∧ stopsWith k t e)
         ∧ waitUntilMachineResourcesDeleted a w = (s'.2, Err e)).
Proof.
  intros Hticks Hp Hc.
  destruct (condition_order t s s' r Hc) as (qs & Hissued & Hpre & Hall & Herr).
  exists qs. split_and!; [done..|]. intros e ->. split; [by apply Herr|].
  by rewrite (wait_at a w pre t post s s' (Err e) Hticks Hp Hc).
Qed.

(** X11.  An error of [waitUntilMachineResourcesDeleted] is the timeout
    error, after every tick before the deadline has gone on with some count
    not zero, or it comes from a tick reached by the wait, at which the
    listing of a resource type that was still open has failed with that
    error, or a listed machine deployment has reported a failed machine
    that the error names. *)
Theorem wait_error_causes w' e :
  waitUntilMachineResourcesDeleted a w = (w', Err e) →
  (e = ErrWaitTimeout
   ∧ ∃ s', pending condition (ticks a) (initialCounts, w) s' ∧ ¬ allZero s'.1)
  ∨ ∃ pre t post s k,
      ticks a = pre ++ t :: post
      ∧ pending condition pre (initialCounts, w) s
      ∧ count k s.1 ≠ 0
      ∧ stopsWith k t e.
Proof.
  rewrite waitUntil_poll.
  destruct (PollUntil_total condition (ticks a) (initialCounts, w))
    as (pre & s1 & Hp & [[Hpre Hto]|(t & post & s' & r & Ht & Hc & Hr & Hres)]).
  - rewrite Hto. simpl. intros [= _ <-]. left. split; [done|].
    exists s1. subst pre. split; [done|].
    eapply pending_not_allZero; [done|]. apply initialCounts_not_allZero.
  - rewrite Hres. simpl. intros [= _ He]. destruct r as [b|e']; [done|].
    injection He as ->. right.
    apply condition_order in Hc as (qs & _ & Hpre & _ & Herr).
    destruct (Herr e eq_refl) as (k & Hlast & Hstop).
    exists pre, t, post, s1, k. split_and!; [done..| |done].
    apply last_Some in Hlast as [qs' ->].
    assert (k ∈ openKinds s1.1) as Hk.
    { destruct Hpre as [rest ->]. rewrite !elem_of_app, list_elem_of_singleton. auto. }
    unfold openKinds in Hk. by apply list_elem_of_filter in Hk as [? _].
Qed.

(** X12.  At a tick that lists the machine class secrets and answers, their
    count becomes the number of listed secrets that carry a finalizer: it is
    zero exactly when no listed secret carries one, and a tick that ends the
    wait with nil has found none. *)
Theorem secrets_hold_up_wait_iff_finalizers pre t post s s' b secrets :
  ticks a = pre ++ t :: post →
  pending condition pre (initialCounts, w) s →
  condition t s = (s', Ok b) →
  count KMachineClassSecret s.1 ≠ 0 →
  existingMachineClassSecrets t = Ok secrets →
  count KMachineClassSecret s'.1
  = len (filter (λ x, Secret.Finalizers x ≠ []) secrets)
  ∧ (count KMachineClassSecret s'.1 = 0
     ↔ Forall (λ x, Secret.Finalizers x = []) secrets)
  ∧ (b = true → Forall (λ x, Secret.Finalizers x = []) secrets).
Proof.
  intros _ _ Hc Hopen Hsecrets.
  apply condition_inv in Hc as (qs & _ & _ & _ & _ & _ & _ & Hz & Hall).
  destruct (Hall KMachineClassSecret) as (_ & Ho & _); [by eauto|done|].
  unfold observe in Ho. rewrite Hsecrets in Ho. injection Ho as Ho.
  change (countMachineClassSecrets s'.1) with (count KMachineClassSecret s'.1) in Ho.
  assert (filter (λ x, length (Secret.Finalizers x) ≠ 0%nat) secrets
          = filter (λ x, Secret.Finalizers x ≠ []) secrets) as Hfilter.
  { apply filter_ext_elem. intros x _. by destruct (Secret.Finalizers x). }
  rewrite Hfilter in Ho.
  assert (count KMachineClassSecret s'.1 = 0
          ↔ Forall (λ x, Secret.Finalizers x = []) secrets) as Hiff.
  { rewrite <- Ho, <- filter_finalizers_nil. unfold len. split.
    - intros Hlen. apply length_zero_iff_nil. lia.
    - by intros ->. }
  split_and!; [by rewrite Ho|done|]. intros ->. apply Hiff.
  assert (allZero s'.1) as Hzero by (by apply Hz).
  exact (proj1 (allZero_count _) Hzero _).
Qed.

End WaitMore.

Lemma labelled_cases a m : labelled a m = m ∨ labelled a m = withMarker m.
Proof.
  unfold labelled. case_decide; [by left|]. destruct (Update a _); [by left|by right].
Qed.

Lemma marked_labelled a m : marked (labelled a m) → outcome a m = None.
Proof.
  unfold labelled, outcome. case_decide as Hm; [done|].
  by destruct (Update a _).
Qed.

Section MarkAllMore.
Variable a : genericActuator.

(** X1.  When the machines are listed, [markAllMachinesForcefulDeletion]
    leaves every machine stored as it was or with the marker added, in
    every interleaving of the goroutines; it returns nil exactly when every
    machine is stored with the marker afterwards, and otherwise the error
    that aggregates a non-empty list of labelling errors. *)
Theorem markAll_nil_iff_all_marked w w' r :
  ListMachines a = None →
  NoDup (Machine.Name <$> machines w) →
  markAllMachinesForcefulDeletion a w = (w', r) →
  Forall2 (λ m m', m' = m ∨ m' = withMarker m) (machines w) (machines w')
  ∧ (r = Ok tt ↔ Forall marked (machines w'))
  ∧ (∀ e, r = Err e → ∃ errs, e = ErrLabelling errs ∧ errs ≠ []).
Proof.
  intros Hl Hnd H. destruct (markAll_inv a w w' r Hl Hnd H) as (Hst & Hok & Herr).
  split_and!.
  - rewrite Hst. apply Forall2_fmap_r, Forall_Forall2_diag, Forall_forall.
    intros m _. apply labelled_cases.
  - rewrite Hok, Hst, Forall_fmap, Forall_forall. split.
    + intros Hall m Hm. by apply labelled_marked, Hall.
    + intros Hall m Hm. by apply marked_labelled, Hall.
  - intros e He. destruct (Herr e He) as (errs & -> & Hne & _). by exists errs.
Qed.

(** X2.  When the machines are listed, [markAllMachinesForcefulDeletion]
    issues, after the list call, one update for every machine that does not
    carry the marker and none for a machine that carries it, in the order
    in which the goroutines start, whatever the interleaving and whether or
    not updates fail. *)
Theorem markAll_updates_each_unmarked_machine_once w w' r :
  ListMachines a = None →
  markAllMachinesForcefulDeletion a w = (w', r) →
  ∃ started,
    started ≡ₚ machines w
    ∧ issuedIn w w'
      = OpList KMachine
        :: (OpUpdate <$> (withMarker <$> filter (λ m, ¬ marked m) started))
    ∧ length (issuedIn w w')
      = S (length (filter (λ m, ¬ marked m) (machines w))).
Proof.
  intros Hl H. destruct (markAll_updates a w w' r Hl H) as (started & Hp & Hops).
  exists started. rewrite (issuedIn_app w w' _ Hops). split_and!; [done..|].
  simpl. unfold updatesOf. by rewrite !length_fmap, Hp.
Qed.

(** X3.  After a run of [markAllMachinesForcefulDeletion] that returned
    nil, another run (whatever its API server answers to updates, and
    whatever its schedule) lists the machines, issues no update, leaves the
    store as it is and returns nil. *)
Theorem markAll_again_issues_no_update (a2 : genericActuator) w w1 :
  NoDup (Machine.Name <$> machines w) →
  markAllMachinesForcefulDeletion a w = (w1, Ok tt) →
  ListMachines a2 = None →
  markAllMachinesForcefulDeletion a2 w1 = (logged (OpList KMachine) w1, Ok tt).
Proof.
  intros Hnd H Hl2. destruct (markAll_ok a w w1 Hnd H) as [Hst _].
  apply markAll_marked; [done|]. rewrite Hst.
  apply Forall_fmap, Forall_forall. intros m _. apply withMarkerOnce_marked.
Qed.

End MarkAllMore.

End ActuatorProperties.

(** ** Package genericmutator *)

Section MutatorProperties.
Import genericmutator.

Section Steps.
Context {ServiceSpec DeploymentSpec StatefulSetSpec KubeletConfiguration Cluster : Type}.
Variable m : mutator ServiceSpec DeploymentSpec StatefulSetSpec KubeletConfiguration Cluster.

Lemma ensureKubeletServiceUnitContent_spec content calls :
  ensureKubeletServiceUnitContent m (content, calls)
  = match Deserialize (unitSerializer m) content with
    | Err e =>
        ((content, calls),
         Err (ErrWrapf e "could not deserialize kubelet.service unit content"))
    | Ok opts =>
        let calls := calls ++ [CallEnsureKubeletServiceUnitOptions] in
        match EnsureKubeletServiceUnitOptions (ensurer m) opts with
        | Err e => ((content, calls), Err e)
        | Ok opts =>
            ((fst (Serialize (unitSerializer m) opts), calls),
             match snd (Serialize (unitSerializer m) opts) with
             | None => Ok tt
             | Some e =>
                 Err (ErrWrapf e "could not serialize kubelet.service unit options")
             end)
        end
    end.
Proof.
  unfold ensureKubeletServiceUnitContent, invoke. unmonad. simpl.
  destruct (Deserialize _ _) as [opts|e]; simpl; [|done].
  destruct (EnsureKubeletServiceUnitOptions _ _) as [opts'|e]; simpl; [|done].
  by destruct (Serialize _ _) as [c [e|]].
Qed.

Lemma mutateOperatingSystemConfig_steps s :
  mutateOperatingSystemConfig m s
  = (mutateKubeletServiceUnit m ;;
     onInlineOf "/var/lib/kubelet/config/kubelet" (ensureKubeletConfigFileContent m) ;;
     onInlineOf "/etc/sysctl.d/99-k8s-general.conf"
       (ensureKubernetesGeneralConfiguration m) ;;
     invoke CallShouldProvisionKubeletCloudProviderConfig ;;
     if ShouldProvisionKubeletCloudProviderConfig (ensurer m)
     then ensureKubeletCloudProviderConfig m
     else mret tt) s.
Proof. done. Qed.

End Steps.

Lemma keeps_refl osc : keeps osc osc.
Proof. by unfold keeps. Qed.

Lemma keeps_trans osc1 osc2 osc3 : keeps osc1 osc2 → keeps osc2 osc3 → keeps osc1 osc3.
Proof.
  intros (H1 & H2 & H3 & H4 & H5 & H6 & H7) (G1 & G2 & G3 & G4 & G5 & G6 & G7).
  unfold keeps. split_and!; try congruence.
  - intros j u Hj Hu. apply G5; [by apply H5|done].
  - intros j f Hj Hf. apply G7; [by apply H7|done].
Qed.

Section MutatorSteps.
Context {ServiceSpec DeploymentSpec StatefulSetSpec KubeletConfiguration Cluster : Type}.
Variable m : mutator ServiceSpec DeploymentSpec StatefulSetSpec KubeletConfiguration Cluster.

(** The step on the kubelet.service unit. *)
Lemma mutateKubeletServiceUnit_inv osc calls osc' calls' r :
  mutateKubeletServiceUnit m (osc, calls) = ((osc', calls'), r) →
  keeps osc osc'
  ∧ OperatingSystemConfig.Files osc' = OperatingSystemConfig.Files osc
  ∧ (calls' = calls ∨ calls' = calls ++ [CallEnsureKubeletServiceUnitOptions]).
Proof.
  unfold mutateKubeletServiceUnit, within. unmonad. simpl.
  destruct (UnitWithName _ _) as [[i u]|] eqn:Hfind;
    [|intros [= <- <- <-]; split_and!; [apply keeps_refl|done|by left]].
  destruct (Unit.Content u) as [content|];
    [|intros [= <- <- <-]; split_and!; [apply keeps_refl|done|by left]].
  apply list_find_Some in Hfind as (Hi & Hname & _).
  unfold zoom. simpl. rewrite ensureKubeletServiceUnitContent_spec.
  assert (∀ c, keeps osc (setUnits (<[i := setContent c u]> (OperatingSystemConfig.Units osc)) osc))
    as Hkeeps.
  { intros c. unfold keeps. simpl. split_and!; try done.
    - rewrite list_fmap_insert. simpl. apply list_insert_id.
      by rewrite list_lookup_fmap, Hi.
    - intros j v Hj Hv. rewrite list_lookup_insert_ne; [done|].
      intros ->. congruence. }
  destruct (Deserialize _ _) as [opts|e]; simpl;
    [|intros [= <- <- <-]; split_and!; [apply Hkeeps|done|by left]].
  destruct (EnsureKubeletServiceUnitOptions _ _) as [opts'|e]; simpl;
    intros [= <- <- <-]; split_and!; [apply Hkeeps|done|by right|apply Hkeeps|done|by right].
Qed.

(** A step on the inline content of a file. *)
Lemma onInlineOf_inv path body hook osc calls osc' calls' r :
  path ∈ mutatedPaths →
  (∀ fci calls fci' calls' r, body (fci, calls) = ((fci', calls'), r) →
     calls' = calls ∨ calls' = calls ++ [hook]) →
  onInlineOf path body (osc, calls) = ((osc', calls'), r) →
  keeps osc osc'
  ∧ (calls' = calls ∨ calls' = calls ++ [hook]).
Proof.
  intros Hpath Hbody. unfold onInlineOf, within. unmonad. simpl.
  destruct (FileWithPath _ _) as [[i f]|] eqn:Hfind;
    [|intros [= <- <- <-]; split; [apply keeps_refl|by left]].
  destruct (FileContent.Inline _) as [inline|];
    [|intros [= <- <- <-]; split; [apply keeps_refl|by left]].
  apply list_find_Some in Hfind as (Hi & Hp & _).
  unfold zoom. simpl.
  destruct (body (inline, calls)) as [[inline' calls''] r'] eqn:Hb.
  intros [= <- <- <-]. split; [|by eapply Hbody].
  unfold keeps. simpl. split_and!; try done.
  - rewrite list_fmap_insert. simpl. apply list_insert_id.
    by rewrite list_lookup_fmap, Hi.
  - intros j g Hj Hg. rewrite list_lookup_insert_ne; [done|].
    intros ->. congruence.
Qed.

Lemma ensureKubeletConfigFileContent_calls fci calls fci' calls' r :
  ensureKubeletConfigFileContent m (fci, calls) = ((fci', calls'), r) →
  calls' = calls ∨ calls' = calls ++ [CallEnsureKubeletConfiguration].
Proof.
  rewrite ensureKubeletConfigFileContent_spec.
  destruct (kcDecode _ _) as [c|e]; [|intros [= <- <- <-]; by left].
  simpl. destruct (EnsureKubeletConfiguration _ _) as [c' [[]|e]];
    [|intros [= <- <- <-]; by right].
  destruct (kcEncode _ _ _); intros [= <- <- <-]; by right.
Qed.

Lemma ensureKubernetesGeneralConfiguration_calls fci calls fci' calls' r :
  ensureKubernetesGeneralConfiguration m (fci, calls) = ((fci', calls'), r) →
  calls' = calls ∨ calls' = calls ++ [CallEnsureKubernetesGeneralConfiguration].
Proof.
  rewrite ensureKubernetesGeneralConfiguration_spec.
  destruct (fciDecode _ _) as [c|e]; [|intros [= <- <- <-]; by left].
  simpl. destruct (EnsureKubernetesGeneralConfiguration _ _) as [c' [[]|e]];
    [|intros [= <- <- <-]; by right].
  destruct (fciEncode _ _ _); intros [= <- <- <-]; by right.
Qed.

Lemma step_calls (c : Call) (calls calls' : list Call) :
  calls' = calls ∨ calls' = calls ++ [c] →
  ∃ l, calls' = calls ++ l ∧ l `sublist_of` [c].
Proof.
  intros [->| ->]; [exists []|exists [c]]; rewrite ?app_nil_r; split; try done.
  apply sublist_nil_l.
Qed.

(** The run of [mutateOperatingSystemConfig], step by step: the first three
    steps leave [osc3] and have called [new]; then either a step has failed,
    or the provider is asked whether to provision the cloud provider
    config. *)
Lemma mutateOperatingSystemConfig_run osc calls osc' calls' r :
  mutateOperatingSystemConfig m (osc, calls) = ((osc', calls'), r) →
  ∃ osc3 new,
    keeps osc osc3
    ∧ new `sublist_of` [CallEnsureKubeletServiceUnitOptions;
                        CallEnsureKubeletConfiguration;
                        CallEnsureKubernetesGeneralConfiguration]
    ∧ ((osc' = osc3 ∧ calls' = calls ++ new ∧ ∃ e, r = Err e)
       ∨ (ShouldProvisionKubeletCloudProviderConfig (ensurer m) = false
          ∧ osc' = osc3 ∧ r = Ok tt
          ∧ calls' = calls ++ new ++ [CallShouldProvisionKubeletCloudProviderConfig])
       ∨ (ShouldProvisionKubeletCloudProviderConfig (ensurer m) = true
          ∧ ensureKubeletCloudProviderConfig m
              (osc3, calls ++ new ++ [CallShouldProvisionKubeletCloudProviderConfig])
            = ((osc', calls'), r))).
Proof.
  rewrite mutateOperatingSystemConfig_steps.
  unfold mbind at 1, M_bind at 1, bind at 1.
  destruct (mutateKubeletServiceUnit m (osc, calls)) as [[osc1 calls1] r1] eqn:H1.
  apply mutateKubeletServiceUnit_inv in H1 as (Hk1 & _ & Hc1).
  apply step_calls in Hc1 as (l1 & -> & Hl1).
  destruct r1 as [[]|e].
  2:{ intros [= <- <- <-]. exists osc1, l1. split_and!; [done| |left; by eauto].
      by apply (sublist_inserts_r [_; _] _ [_]). }
  unfold mbind at 1, M_bind at 1, bind at 1.
  destruct (onInlineOf _ _ (osc1, calls ++ l1)) as [[osc2 calls2] r2] eqn:H2.
  apply (onInlineOf_inv _ _ CallEnsureKubeletConfiguration) in H2 as (Hk2 & Hc2);
    [|apply list_elem_of_In; vm_compute; auto|apply ensureKubeletConfigFileContent_calls].
  apply step_calls in Hc2 as (l2 & -> & Hl2).
  assert ((l1 ++ l2) `sublist_of` [CallEnsureKubeletServiceUnitOptions;
                                   CallEnsureKubeletConfiguration]) as Hl12
    by (by apply (sublist_app _ [_] _ [_])).
  destruct r2 as [[]|e].
  2:{ intros [= <- <- <-]. exists osc2, (l1 ++ l2).
      split_and!; [by eapply keeps_trans| |left; rewrite app_assoc; by eauto].
      by apply (sublist_inserts_r [_] _ [_; _]). }
  unfold mbind at 1, M_bind at 1, bind at 1.
  destruct (onInlineOf _ _ (osc2, (calls ++ l1) ++ l2)) as [[osc3 calls3] r3] eqn:H3.
  apply (onInlineOf_inv _ _ CallEnsureKubernetesGeneralConfiguration) in H3 as (Hk3 & Hc3);
    [|apply list_elem_of_In; vm_compute; auto|apply ensureKubernetesGeneralConfiguration_calls].
  apply step_calls in Hc3 as (l3 & -> & Hl3).
  assert (((l1 ++ l2) ++ l3) `sublist_of` [CallEnsureKubeletServiceUnitOptions;
                                          CallEnsureKubeletConfiguration;
                                          CallEnsureKubernetesGeneralConfiguration]) as Hl123
    by (by apply (sublist_app _ [_; _] _ [_])).
  assert (keeps osc osc3) as Hk by (eapply keeps_trans; [by eapply keeps_trans|done]).
  assert (((calls ++ l1) ++ l2) ++ l3 = calls ++ (l1 ++ l2) ++ l3) as ->
    by (by rewrite <- !app_assoc).
  intros H. exists osc3, ((l1 ++ l2) ++ l3). split_and!; [done..|].
  destruct r3 as [[]|e]; [|injection H as <- <- <-; left; by eauto].
  revert H.
  unfold mbind at 1, M_bind at 1, bind at 1, invoke at 1, modify at 1. simpl.
  destruct (ShouldProvisionKubeletCloudProviderConfig (ensurer m)).
  - intros H. right. right. split; [done|]. by rewrite (assoc_L (++)).
  - intros [= <- <- <-]. right. left. split_and!; try done. by rewrite <- !app_assoc.
Qed.

End MutatorSteps.

Section MutatorFrame.
Context {ServiceSpec DeploymentSpec StatefulSetSpec KubeletConfiguration Cluster : Type}.
Variable m : mutator ServiceSpec DeploymentSpec StatefulSetSpec KubeletConfiguration Cluster.

(** X13.  Whatever it returns, [mutateOperatingSystemConfig] leaves the
    name, the namespace and the purpose of the OperatingSystemConfig, the
    names of its units in their order, every unit but kubelet.service, and
    every file at a path other than that of the kubelet configuration, of
    the kubernetes general configuration and of the cloud provider config;
    the paths of the files stay as they are, or the path of the cloud
    provider config is added at the end.  ([controlplane.UnitWithName],
    [FileWithPath] and [EnsureFileWithPath] are as modelled above.) *)
Theorem mutateOperatingSystemConfig_touches_only_its_parts osc calls osc' calls' r :
  mutateOperatingSystemConfig m (osc, calls) = ((osc', calls'), r) →
  OperatingSystemConfig.Name osc' = OperatingSystemConfig.Name osc
  ∧ OperatingSystemConfig.Namespace osc' = OperatingSystemConfig.Namespace osc
  ∧ OperatingSystemConfig.Purpose osc' = OperatingSystemConfig.Purpose osc
  ∧ Unit.Name <$> OperatingSystemConfig.Units osc'
    = Unit.Name <$> OperatingSystemConfig.Units osc
  ∧ (∀ j u, OperatingSystemConfig.Units osc !! j = Some u →
       Unit.Name u ≠ "kubelet.service" →
       OperatingSystemConfig.Units osc' !! j = Some u)
  ∧ (File.Path <$> OperatingSystemConfig.Files osc'
     = File.Path <$> OperatingSystemConfig.Files osc
     ∨ File.Path <$> OperatingSystemConfig.Files osc'
       = (File.Path <$> OperatingSystemConfig.Files osc) ++ [cloudProviderConfigPath])
  ∧ (∀ j f, OperatingSystemConfig.Files osc !! j = Some f →
       File.Path f ∉ mutatedPaths →
       OperatingSystemConfig.Files osc' !! j = Some f).
Proof.
  intros (osc3 & new & Hk & _ & Hcase)%mutateOperatingSystemConfig_run.
  assert (keeps osc osc' →
          OperatingSystemConfig.Name osc' = OperatingSystemConfig.Name osc
          ∧ OperatingSystemConfig.Namespace osc' = OperatingSystemConfig.Namespace osc
          ∧ OperatingSystemConfig.Purpose osc' = OperatingSystemConfig.Purpose osc
          ∧ Unit.Name <$> OperatingSystemConfig.Units osc'
            = Unit.Name <$> OperatingSystemConfig.Units osc
          ∧ (∀ j u, OperatingSystemConfig.Units osc !! j = Some u →
               Unit.Name u ≠ "kubelet.service" →
               OperatingSystemConfig.Units osc' !! j = Some u)
          ∧ (File.Path <$> OperatingSystemConfig.Files osc'
             = File.Path <$> OperatingSystemConfig.Files osc
             ∨ File.Path <$> OperatingSystemConfig.Files osc'
               = (File.Path <$> OperatingSystemConfig.Files osc) ++ [cloudProviderConfigPath])
          ∧ (∀ j f, OperatingSystemConfig.Files osc !! j = Some f →
               File.Path f ∉ mutatedPaths →
               OperatingSystemConfig.Files osc' !! j = Some f)) as Hkept.
  { intros (H1 & H2 & H3 & H4 & H5 & H6 & H7). split_and!; auto. }
  destruct Hcase as [(-> & _)|[(_ & -> & _)|(_ & Hcloud)]]; [by apply Hkept..|].
  rewrite ensureKubeletCloudProviderConfig_spec in Hcloud. cbv zeta in Hcloud.
  destruct (EnsureKubeletCloudProviderConfig _ _ _) as [s [[]|e]];
    [|injection Hcloud as <- _ _; by apply Hkept].
  destruct (fciEncode _ _ _) as [fci|e]; [|injection Hcloud as <- _ _; by apply Hkept].
  injection Hcloud as <- _ _.
  destruct Hk as (H1 & H2 & H3 & H4 & H5 & H6 & H7).
  destruct (EnsureFileWithPath_spec (OperatingSystemConfig.Files osc3)
              (cloudProviderConfigFile fci)) as (Hpaths & _ & _ & Hother).
  simpl. split_and!; try done.
  - rewrite Hpaths. simpl. rewrite H6. destruct (decide (cloudProviderConfigPath
                        ∈ File.Path <$> OperatingSystemConfig.Files osc));
      [by left|by right].
  - intros j f Hj Hf. apply Hother; [by apply H7|].
    simpl. intros Heq. apply Hf. rewrite Heq.
    apply list_elem_of_In. vm_compute. auto.
Qed.

(** X14.  [mutateOperatingSystemConfig] calls the provider in a fixed
    order, each method at most once: the unit options, the kubelet
    configuration, the kubernetes general configuration, the question
    whether to provision the cloud provider config, and the cloud provider
    config.  The question is asked whenever nil is returned; the cloud
    provider config hook is called exactly when the question was asked and
    answered with true. *)
Theorem mutateOperatingSystemConfig_calls_in_order osc calls osc' calls' r :
  mutateOperatingSystemConfig m (osc, calls) = ((osc', calls'), r) →
  ∃ new,
    calls' = calls ++ new
    ∧ new `sublist_of` stepsOf (OperatingSystemConfig.Namespace osc)
    ∧ (r = Ok tt → CallShouldProvisionKubeletCloudProviderConfig ∈ new)
    ∧ (CallEnsureKubeletCloudProviderConfig (OperatingSystemConfig.Namespace osc) ∈ new
       ↔ CallShouldProvisionKubeletCloudProviderConfig ∈ new
         ∧ ShouldProvisionKubeletCloudProviderConfig (ensurer m) = true).
Proof.
  intros (osc3 & new & Hk & Hnew & Hcase)%mutateOperatingSystemConfig_run.
  assert (∀ c, c ∈ new → c ∈ [CallEnsureKubeletServiceUnitOptions;
                               CallEnsureKubeletConfiguration;
                               CallEnsureKubernetesGeneralConfiguration]) as Hin
    by (intros c Hc; by eapply sublist_subseteq).
  assert (∀ ns, CallEnsureKubeletCloudProviderConfig ns ∉ new) as Hcp.
  { intros ns Hc%Hin. apply list_elem_of_In in Hc. simpl in Hc.
    by destruct Hc as [?|[?|[?|[]]]]. }
  assert (CallShouldProvisionKubeletCloudProviderConfig ∉ new) as Hsp.
  { intros Hc%Hin. apply list_elem_of_In in Hc. simpl in Hc.
    by destruct Hc as [?|[?|[?|[]]]]. }
  assert (OperatingSystemConfig.Namespace osc3 = OperatingSystemConfig.Namespace osc)
    as Hns by (by destruct Hk as (_ & ? & _)).
  destruct Hcase as [(-> & -> & e & ->)|[(Hno & -> & -> & ->)|(Hyes & Hcloud)]].
  - exists new. split_and!; [done| |done|].
    + by apply (sublist_inserts_r [_; _] _ [_; _; _]).
    + split; [by intros ?%Hcp|by intros [?%Hsp _]].
  - exists (new ++ [CallShouldProvisionKubeletCloudProviderConfig]).
    split_and!; [done| | |].
    + apply (sublist_inserts_r [_] _ [_; _; _; _]).
      by apply (sublist_app _ [_; _; _] _ [_]).
    + intros _. rewrite elem_of_app, list_elem_of_singleton. auto.
    + rewrite Hno. split; [|by intros [_ ?]].
      intros [?%Hcp|Hc%list_elem_of_singleton]%elem_of_app; done.
  - rewrite ensureKubeletCloudProviderConfig_spec in Hcloud. cbv zeta in Hcloud.
    rewrite Hns in Hcloud.
    exists (new ++ [CallShouldProvisionKubeletCloudProviderConfig;
                    CallEnsureKubeletCloudProviderConfig
                      (OperatingSystemConfig.Namespace osc)]).
    assert (calls' = calls ++ new
                     ++ [CallShouldProvisionKubeletCloudProviderConfig;
                         CallEnsureKubeletCloudProviderConfig
                           (OperatingSystemConfig.Namespace osc)]) as ->.
    { destruct (EnsureKubeletCloudProviderConfig _ _ _) as [s [[]|e]];
        [destruct (fciEncode _ _ _)|]; injection Hcloud as _ <- _;
        by rewrite <- !app_assoc. }
    split_and!; [done| | |].
    + by apply (sublist_app _ [_; _; _] _ [_; _]).
    + intros _. rewrite elem_of_app, !elem_of_cons. auto.
    + split; [|intros _; rewrite elem_of_app, !elem_of_cons; auto].
      intros _. split; [|done]. rewrite elem_of_app, !elem_of_cons. auto.
Qed.

End MutatorFrame.

Lemma setContent_same u content : Unit.Content u = Some content → setContent content u = u.
Proof. destruct u as [name c]. simpl. by intros ->. Qed.

Lemma setUnits_same osc : setUnits (OperatingSystemConfig.Units osc) osc = osc.
Proof. by destruct osc. Qed.

Section MutatorDispatch.
Context {ServiceSpec DeploymentSpec StatefulSetSpec KubeletConfiguration Cluster : Type}.
Variable m : mutator ServiceSpec DeploymentSpec StatefulSetSpec KubeletConfiguration Cluster.

Lemma onInlineOf_absent path body osc calls :
  (∀ i f, FileWithPath (OperatingSystemConfig.Files osc) path = Some (i, f) →
     FileContent.Inline (File.Content f) = None) →
  onInlineOf path body (osc, calls) = ((osc, calls), Ok tt).
Proof.
  intros Habs. unfold onInlineOf. unmonad. simpl.
  destruct (FileWithPath _ _) as [[i f]|]; [|done].
  by rewrite (Habs i f eq_refl).
Qed.

Lemma Mutate_reconcile osc calls :
  OperatingSystemConfig.Purpose osc = OperatingSystemConfigPurposeReconcile →
  Mutate m (OperatingSystemConfig osc, calls)
  = ((OperatingSystemConfig (mutateOperatingSystemConfig m (osc, calls)).1.1,
      (mutateOperatingSystemConfig m (osc, calls)).1.2),
     (mutateOperatingSystemConfig m (osc, calls)).2).
Proof.
  intros Hp. unfold Mutate, within, zoom. unmonad. simpl.
  rewrite decide_True by done. cbn [snd].
  by destruct (mutateOperatingSystemConfig m (osc, calls)) as [[osc' calls'] r].
Qed.

(** X15.  For an OperatingSystemConfig of purpose "reconcile" in which the
    kubelet.service unit, the kubelet configuration file and the kubernetes
    general configuration file are absent or without content (a unit with
    nil content, a file with no inline content), and a provider that does
    not ask for the cloud provider config, [Mutate] leaves the object as it
    is, only asks the provider that question, and returns nil. *)
Theorem Mutate_leaves_config_without_kubelet_parts osc calls :
  OperatingSystemConfig.Purpose osc = OperatingSystemConfigPurposeReconcile →
  (∀ i u, UnitWithName (OperatingSystemConfig.Units osc) "kubelet.service" = Some (i, u) →
     Unit.Content u = None) →
  (∀ i f, FileWithPath (OperatingSystemConfig.Files osc)
            "/var/lib/kubelet/config/kubelet" = Some (i, f) →
     FileContent.Inline (File.Content f) = None) →
  (∀ i f, FileWithPath (OperatingSystemConfig.Files osc)
            "/etc/sysctl.d/99-k8s-general.conf" = Some (i, f) →
     FileContent.Inline (File.Content f) = None) →
  ShouldProvisionKubeletCloudProviderConfig (ensurer m) = false →
  Mutate m (OperatingSystemConfig osc, calls)
  = ((OperatingSystemConfig osc,
      calls ++ [CallShouldProvisionKubeletCloudProviderConfig]), Ok tt).
Proof.
  intros Hp Hu Hf1 Hf2 Hno. rewrite (Mutate_reconcile osc calls Hp).
  assert (mutateOperatingSystemConfig m (osc, calls)
          = ((osc, calls ++ [CallShouldProvisionKubeletCloudProviderConfig]), Ok tt))
    as ->; [|done].
  rewrite mutateOperatingSystemConfig_steps.
  unfold mbind at 1, M_bind at 1, bind at 1.
  assert (mutateKubeletServiceUnit m (osc, calls) = ((osc, calls), Ok tt)) as ->.
  { unfold mutateKubeletServiceUnit. unmonad. simpl.
    destruct (UnitWithName _ _) as [[i u]|]; [|done]. by rewrite (Hu i u eq_refl). }
  unfold mbind at 1, M_bind at 1, bind at 1.
  rewrite (onInlineOf_absent _ _ osc calls Hf1).
  unfold mbind at 1, M_bind at 1, bind at 1.
  rewrite (onInlineOf_absent _ _ osc calls Hf2).
  rewrite Hno. by unmonad.
Qed.

(** X16.  With a kubelet.service unit whose content deserializes: when the
    hook for the unit options fails, [mutateOperatingSystemConfig] returns
    its error and leaves the OperatingSystemConfig as it was; when the hook
    passes and Serialize fails, it returns the wrapped error, and the
    content of the unit has been overwritten with the text Serialize
    returned along with its error.  No later step runs in either case. *)
Theorem unit_overwritten_when_serialize_fails osc calls i u content opts :
  UnitWithName (OperatingSystemConfig.Units osc) "kubelet.service" = Some (i, u) →
  Unit.Content u = Some content →
  Deserialize (unitSerializer m) content = Ok opts →
  match EnsureKubeletServiceUnitOptions (ensurer m) opts with
  | Err e =>
      mutateOperatingSystemConfig m (osc, calls)
      = ((osc, calls ++ [CallEnsureKubeletServiceUnitOptions]), Err e)
  | Ok opts' =>
      ∀ e, snd (Serialize (unitSerializer m) opts') = Some e →
        mutateOperatingSystemConfig m (osc, calls)
        = ((setUnits (<[i := setContent (fst (Serialize (unitSerializer m) opts')) u]>
                        (OperatingSystemConfig.Units osc)) osc,
            calls ++ [CallEnsureKubeletServiceUnitOptions]),
           Err (ErrWrapf e "could not serialize kubelet.service unit options"))
  end.
Proof.
  intros Hfind Hc Hd.
  assert (setUnits (<[i := setContent content u]> (OperatingSystemConfig.Units osc)) osc
          = osc) as Hsame.
  { rewrite (setContent_same u content Hc).
    apply list_find_Some in Hfind as (Hi & _).
    by rewrite list_insert_id, setUnits_same. }
  assert (mutateKubeletServiceUnit m (osc, calls)
          = let '(c, calls', r) := ensureKubeletServiceUnitContent m (content, calls) in
            ((setUnits (<[i := setContent c u]> (OperatingSystemConfig.Units osc)) osc,
              calls'), r)) as Hstep.
  { unfold mutateKubeletServiceUnit, within, zoom. unmonad. simpl.
    rewrite Hfind, Hc. simpl.
    by destruct (ensureKubeletServiceUnitContent m (content, calls)) as [[c calls'] r]. }
  rewrite ensureKubeletServiceUnitContent_spec, Hd in Hstep. cbv zeta in Hstep.
  destruct (EnsureKubeletServiceUnitOptions _ _) as [opts'|e].
  - intros e He. rewrite He in Hstep.
    rewrite mutateOperatingSystemConfig_steps.
    unfold mbind at 1, M_bind at 1, bind at 1. by rewrite Hstep.
  - rewrite Hsame in Hstep. rewrite mutateOperatingSystemConfig_steps.
    unfold mbind at 1, M_bind at 1, bind at 1. by rewrite Hstep.
Qed.

(** X17.  For the kube-apiserver service and the kube-apiserver,
    kube-controller-manager and kube-scheduler deployments, [Mutate] calls
    the one method of the ensurer for that object, once, and returns its
    answer as it is; the object is left as the method has left it, also
    when the method fails. *)
Theorem Mutate_calls_the_hook_of_the_object calls :
  (∀ x, Workload.Name x = common.KubeAPIServerDeploymentName →
     Mutate m (Service x, calls)
     = let '(x', r) := EnsureKubeAPIServerService (ensurer m) x in
       ((Service x', calls ++ [CallEnsureKubeAPIServerService]), r))
  ∧ (∀ x, Workload.Name x = common.KubeAPIServerDeploymentName →
       Mutate m (Deployment x, calls)
       = let '(x', r) := EnsureKubeAPIServerDeployment (ensurer m) x in
         ((Deployment x', calls ++ [CallEnsureKubeAPIServerDeployment]), r))
  ∧ (∀ x, Workload.Name x = common.KubeControllerManagerDeploymentName →
       Mutate m (Deployment x, calls)
       = let '(x', r) := EnsureKubeControllerManagerDeployment (ensurer m) x in
         ((Deployment x', calls ++ [CallEnsureKubeControllerManagerDeployment]), r))
  ∧ (∀ x, Workload.Name x = common.KubeSchedulerDeploymentName →
       Mutate m (Deployment x, calls)
       = let '(x', r) := EnsureKubeSchedulerDeployment (ensurer m) x in
         ((Deployment x', calls ++ [CallEnsureKubeSchedulerDeployment]), r)).
Proof.
  split_and!; intros x Hx; unfold Mutate, ensure, invoke, within, onObject, zoom;
    unmonad; simpl; rewrite Hx; simpl.
  - by destruct (EnsureKubeAPIServerService _ _) as [x' r].
  - by destruct (EnsureKubeAPIServerDeployment _ _) as [x' r].
  - by destruct (EnsureKubeControllerManagerDeployment _ _) as [x' r].
  - by destruct (EnsureKubeSchedulerDeployment _ _) as [x' r].
Qed.

(** X18.  For the etcd-main and etcd-events stateful sets, [Mutate] looks up
    the cluster of the namespace of the object first.  When the lookup fails
    it returns the error wrapped with "could not get cluster for namespace
    '<namespace>'", leaves the object as it is and does not call the
    ensurer; otherwise it calls [EnsureETCDStatefulSet] with the cluster and
    returns its answer. *)
Theorem Mutate_etcd_looks_up_cluster_first x calls :
  Workload.Name x = common.EtcdMainStatefulSetName
  ∨ Workload.Name x = common.EtcdEventsStatefulSetName →
  Mutate m (StatefulSet x, calls)
  = match GetCluster m (Workload.Namespace x) with
    | Err e =>
        ((StatefulSet x, calls ++ [CallGetCluster (Workload.Namespace x)]),
         Err (ErrWrapf e ("could not get cluster for namespace '"
                          +:+ Workload.Namespace x +:+ "'")))
    | Ok cluster =>
        let '(x', r) := EnsureETCDStatefulSet (ensurer m) cluster x in
        ((StatefulSet x',
          calls ++ [CallGetCluster (Workload.Namespace x); CallEnsureETCDStatefulSet]), r)
    end.
Proof.
  intros Hx. unfold Mutate, ensure, invoke, within, onObject, zoom. unmonad. simpl.
  rewrite decide_True by done. simpl.
  destruct (GetCluster m _) as [cluster|e]; simpl; [|done].
  destruct (EnsureETCDStatefulSet _ _ _) as [x' r]. by rewrite <- app_assoc.
Qed.

End MutatorDispatch.

End MutatorProperties.

(** ** The theorems at concrete inputs *)

Section ActuatorWitnesses.
Import genericactuator examples.

Lemma NoDup_ABCD : NoDup (Machine.Name <$> machines ABCD).
Proof. apply (bool_decide_unpack _). by vm_compute. Defined.

Lemma NoDup_AB : NoDup (Machine.Name <$> machines AB).
Proof. apply (bool_decide_unpack _). by vm_compute. Defined.

Lemma Delete_stops_when_setup_fails_witness :
  machines (Delete noDeployment ABCD).1 = machines ABCD
  ∧ (∃ e, (Delete noDeployment ABCD).2 = Err e)
  ∧ ∃ n, issuedIn ABCD (Delete noDeployment ABCD).1 = take n opsBeforeMarking.
Proof.
  apply (Delete_stops_when_setup_fails noDeployment ABCD).
  - intros (_ & H & _). by vm_compute in H.
  - by vm_compute.
Defined.

Lemma Delete_deletes_only_marked_machines_witness :
  machines (Delete (actuator accept [] [busy; gone]) AB).1
  = [markedMachine "A"; withMarker (machine "B")]
  ∧ Forall marked (machines (Delete (actuator accept [] [busy; gone]) AB).1).
Proof.
  destruct (Delete_deletes_only_marked_machines (actuator accept [] [busy; gone]) AB
              (Delete (actuator accept [] [busy; gone]) AB).1
              (Delete (actuator accept [] [busy; gone]) AB).2
              OpCleanupMachineClasses) as (Hst & Hm & _).
  - exact NoDup_AB.
  - by vm_compute.
  - apply list_elem_of_In. vm_compute. auto 20.
  - left. unfold cascade. auto.
  - split; [|exact Hm]. rewrite Hst. by vm_compute.
Defined.


Lemma Delete_success_trace_witness :
  ∃ started waited,
    started ≡ₚ machines AB ∧ Forall readOnly waited
    ∧ issuedIn AB (Delete (actuator accept [] [busy; gone]) AB).1
      = opsSetup ++ OpList KMachine :: updatesOf started
        ++ opsCascade ++ waited ++ opsRemoval.
Proof.
  apply (Delete_success_trace (actuator accept [] [busy; gone]) AB). by vm_compute.
Defined.

Lemma Delete_succeeds_witness :
  ∃ w', Delete (actuator accept interleaved [busy; gone]) ABCD = (w', Ok tt)
        ∧ machines w' = withMarkerOnce <$> machines ABCD.
Proof.
  apply (Delete_succeeds (actuator accept interleaved [busy; gone]) ABCD [busy] gone []).
  - by vm_compute.
  - by vm_compute.
  - by vm_compute.
  - exact NoDup_ABCD.
  - intros m _. unfold outcome. by destruct (decide (marked m)).
  - reflexivity.
  - intros t' ->%list_elem_of_singleton k. by destruct k; vm_compute.
  - intros k. by destruct k; vm_compute.
Defined.

Lemma markAll_nil_iff_all_marked_witness :
  (∃ errs, (markAllMachinesForcefulDeletion (actuator rejectAC interleaved []) ABCD).2
           = Err (ErrLabelling errs) ∧ errs ≠ [])
  ∧ ¬ Forall marked
        (machines (markAllMachinesForcefulDeletion (actuator rejectAC interleaved []) ABCD).1).
Proof.
  destruct (markAll_nil_iff_all_marked (actuator rejectAC interleaved []) ABCD
              (markAllMachinesForcefulDeletion (actuator rejectAC interleaved []) ABCD).1
              (markAllMachinesForcefulDeletion (actuator rejectAC interleaved []) ABCD).2)
    as (_ & Hiff & Herr).
  - reflexivity.
  - exact NoDup_ABCD.
  - by vm_compute.
  - split.
    + destruct (Herr (ErrLabelling [rejected "C"])) as (errs & Heq & Hne); [by vm_compute|].
      exists errs. split; [|exact Hne]. rewrite <- Heq. by vm_compute.
    + intros Hall. apply Hiff in Hall. by vm_compute in Hall.
Defined.

Lemma markAll_updates_each_unmarked_machine_once_witness :
  length (issuedIn AB (markAllMachinesForcefulDeletion (actuator accept [] []) AB).1)
  = 2%nat.
Proof.
  destruct (markAll_updates_each_unmarked_machine_once (actuator accept [] []) AB
              (markAllMachinesForcefulDeletion (actuator accept [] []) AB).1
              (markAllMachinesForcefulDeletion (actuator accept [] []) AB).2)
    as (started & _ & _ & Hlen).
  - reflexivity.
  - by vm_compute.
  - rewrite Hlen. by vm_compute.
Defined.

Lemma markAll_again_issues_no_update_witness :
  markAllMachinesForcefulDeletion (actuator rejectAC interleaved [])
    (markAllMachinesForcefulDeletion (actuator accept [] []) ABCD).1
  = (logged (OpList KMachine)
       (markAllMachinesForcefulDeletion (actuator accept [] []) ABCD).1, Ok tt).
Proof.
  apply (markAll_again_issues_no_update (actuator accept [] [])
           (actuator rejectAC interleaved []) ABCD).
  - exact NoDup_ABCD.
  - by vm_compute.
  - reflexivity.
Defined.


Lemma tick_lists_open_kinds_in_order_witness :
  ∃ qs,
    issued (after machinesGone start) (after unavailable (after machinesGone start))
    = (OpList <$> qs)
      ++ logOf (after machinesGone start).1 (after unavailable (after machinesGone start)).1
           (Err (ErrNew "machine sets unavailable"))
    ∧ qs `prefix_of` [KMachineSet; KMachineDeployment; KMachineClass; KMachineClassSecret]
    ∧ ∃ k, last qs = Some k ∧ stopsWith k unavailable (ErrNew "machine sets unavailable").
Proof.
  destruct (tick_lists_open_kinds_in_order
              (actuator accept [] [machinesGone; unavailable; gone]) noWorld
              [machinesGone] unavailable [gone] (after machinesGone start)
              (after unavailable (after machinesGone start))
              (Err (ErrNew "machine sets unavailable")))
    as (qs & Hissued & Hpre & _ & Herr).
  - reflexivity.
  - econstructor; [by vm_compute|constructor].
  - by vm_compute.
  - exists qs. split_and!; [exact Hissued|exact Hpre|].
    by destruct (Herr (ErrNew "machine sets unavailable") eq_refl) as [Hk _].
Defined.

Lemma wait_error_causes_witness :
  (ErrMachineFailed "A" "quota exceeded" = ErrWaitTimeout
   ∧ ∃ s', pending condition [busy; failing; gone] (initialCounts, noWorld) s'
           ∧ ¬ allZero s'.1)
  ∨ ∃ pre t post s k,
      [busy; failing; gone] = pre ++ t :: post
      ∧ pending condition pre (initialCounts, noWorld) s
      ∧ count k s.1 ≠ 0
      ∧ stopsWith k t (ErrMachineFailed "A" "quota exceeded").
Proof.
  apply (wait_error_causes (actuator accept [] [busy; failing; gone]) noWorld
           (waitUntilMachineResourcesDeleted
              (actuator accept [] [busy; failing; gone]) noWorld).1).
  by vm_compute.
Defined.

Lemma secrets_hold_up_wait_iff_finalizers_witness :
  count KMachineClassSecret (after busy start).1 = 1
  ∧ count KMachineClassSecret (after gone (after busy start)).1 = 0.
Proof.
  split.
  - destruct (secrets_hold_up_wait_iff_finalizers (actuator accept [] [busy; gone]) noWorld
                [] busy [gone] start (after busy start) false
                [ {| Secret.Name := "secret"; Secret.Finalizers := ["finalizer"] |};
                  {| Secret.Name := "inert"; Secret.Finalizers := [] |} ])
      as (Hcount & _).
    + reflexivity.
    + constructor.
    + by vm_compute.
    + by vm_compute.
    + reflexivity.
    + rewrite Hcount. by vm_compute.
  - destruct (secrets_hold_up_wait_iff_finalizers (actuator accept [] [busy; gone]) noWorld
                [busy] gone [] (after busy start) (after gone (after busy start)) true
                [ {| Secret.Name := "inert"; Secret.Finalizers := [] |} ])
      as (_ & Hiff & _).
    + reflexivity.
    + econstructor; [by vm_compute|constructor].
    + by vm_compute.
    + by vm_compute.
    + reflexivity.
    + apply Hiff. by repeat constructor.
Defined.

End ActuatorWitnesses.

Section MoreMutatorWitnesses.
Import genericmutator mutatorExamples.

Lemma mutateOperatingSystemConfig_touches_only_its_parts_witness :
  OperatingSystemConfig.Units
    (mutateOperatingSystemConfig exampleMutator (fullConfig, [])).1.1 !! 1%nat
  = Some (systemdUnit "docker.service" "ExecStart=dockerd")
  ∧ OperatingSystemConfig.Files
      (mutateOperatingSystemConfig exampleMutator (fullConfig, [])).1.1 !! 1%nat
    = Some (file "/etc/hosts" "localhost").
Proof.
  destruct (mutateOperatingSystemConfig_touches_only_its_parts exampleMutator
              fullConfig []
              (mutateOperatingSystemConfig exampleMutator (fullConfig, [])).1.1
              (mutateOperatingSystemConfig exampleMutator (fullConfig, [])).1.2
              (mutateOperatingSystemConfig exampleMutator (fullConfig, [])).2)
    as (_ & _ & _ & _ & Hunits & _ & Hfiles); [by vm_compute|].
  split.
  - apply Hunits; [reflexivity|by vm_compute].
  - apply Hfiles; [reflexivity|].
    intros Hin. apply list_elem_of_In in Hin. vm_compute in Hin.
    by destruct Hin as [?|[?|[?|[]]]].
Defined.

Lemma mutateOperatingSystemConfig_calls_in_order_witness :
  ∃ new,
    (mutateOperatingSystemConfig exampleMutator (fullConfig, [])).1.2 = [] ++ new
    ∧ new `sublist_of` stepsOf "shoot--foo--bar"
    ∧ CallShouldProvisionKubeletCloudProviderConfig ∈ new
    ∧ CallEnsureKubeletCloudProviderConfig "shoot--foo--bar" ∈ new.
Proof.
  destruct (mutateOperatingSystemConfig_calls_in_order exampleMutator fullConfig []
              (mutateOperatingSystemConfig exampleMutator (fullConfig, [])).1.1
              (mutateOperatingSystemConfig exampleMutator (fullConfig, [])).1.2
              (mutateOperatingSystemConfig exampleMutator (fullConfig, [])).2)
    as (new & Hcalls & Hsub & Hok & Hcloud); [by vm_compute|].
  exists new. split_and!; [exact Hcalls|exact Hsub| |].
  - apply Hok. by vm_compute.
  - apply Hcloud. split; [|reflexivity]. apply Hok. by vm_compute.
Defined.

Lemma Mutate_leaves_config_without_kubelet_parts_witness :
  Mutate remarkingMutator (OperatingSystemConfig bareConfig, [])
  = ((OperatingSystemConfig bareConfig,
      [CallShouldProvisionKubeletCloudProviderConfig]), Ok tt).
Proof.
  apply (Mutate_leaves_config_without_kubelet_parts remarkingMutator bareConfig []).
  - reflexivity.
  - intros i u H. by vm_compute in H.
  - intros i f H. by vm_compute in H.
  - intros i f H. by vm_compute in H.
  - reflexivity.
Defined.

Lemma unit_overwritten_when_serialize_fails_witness :
  mutateOperatingSystemConfig garblingMutator (fullConfig, [])
  = ((setUnits [systemdUnit "kubelet.service" "[Unit"; systemdUnit "docker.service" "ExecStart=dockerd"]
        fullConfig,
      [CallEnsureKubeletServiceUnitOptions]),
     Err (ErrWrapf (ErrNew "cannot serialize")
            "could not serialize kubelet.service unit options")).
Proof.
  apply (unit_overwritten_when_serialize_fails garblingMutator fullConfig [] 0%nat
           (systemdUnit "kubelet.service" "ExecStart=kubelet") "ExecStart=kubelet" []).
  - by vm_compute.
  - reflexivity.
  - reflexivity.
  - reflexivity.
Defined.

Lemma Mutate_calls_the_hook_of_the_object_witness :
  Mutate exampleMutator (Deployment (workload "kube-scheduler"), [])
  = ((Deployment (workload "kube-scheduler"), [CallEnsureKubeSchedulerDeployment]), Ok tt).
Proof.
  destruct (Mutate_calls_the_hook_of_the_object exampleMutator []) as (_ & _ & _ & H).
  apply (H (workload "kube-scheduler")). reflexivity.
Defined.

Lemma Mutate_etcd_looks_up_cluster_first_witness :
  Mutate lostMutator (StatefulSet (workload "etcd-main"), [])
  = ((StatefulSet (workload "etcd-main"), [CallGetCluster "shoot--foo--bar"]),
     Err (ErrWrapf (ErrNew "cluster not found")
            "could not get cluster for namespace 'shoot--foo--bar'")).
Proof.
  apply (Mutate_etcd_looks_up_cluster_first lostMutator (workload "etcd-main") []).
  left. reflexivity.
Defined.

End MoreMutatorWitnesses.
